(** * Sparse sampling, broadcasting and compaction kernels of DGL

    A shallow embedding of the sparse kernels of the graph library: row-wise
    pick (uniform sampling, top-k), broadcast shape inference, the CSR SpMM
    and fill kernels, index compaction and COO intersection,
    unique-and-compact, COO entry removal, the atomic helpers and the
    expansion of an index pointer, with the [std::sort] of the C++ library
    that top-k calls.  Part I holds the embedding, Parts II and III the
    properties.

    Conventions.  [IdType] and [int64_t] values are [Z], with the wrap-around
    of a narrower type written out where the source converts ([to_int],
    [to_int64]); a C array is a list read through [rd], or through
    [at_index] where a read outside the array is to be told apart;
    [float]/[double] values are primitive floats, so that the comparisons of
    the source ([>], [<], [!=]) keep their IEEE meaning.  A [CHECK],
    [LOG(FATAL)] or [throw] is the [Error] case of [result]. *)

From Stdlib Require Import ZArith List Lia Bool Floats Permutation Sorted String.
From stdpp Require Import base tactics option list.
Import ListNotations.
Open Scope Z_scope.

(* ===================================================================== *)
(** * Part I.  The embedding                                              *)
(* ===================================================================== *)

(** ** Arrays, failures and matrices *)

(** [a[i]] on a raw pointer; [d] stands for whatever lies outside the
    allocation (the source never relies on it). *)
Definition rd {A : Type} (d : A) (a : list A) (i : Z) : A :=
  nth (Z.to_nat i) a d.

Notation "a .[ i ]" := (rd 0 a i) (at level 1, i at level 99, format "a .[ i ]").

(** [off, off+1, ..., off+len-1], the result of [std::iota] and of the
    counting loops [for (j = 0; j < len; ++j)]. *)
Definition iota (off : Z) (len : nat) : list Z :=
  map (fun j => off + Z.of_nat j) (seq 0 len).

(** The outcome of an operation that may fail with a reported error. *)
Inductive result (A : Type) : Type :=
| Ok (a : A)
| Error (msg : string).
Arguments Ok {A} a.
Arguments Error {A} msg.

Definition is_error {A : Type} (r : result A) : bool :=
  match r with Ok _ => false | Error _ => true end.

Definition result_bind {A B : Type} (r : result A) (k : A -> result B) : result B :=
  match r with Ok a => k a | Error m => Error m end.

Record COOMatrix : Type := mkCOO {
  coo_num_rows : Z;
  coo_num_cols : Z;
  coo_row : list Z;
  coo_col : list Z;
  coo_data : option (list Z)
}.

Record CSRMatrix : Type := mkCSR {
  csr_num_rows : Z;
  csr_num_cols : Z;
  csr_indptr : list Z;
  csr_indices : list Z;
  csr_data : option (list Z)
}.

(** [data ? data[i] : i], the edge id stored at position [i]. *)
Definition eid_at (data : option (list Z)) (i : Z) : Z :=
  match data with
  | Some d => d.[i]
  | None => i
  end.

(** ** COO entry removal (array/cpu/coo_remove_if.cc) *)

Module RemoveIf.
Section WithDType.
(** [DType] with its [!=] and a filler for out-of-allocation reads. *)
Context {DType : Type} (dtype_ne : DType -> DType -> bool) (dfill : DType).

(** The three output buffers and the write cursor [j]. *)
Record buffers : Type := mkBuffers {
  new_row_data : list Z;
  new_col_data : list Z;
  new_eid_data : list Z;
  cursor : nat
}.

(** One iteration of the loop over [i]. *)
Definition step (coo : COOMatrix) (val : list DType) (criteria : DType)
    (b : buffers) (i : nat) : buffers :=
  let eid := eid_at (coo_data coo) (Z.of_nat i) in
  if dtype_ne (rd dfill val eid) criteria then
    {| new_row_data := <[cursor b := (coo_row coo).[Z.of_nat i]]> (new_row_data b);
       new_col_data := <[cursor b := (coo_col coo).[Z.of_nat i]]> (new_col_data b);
       new_eid_data := <[cursor b := eid]> (new_eid_data b);
       cursor := S (cursor b) |}
  else b.

(** [COORemoveIf]: buffers of [nnz] cells, the loop, then views of the
    first [j] cells. *)
Definition COORemoveIf (coo : COOMatrix) (values : list DType) (criteria : DType)
    : COOMatrix :=
  let nnz := length (coo_row coo) in
  let b0 := {| new_row_data := replicate nnz 0; new_col_data := replicate nnz 0;
               new_eid_data := replicate nnz 0; cursor := 0 |} in
  let b := fold_left (step coo values criteria) (seq 0 nnz) b0 in
  {| coo_num_rows := coo_num_rows coo;
     coo_num_cols := coo_num_cols coo;
     coo_row := take (cursor b) (new_row_data b);
     coo_col := take (cursor b) (new_col_data b);
     coo_data := Some (take (cursor b) (new_eid_data b)) |}.

(** The value the source compares for entry [i]: [val[eid]]. *)
Definition entry_value (coo : COOMatrix) (values : list DType) (i : nat) : DType :=
  rd dfill values (eid_at (coo_data coo) (Z.of_nat i)).

(** The positions whose value differs from [criteria], in order. *)
Definition kept (coo : COOMatrix) (values : list DType) (criteria : DType) : list nat :=
  List.filter (fun i => dtype_ne (entry_value coo values i) criteria)
              (seq 0 (length (coo_row coo))).

(** The (row, col) pairs of a matrix. *)
Definition entries (coo : COOMatrix) : list (Z * Z) :=
  combine (coo_row coo) (coo_col coo).
End WithDType.
End RemoveIf.

(** ** The random engine (dgl/random.h) *)

Module Random.

(** The thread-local engine as an explicit state: the stream of raw draws
    and how many of them were consumed. *)
Record RandomEngine : Type := mkRng { draws : nat -> nat; consumed : nat }.

(** Computations that use the engine and may fail. *)
Definition M (A : Type) : Type := RandomEngine -> result (A * RandomEngine).

Definition ret {A : Type} (a : A) : M A := fun g => Ok (a, g).

Definition bind {A B : Type} (m : M A) (k : A -> M B) : M B :=
  fun g => match m g with
           | Ok (a, g') => k a g'
           | Error e => Error e
           end.

Definition fail {A : Type} (msg : string) : M A := fun _ => Error msg.

(** [RandInt(upper)]: a draw in [[0, upper)]. *)
Definition RandInt (upper : nat) (g : RandomEngine) : nat * RandomEngine :=
  ((draws g (consumed g) mod upper)%nat, mkRng (draws g) (S (consumed g))).

(** [num] draws from [pool], each over the whole pool. *)
Fixpoint draw_replace (num : nat) (pool : list Z) (g : RandomEngine)
    : list Z * RandomEngine :=
  match num with
  | O => ([], g)
  | S n =>
      let (i, g1) := RandInt (length pool) g in
      let (rest, g2) := draw_replace n pool g1 in
      (nth i pool 0 :: rest, g2)
  end.

(** [num] draws from [pool], each drawn element leaving the pool. *)
Fixpoint draw_no_replace (num : nat) (pool : list Z) (g : RandomEngine)
    : list Z * RandomEngine :=
  match num with
  | O => ([], g)
  | S n =>
      let (i, g1) := RandInt (length pool) g in
      let (rest, g2) := draw_no_replace n (delete i pool) g1 in
      (nth i pool 0 :: rest, g2)
  end.

(** Draw [num] members of [pool]; the request must be satisfiable. *)
Definition draw (num : Z) (pool : list Z) (replace : bool) : M (list Z) :=
  if replace then
    if (0 <? num) && (length pool =? 0)%nat
    then fail "Choice: nothing to sample from"
    else fun g => Ok (draw_replace (Z.to_nat num) pool g)
  else
    if Z.of_nat (length pool) <? num
    then fail "Choice: cannot take more samples than the population without replacement"
    else fun g => Ok (draw_no_replace (Z.to_nat num) pool g).

(** Modelled from the spec: [RandomEngine::UniformChoice(num, population,
    out, replace)], whose source (dgl/random.h and its implementation) is
    not among the files.  The spec (4.2) calls it a primitive for k-of-len
    selection with or without replacement: it writes [num] indices of
    [[0, population)], pairwise distinct when [replace] is false.  The
    distribution is left to the raw draws of the engine. *)
Definition UniformChoice (num population : Z) (replace : bool) : M (list Z) :=
  draw num (iota 0 (Z.to_nat population)) replace.

End Random.

Declare Scope rng_scope.
Delimit Scope rng_scope with rng.
Notation "'let*' x ':=' m 'in' k" := (Random.bind m (fun x => k))
  (at level 10, x name, m at level 100, k at level 200) : rng_scope.

(** ** [std::sort] of the C++ library *)

Module StdSort.

(** The requirement of [std::sort] on its comparison over the range it
    sorts: a strict weak ordering, that is, an asymmetric relation whose
    complement is transitive. *)
Definition strict_weak (cmp : Z -> Z -> bool) (l : list Z) : Prop :=
  (forall a b, In a l -> In b l -> cmp a b = true -> cmp b a = false) /\
  (forall a b c, In a l -> In b l -> In c l ->
     cmp a b = false -> cmp b c = false -> cmp a c = false).


(** No element is ordered before one that precedes it. *)
Definition sorted_by (cmp : Z -> Z -> bool) (l : list Z) : Prop :=
  StronglySorted (fun a b => cmp b a = false) l.


(** Insertion before the first element that is not ordered before [x]. *)
Fixpoint insert (cmp : Z -> Z -> bool) (x : Z) (l : list Z) : list Z :=
  match l with
  | [] => [x]
  | y :: l' => if cmp y x then y :: insert cmp x l' else x :: y :: l'
  end.

(** A sort that keeps equivalent elements in their order. *)
Definition stable_sort (cmp : Z -> Z -> bool) (l : list Z) : list Z :=
  fold_right (insert cmp) [] l.

End StdSort.

(** ** [std::sort] as the GNU C++ library has it (bits/stl_algo.h,
       bits/stl_heap.h)

    The introsort of libstdc++ on a vector [v] of [IdxType], positions
    counted from [v.begin()]: median-of-three partitioning down to ranges of
    [_S_threshold] cells, heap sort below the depth limit, and a final
    insertion sort.  [comp] compares values.  The loops that the library
    leaves unguarded stay inside the range for a comparison that is a strict
    weak ordering, which [std::sort] requires; the fuel of every loop is
    the size of the vector. *)

Module LibStdCxx.
Section WithCompare.
Variable comp : Z -> Z -> bool.

(** [*i = x] *)
Definition assign (v : list Z) (i x : Z) : list Z := <[Z.to_nat i := x]> v.

Definition iter_swap (v : list Z) (a b : Z) : list Z :=
  assign (assign v a v.[b]) b v.[a].

Definition __move_median_to_first (v : list Z) (result a b c : Z) : list Z :=
  if comp v.[a] v.[b] then
    if comp v.[b] v.[c] then iter_swap v result b
    else if comp v.[a] v.[c] then iter_swap v result c
    else iter_swap v result a
  else if comp v.[a] v.[c] then iter_swap v result a
  else if comp v.[b] v.[c] then iter_swap v result c
  else iter_swap v result b.

(** [while (comp(first, pivot)) ++first;] *)
Fixpoint advance (fuel : nat) (v : list Z) (first pivot : Z) : Z :=
  match fuel with
  | O => first
  | S fuel' =>
      if comp v.[first] v.[pivot] then advance fuel' v (first + 1) pivot else first
  end.

(** [while (comp(pivot, last)) --last;] *)
Fixpoint retreat (fuel : nat) (v : list Z) (pivot last : Z) : Z :=
  match fuel with
  | O => last
  | S fuel' =>
      if comp v.[pivot] v.[last] then retreat fuel' v pivot (last - 1) else last
  end.

Fixpoint __unguarded_partition (fuel : nat) (v : list Z) (first last pivot : Z)
    : list Z * Z :=
  match fuel with
  | O => (v, first)
  | S fuel' =>
      let first := advance (length v) v first pivot in
      let last := retreat (length v) v pivot (last - 1) in
      if negb (first <? last) then (v, first)
      else __unguarded_partition fuel' (iter_swap v first last) (first + 1) last pivot
  end.

Definition __unguarded_partition_pivot (v : list Z) (first last : Z) : list Z * Z :=
  let mid := first + Z.quot (last - first) 2 in
  let v := __move_median_to_first v first (first + 1) mid (last - 1) in
  __unguarded_partition (length v) v (first + 1) last first.

Fixpoint __push_heap (fuel : nat) (v : list Z) (first holeIndex topIndex value : Z)
    : list Z :=
  let parent := Z.quot (holeIndex - 1) 2 in
  match fuel with
  | O => assign v (first + holeIndex) value
  | S fuel' =>
      if (topIndex <? holeIndex) && comp v.[first + parent] value
      then __push_heap fuel' (assign v (first + holeIndex) v.[first + parent])
                       first parent topIndex value
      else assign v (first + holeIndex) value
  end.

(** The first loop of [__adjust_heap]. *)
Fixpoint sift_down (fuel : nat) (v : list Z) (first holeIndex secondChild len : Z)
    : list Z * Z * Z :=
  match fuel with
  | O => (v, holeIndex, secondChild)
  | S fuel' =>
      if secondChild <? Z.quot (len - 1) 2 then
        let secondChild := 2 * (secondChild + 1) in
        let secondChild :=
          if comp v.[first + secondChild] v.[first + (secondChild - 1)]
          then secondChild - 1 else secondChild in
        sift_down fuel' (assign v (first + holeIndex) v.[first + secondChild])
                  first secondChild secondChild len
      else (v, holeIndex, secondChild)
  end.

Definition __adjust_heap (v : list Z) (first holeIndex len value : Z) : list Z :=
  let topIndex := holeIndex in
  let '(v, holeIndex, secondChild) :=
    sift_down (length v) v first holeIndex holeIndex len in
  let '(v, holeIndex) :=
    if (Z.land len 1 =? 0) && (secondChild =? Z.quot (len - 2) 2) then
      let secondChild := 2 * (secondChild + 1) in
      (assign v (first + holeIndex) v.[first + (secondChild - 1)], secondChild - 1)
    else (v, holeIndex) in
  __push_heap (length v) v first holeIndex topIndex value.

Definition __pop_heap (v : list Z) (first last result : Z) : list Z :=
  let value := v.[result] in
  let v := assign v result v.[first] in
  __adjust_heap v first 0 (last - first) value.

(** The loop of [__make_heap], from [parent] down to 0. *)
Fixpoint make_heap_loop (fuel : nat) (v : list Z) (first len parent : Z) : list Z :=
  match fuel with
  | O => v
  | S fuel' =>
      let v := __adjust_heap v first parent len v.[first + parent] in
      if parent =? 0 then v else make_heap_loop fuel' v first len (parent - 1)
  end.

Definition __make_heap (v : list Z) (first last : Z) : list Z :=
  if last - first <? 2 then v
  else
    let len := last - first in
    make_heap_loop (length v) v first len (Z.quot (len - 2) 2).

Definition __heap_select (v : list Z) (first middle last : Z) : list Z :=
  fold_left (fun v i => if comp v.[i] v.[first] then __pop_heap v first middle i else v)
            (iota middle (Z.to_nat (last - middle)))
            (__make_heap v first middle).

Fixpoint __sort_heap (fuel : nat) (v : list Z) (first last : Z) : list Z :=
  match fuel with
  | O => v
  | S fuel' =>
      if 1 <? last - first
      then __sort_heap fuel' (__pop_heap v first (last - 1) (last - 1)) first (last - 1)
      else v
  end.

Definition __partial_sort (v : list Z) (first middle last : Z) : list Z :=
  __sort_heap (length v) (__heap_select v first middle last) first middle.

(** The loop of [__unguarded_linear_insert]. *)
Fixpoint linear_insert_loop (fuel : nat) (v : list Z) (val last : Z) : list Z :=
  match fuel with
  | O => assign v last val
  | S fuel' =>
      let next := last - 1 in
      if comp val v.[next]
      then linear_insert_loop fuel' (assign v last v.[next]) val next
      else assign v last val
  end.

Definition __unguarded_linear_insert (v : list Z) (last : Z) : list Z :=
  linear_insert_loop (length v) v v.[last] last.

(** [std::move_backward(first, last, d_last)]: the cells are copied from the
    last one to the first. *)
Definition move_backward (v : list Z) (first last d_last : Z) : list Z :=
  fold_left (fun v i => assign v (i + (d_last - last)) v.[i])
            (rev (iota first (Z.to_nat (last - first)))) v.

Definition __insertion_sort (v : list Z) (first last : Z) : list Z :=
  if first =? last then v
  else
    fold_left
      (fun v i =>
         if comp v.[i] v.[first] then
           let val := v.[i] in
           assign (move_backward v first i (i + 1)) first val
         else __unguarded_linear_insert v i)
      (iota (first + 1) (Z.to_nat (last - (first + 1)))) v.

Definition __unguarded_insertion_sort (v : list Z) (first last : Z) : list Z :=
  fold_left __unguarded_linear_insert (iota first (Z.to_nat (last - first))) v.

Definition _S_threshold : Z := 16.

Definition __final_insertion_sort (v : list Z) (first last : Z) : list Z :=
  if _S_threshold <? last - first then
    __unguarded_insertion_sort (__insertion_sort v first (first + _S_threshold))
                               (first + _S_threshold) last
  else __insertion_sort v first last.

Fixpoint __introsort_loop (fuel : nat) (v : list Z) (first last depth_limit : Z)
    : list Z :=
  match fuel with
  | O => v
  | S fuel' =>
      if _S_threshold <? last - first then
        if depth_limit =? 0 then __partial_sort v first last last
        else
          let depth_limit := depth_limit - 1 in
          let (v, cut) := __unguarded_partition_pivot v first last in
          let v := __introsort_loop fuel' v cut last depth_limit in
          __introsort_loop fuel' v first cut depth_limit
      else v
  end.

(** [std::sort(v.begin(), v.end(), comp)] *)
Definition sort (v : list Z) : list Z :=
  let first := 0 in
  let last := Z.of_nat (length v) in
  if first =? last then v
  else
    let v := __introsort_loop (length v) v first last (Z.log2 (last - first) * 2) in
    __final_insertion_sort v first last.

End WithCompare.
End LibStdCxx.

(** ** Row-wise pick (array/cpu/rowwise_pick.h, rowwise_sampling.cc,
       rowwise_topk.cc) *)

Module RowwisePick.
Import Random.
Local Open Scope rng_scope.

(** [NumPicksFn<IdxType>]: (rowid, off, len, col, data) to a count. *)
Definition NumPicksFn : Type :=
  Z -> Z -> Z -> list Z -> option (list Z) -> Z.

(** [PickFn<IdxType>]: (rowid, off, len, num_picks, col, data) to the
    positions written to [out_idx[0..)]. *)
Definition PickFn : Type :=
  Z -> Z -> Z -> Z -> list Z -> option (list Z) -> M (list Z).

(** A capture by reference ([[&]]) of the parameters of the function that
    builds a closure.  The closure holds the addresses of [num_samples] and
    [replace]; the lifetime of these parameters ends when the function
    returns the closure, so that a call of the closure reads what the stack
    holds at these addresses by then, a read to which the C++ standard gives
    no defined result.  [dangling] is what the calls find there. *)
Record dangling : Type := mkDangling { at_num_samples : Z; at_replace : bool }.

(** The closure is built with [[&]]: what it computes with is not the
    [num_samples] and [replace] it was built for, but what the stack holds
    in their place when it is called. *)
Definition GetSamplingUniformNumPicksFn (num_samples : Z) (replace : bool)
    (stack : dangling) : NumPicksFn :=
  fun rowid off len col data =>
    if at_num_samples stack =? -1 then len
    else if at_replace stack then (if len =? 0 then 0 else at_num_samples stack)
    else Z.min len (at_num_samples stack).

(** This closure captures [[num_samples, replace]] by value. *)
Definition GetSamplingUniformPickFn (num_samples : Z) (replace : bool) : PickFn :=
  fun rowid off len num_picks col data =>
    if (num_samples =? -1) || (negb replace && (len =? num_picks)) then
      ret (iota off (Z.to_nat len))
    else
      let* out_idx := UniformChoice num_picks len replace in
      ret (map (fun x => x + off) out_idx).

(** The comparison closure of [GetTopkPickFn]; [a > b] is [b < a]. *)
Definition compare_fn (wdata : list float) (data : option (list Z))
    (ascending : bool) (i j : Z) : bool :=
  if ascending then
    match data with
    | Some d => PrimFloat.ltb (rd 0%float wdata d.[i]) (rd 0%float wdata d.[j])
    | None => PrimFloat.ltb (rd 0%float wdata i) (rd 0%float wdata j)
    end
  else
    match data with
    | Some d => PrimFloat.ltb (rd 0%float wdata d.[j]) (rd 0%float wdata d.[i])
    | None => PrimFloat.ltb (rd 0%float wdata j) (rd 0%float wdata i)
    end.

(** [GetTopkPickFn], over the [std::sort] of the C++ library, which is a
    parameter here: [std_sort cmp l] is the range [l] after
    [std::sort(begin, end, cmp)]. *)
Definition GetTopkPickFn (std_sort : (Z -> Z -> bool) -> list Z -> list Z)
    (k : Z) (weight : list float) (ascending : bool)
    (rowid off len : Z) (col : list Z) (data : option (list Z)) : list Z :=
  let idx := std_sort (compare_fn weight data ascending) (iota off (Z.to_nat len)) in
  map (fun j => idx.[j]) (iota 0 (Z.to_nat k)).

(** Modelled from the spec: [CSRRowWisePick] of rowwise_pick.h, which is not
    among the files.  The spec (4.2) gives its two phases: the number of
    picks [k] of a queried row comes from the num-picks function, the pick
    function then fills the row's part of the output with positions of
    [[off, off+len)], and row, column and edge id are gathered at those
    positions.  [pick_row] is the work for one queried row. *)
Definition pick_row (mat : CSRMatrix) (num_picks_fn : NumPicksFn)
    (pick_fn : PickFn) (rid : Z) : M (list (Z * Z * Z)) :=
  let off := (csr_indptr mat).[rid] in
  let len := (csr_indptr mat).[rid + 1] - off in
  let k := num_picks_fn rid off len (csr_indices mat) (csr_data mat) in
  let* picked := pick_fn rid off len k (csr_indices mat) (csr_data mat) in
  ret (map (fun p => (rid, (csr_indices mat).[p], eid_at (csr_data mat) p)) picked).

Fixpoint pick_rows (mat : CSRMatrix) (num_picks_fn : NumPicksFn)
    (pick_fn : PickFn) (rows : list Z) : M (list (Z * Z * Z)) :=
  match rows with
  | [] => ret []
  | rid :: rows' =>
      let* block := pick_row mat num_picks_fn pick_fn rid in
      let* rest := pick_rows mat num_picks_fn pick_fn rows' in
      ret (block ++ rest)
  end.

Definition CSRRowWisePick (mat : CSRMatrix) (rows : list Z)
    (pick_fn : PickFn) (num_picks_fn : NumPicksFn) : M COOMatrix :=
  let* picked := pick_rows mat num_picks_fn pick_fn rows in
  ret {| coo_num_rows := csr_num_rows mat;
         coo_num_cols := csr_num_cols mat;
         coo_row := map (fun t => fst (fst t)) picked;
         coo_col := map (fun t => snd (fst t)) picked;
         coo_data := Some (map snd picked) |}.

(** Modelled from the spec: the per-row bucketing that the spec (4.2)
    requires before a COO matrix is picked from ([COORowWisePick] is not
    among the files): the entries grouped by row, in their order. *)
Definition COOBuckets (coo : COOMatrix) : CSRMatrix :=
  let positions := iota 0 (length (coo_row coo)) in
  let order :=
    concat (map (fun r => List.filter (fun i => (coo_row coo).[i] =? r) positions)
                (iota 0 (Z.to_nat (coo_num_rows coo)))) in
  {| csr_num_rows := coo_num_rows coo;
     csr_num_cols := coo_num_cols coo;
     csr_indptr :=
       map (fun r => Z.of_nat (length
              (List.filter (fun i => (0 <=? (coo_row coo).[i]) && ((coo_row coo).[i] <? r))
                           positions)))
           (iota 0 (S (Z.to_nat (coo_num_rows coo))));
     csr_indices := map (fun i => (coo_col coo).[i]) order;
     csr_data := Some (map (eid_at (coo_data coo)) order) |}.

Definition COORowWisePick (mat : COOMatrix) (rows : list Z)
    (pick_fn : PickFn) (num_picks_fn : NumPicksFn) : M COOMatrix :=
  CSRRowWisePick (COOBuckets mat) rows pick_fn num_picks_fn.

(** [CSRRowWiseSamplingUniform]; [stack] is what the calls of
    [num_picks_fn] find in place of the parameters it refers to. *)
Definition CSRRowWiseSamplingUniform (stack : dangling) (mat : CSRMatrix)
    (rows : list Z) (num_samples : Z) (replace : bool) : M COOMatrix :=
  let num_picks_fn := GetSamplingUniformNumPicksFn num_samples replace stack in
  let pick_fn := GetSamplingUniformPickFn num_samples replace in
  CSRRowWisePick mat rows pick_fn num_picks_fn.


Definition COORowWiseTopk (std_sort : (Z -> Z -> bool) -> list Z -> list Z)
    (mat : COOMatrix) (rows : list Z) (k : Z) (weight : list float)
    (ascending : bool) : M COOMatrix :=
  let pick_fn : PickFn := fun rowid off len _ col data =>
    ret (GetTopkPickFn std_sort k weight ascending rowid off len col data) in
  COORowWisePick mat rows pick_fn (fun _ _ _ _ _ => k).

End RowwisePick.

(** ** Broadcast shape inference (kernel/binary_reduce.cc) *)

Module BinaryReduce.

(** Of an [NDArray] only the shape matters here; [ndim] is its length.  The
    first dimension counts nodes or edges, the others are the feature
    shape. *)
Record NDArray : Type := mkNDArray { shape : list Z }.

Definition ndim (a : NDArray) : Z := Z.of_nat (length (shape a)).

(** The conversion of an [int64_t] to [int] (the source stores the
    dimensions [dl] and [dr] in [const int]). *)
Definition to_int (x : Z) : Z := (x + 2 ^ 31) mod 2 ^ 32 - 2 ^ 31.

(** An [int64_t] product: the result is the low 64 bits, read as signed. *)
Definition to_int64 (x : Z) : Z := (x + 2 ^ 63) mod 2 ^ 64 - 2 ^ 63.

Record BcastInfo : Type := mkBcastInfo {
  real_out_shape : list Z;
  lhs_shape : list Z;
  rhs_shape : list Z;
  out_shape : list Z;
  lhs_stride : list Z;
  rhs_stride : list Z;
  out_stride : list Z
}.

(** [ret[i] = ret[i+1] * shape[i+1]] for [i] from [size - 2] down to 0,
    on a vector of ones; the product is an [int64_t]. *)
Definition ComputeStride (shp : list Z) : list Z :=
  fold_left (fun ret i =>
               <[i := to_int64 (ret.[Z.of_nat i + 1] * shp.[Z.of_nat i + 1])]> ret)
            (rev (seq 0 (length shp - 1)))
            (replicate (length shp) 1).

(** The variables of the loop of [CalcBcastInfo]. *)
Record bcast_state : Type := mkBcastState {
  accum : Z;
  st_real_out_shape : list Z;
  st_lhs_shape : list Z;
  st_rhs_shape : list Z;
  st_out_shape : list Z
}.

(** [if (accum != 0) { push accum to the three shapes; accum = 0; }] *)
Definition flush_accum (st : bcast_state) : bcast_state :=
  if accum st =? 0 then st
  else {| accum := 0;
          st_real_out_shape := st_real_out_shape st;
          st_lhs_shape := st_lhs_shape st ++ [accum st];
          st_rhs_shape := st_rhs_shape st ++ [accum st];
          st_out_shape := st_out_shape st ++ [accum st] |}.

(** The dimension of [a] at distance [j] from its last axis, as the loop
    reads it. *)
Definition dim_at (a : NDArray) (j : Z) : Z :=
  if ndim a - 1 - j <? 1 then 1 else to_int (shape a).[ndim a - 1 - j].

(** One iteration of the loop over [j]. *)
Definition bcast_step (lhs rhs : NDArray) (st : bcast_state) (j : Z)
    : result bcast_state :=
  let dl := dim_at lhs j in
  let dr := dim_at rhs j in
  if negb (dl =? dr) then
    if negb (dl =? 1) && negb (dr =? 1) then
      Error "Invalid broadcasting between feature shapes"
    else
      let st := flush_accum st in
      Ok {| accum := accum st;
            st_real_out_shape := st_real_out_shape st ++ [Z.max dl dr];
            st_lhs_shape := st_lhs_shape st ++ [dl];
            st_rhs_shape := st_rhs_shape st ++ [dr];
            st_out_shape := st_out_shape st ++ [Z.max dl dr] |}
  else
    (* [accum] is an [int64_t]: [accum = dl] or [accum *= dl] *)
    Ok {| accum := if accum st =? 0 then dl else to_int64 (accum st * dl);
          st_real_out_shape := st_real_out_shape st ++ [Z.max dl dr];
          st_lhs_shape := st_lhs_shape st;
          st_rhs_shape := st_rhs_shape st;
          st_out_shape := st_out_shape st |}.

Fixpoint bcast_loop (lhs rhs : NDArray) (js : list Z) (st : bcast_state)
    : result bcast_state :=
  match js with
  | [] => Ok st
  | j :: js' => result_bind (bcast_step lhs rhs st j) (bcast_loop lhs rhs js')
  end.

Definition CalcBcastInfo (lhs rhs : NDArray) : result BcastInfo :=
  let max_ndim := Z.max (ndim lhs) (ndim rhs) - 1 in
  result_bind
    (bcast_loop lhs rhs (iota 0 (Z.to_nat max_ndim))
       {| accum := 0; st_real_out_shape := []; st_lhs_shape := [];
          st_rhs_shape := []; st_out_shape := [] |})
    (fun st =>
       let st := flush_accum st in
       let ls := rev (st_lhs_shape st) in
       let rs := rev (st_rhs_shape st) in
       let os := rev (st_out_shape st) in
       Ok {| real_out_shape := rev (st_real_out_shape st);
             lhs_shape := ls; rhs_shape := rs; out_shape := os;
             lhs_stride := ComputeStride ls;
             rhs_stride := ComputeStride rs;
             out_stride := ComputeStride os |}).

Definition InferBinaryFeatureShape (lhs rhs : NDArray) : result (list Z) :=
  result_bind (CalcBcastInfo lhs rhs) (fun info => Ok (real_out_shape info)).

(** The statement's vocabulary: the right-aligned dimension of an array (1
    where its feature shape runs out), arrays whose feature dimensions (the
    dimensions after the first, the only ones the loop reads) fit an [int],
    broadcastable pairs and their broadcast shape. *)
Definition aligned_dim (a : NDArray) (j : Z) : Z :=
  if ndim a - 1 - j <? 1 then 1 else (shape a).[ndim a - 1 - j].

Definition fits_int (a : NDArray) : Prop :=
  Forall (fun d => - 2 ^ 31 <= d < 2 ^ 31) (tl (shape a)).

Definition feature_ndim (lhs rhs : NDArray) : Z :=
  Z.max (ndim lhs) (ndim rhs) - 1.

Definition broadcastable (lhs rhs : NDArray) : Prop :=
  forall j, 0 <= j < feature_ndim lhs rhs ->
    aligned_dim lhs j = aligned_dim rhs j \/
    aligned_dim lhs j = 1 \/ aligned_dim rhs j = 1.

Definition broadcast_shape (lhs rhs : NDArray) : list Z :=
  rev (map (fun j => Z.max (aligned_dim lhs j) (aligned_dim rhs j))
           (iota 0 (Z.to_nat (feature_ndim lhs rhs)))).

(** [IsValidBinaryOpShape]: the same [ndim] and, from axis 1 on, the same
    dimensions. *)
Definition IsValidBinaryOpShape (lhs rhs : NDArray) : bool :=
  if negb (ndim lhs =? ndim rhs) then false
  else forallb (fun i => negb (negb ((shape lhs).[i] =? (shape rhs).[i])))
               (iota 1 (Z.to_nat (ndim lhs - 1))).

(** [HasBcast]: a different [ndim] or, from axis 1 on, a different
    dimension. *)
Definition HasBcast (lhs rhs : NDArray) : bool :=
  if negb (ndim lhs =? ndim rhs) then true
  else existsb (fun i => negb ((shape lhs).[i] =? (shape rhs).[i]))
               (iota 1 (Z.to_nat (ndim lhs - 1))).

(** The number of elements of a shape. *)
Definition numel (shp : list Z) : Z := fold_right Z.mul 1 shp.

(** The feature shape of an array: its dimensions after the first. *)
Definition feature_shape (a : NDArray) : list Z := tl (shape a).

(** Feature dimensions that are positive and fit an [int]. *)
Definition positive_features (a : NDArray) : Prop :=
  Forall (fun d => 1 <= d < 2 ^ 31) (feature_shape a).

End BinaryReduce.

(** ** The CSR SpMM kernel (array/cuda/spmm.cuh) *)

Module SpMM.

(** A device pointer: null, or a position in an array. *)
Inductive ptr (DType : Type) : Type :=
| nullptr
| at_ (base : list DType) (pos : Z).
Arguments nullptr {DType}.
Arguments at_ {DType} base pos.

(** [p + k] and [p[k]]; [dfill] stands for what lies outside the array. *)
Definition ptr_add {DType : Type} (p : ptr DType) (k : Z) : ptr DType :=
  match p with
  | nullptr => nullptr
  | at_ base pos => at_ base (pos + k)
  end.

Definition ptr_get {DType : Type} (dfill : DType) (p : ptr DType) (k : Z) : DType :=
  match p with
  | nullptr => dfill
  | at_ base pos => rd dfill base (pos + k)
  end.

(** The two functor interfaces the kernel is a template over. *)
Class BinaryOp (DType : Type) : Type := {
  use_lhs : bool;
  use_rhs : bool;
  Call : ptr DType -> ptr DType -> DType
}.

Class ReduceOp (DType : Type) : Type := {
  zero : DType;
  require_arg : bool;
  (* Call(&accum, &argu, &arge, val, uid, eid) *)
  Reduce : DType * Z * Z -> DType -> Z -> Z -> DType * Z * Z
}.

(** Modelled from the spec: the copy-lhs operator and the sum reducer of
    section 4.3, whose functors (array/cuda/functor.cuh) are not among the
    files: copy-lhs yields the lhs element, sum starts from 0 and adds. *)
#[local] Instance CopyLhs : BinaryOp float := {
  use_lhs := true;
  use_rhs := false;
  Call := fun lhs rhs => ptr_get 0%float lhs 0
}.

#[local] Instance Sum : ReduceOp float := {
  zero := 0%float;
  require_arg := false;
  Reduce := fun acc val uid eid =>
    let '(accum, argu, arge) := acc in ((accum + val)%float, argu, arge)
}.

Section Kernel.
Context {DType : Type} {Op : BinaryOp DType} {Red : ReduceOp DType}.
(** The template flags. *)
Context (UseBcast UseIdx : bool).

(** The arguments of the kernel. *)
Record kernel_args : Type := mkArgs {
  ufeat : list DType;
  efeat : list DType;
  indptr : list Z;
  indices : list Z;
  edge_map : list Z;
  num_rows : Z;
  num_cols : Z;
  nnz : Z;
  ubcast_off : list Z;
  ebcast_off : list Z;
  ufeat_len : Z;
  efeat_len : Z;
  out_len : Z
}.

(** The arrays the kernel writes. *)
Record memory : Type := mkMemory {
  out : list DType;
  arg_u : list Z;
  arg_e : list Z
}.

(** The conversion to [int]: of the offsets [lhs_add] and [rhs_add], and of
    the loop counters [ty] and [tx]. *)
Definition to_int (x : Z) : Z := (x + 2 ^ 31) mod 2 ^ 32 - 2 ^ 31.

(** The body of the loop over the nonzeros [i] of a row, for feature [tx]. *)
Definition edge_step (a : kernel_args) (tx : Z) (acc : DType * Z * Z) (i : Z)
    : DType * Z * Z :=
  let lhs_add := to_int (if UseBcast then (ubcast_off a).[tx] else tx) in
  let rhs_add := to_int (if UseBcast then (ebcast_off a).[tx] else tx) in
  let eid := if UseIdx then (edge_map a).[i] else i in
  let cid := (indices a).[i] in
  let uoff := if use_lhs then at_ (ufeat a) (cid * ufeat_len a) else nullptr in
  let eoff := if use_rhs then at_ (efeat a) (eid * efeat_len a) else nullptr in
  let val := Call (ptr_add uoff lhs_add) (ptr_add eoff rhs_add) in
  Reduce acc val cid eid.

(** [for (Idx i = indptr[ty]; i < indptr[ty + 1]; ++i)] *)
Definition row_nonzeros (a : kernel_args) (ty : Z) : list Z :=
  iota (indptr a).[ty] (Z.to_nat ((indptr a).[ty + 1] - (indptr a).[ty])).

(** The accumulators of output element [(ty, tx)] after the loop over the
    row: they start from [ReduceOp::zero], 0 and 0. *)
Definition accumulate (a : kernel_args) (ty tx : Z) : DType * Z * Z :=
  fold_left (edge_step a tx) (row_nonzeros a ty) (zero, 0, 0).

(** The body of the loop over [tx]: accumulate, then store. *)
Definition store_cell (a : kernel_args) (ty tx : Z) (m : memory) : memory :=
  let '(local_accum, local_argu, local_arge) := accumulate a ty tx in
  let cell := Z.to_nat (ty * out_len a + tx) in
  {| out := <[cell := local_accum]> (out m);
     arg_u := if require_arg && use_lhs then <[cell := local_argu]> (arg_u m) else arg_u m;
     arg_e := if require_arg && use_rhs then <[cell := local_arge]> (arg_e m) else arg_e m |}.

(** [while (i < bound) { body; i += stride; }] for a counter [i] of type
    [int] and a bound of type [int64_t]: the comparison is made on
    [int64_t], and the sum is converted back to [int]. *)
Fixpoint while_lt {S : Type} (fuel : nat) (i stride bound : Z)
    (body : Z -> S -> S) (s : S) : S :=
  match fuel with
  | O => s
  | Datatypes.S fuel' =>
      if i <? bound
      then while_lt fuel' (to_int (i + stride)) stride bound body (body i s)
      else s
  end.

(** The launch configuration and the position of a thread in it. *)
Record dim3 : Type := mkDim { x : Z; y : Z }.

Record launch : Type := mkLaunch { gridDim : dim3; blockDim : dim3 }.

Record thread_id : Type := mkThread { blockIdx : dim3; threadIdx : dim3 }.

(** [SpMMCsrKernel] as run by one thread.  The counters [ty] and [tx] are
    of type [int]: their start, computed on [unsigned int], is converted to
    [int], and so is every sum with the stride.  The strides ([stride_y] an
    [Idx], [stride_x] an [int]) enter through these sums only, which their
    low 32 bits decide, so that they are kept as the products they come
    from. *)
Definition SpMMCsrKernel (fuel : nat) (cfg : launch) (t : thread_id)
    (a : kernel_args) (m : memory) : memory :=
  let ty := to_int (y (blockIdx t) * y (blockDim cfg) + y (threadIdx t)) in
  let stride_y := y (blockDim cfg) * y (gridDim cfg) in
  let stride_x := x (blockDim cfg) * x (gridDim cfg) in
  while_lt fuel ty stride_y (num_rows a)
    (fun ty m =>
       let tx := to_int (x (blockIdx t) * x (blockDim cfg) + x (threadIdx t)) in
       while_lt fuel tx stride_x (out_len a) (fun tx m => store_cell a ty tx m) m)
    m.

(** The threads of a launch. *)
Definition threads (cfg : launch) : list thread_id :=
  map (fun '(bx, by_, (tx, ty)) => mkThread (mkDim bx by_) (mkDim tx ty))
      (list_prod (list_prod (iota 0 (Z.to_nat (x (gridDim cfg))))
                            (iota 0 (Z.to_nat (y (gridDim cfg)))))
                 (list_prod (iota 0 (Z.to_nat (x (blockDim cfg))))
                            (iota 0 (Z.to_nat (y (blockDim cfg)))))).

(** A launch: the threads run in some order, each to completion.  No two
    threads write different values to a cell, so the order of their steps
    does not show in the result. *)
Definition run (fuel : nat) (cfg : launch) (schedule : list thread_id)
    (a : kernel_args) (m : memory) : memory :=
  fold_left (fun m t => SpMMCsrKernel fuel cfg t a m) schedule m.

End Kernel.

(** [while (i < length) { body; i += stride; }] for a counter [i] of type
    [int] and a [length] of type [size_t]: the comparison converts the
    counter to [size_t], and the sum is converted back to [int]. *)
Fixpoint while_lt_size {S : Type} (fuel : nat) (i stride length : Z)
    (body : Z -> S -> S) (s : S) : S :=
  match fuel with
  | O => s
  | Datatypes.S fuel' =>
      if i mod 2 ^ 64 <? length
      then while_lt_size fuel' (to_int (i + stride)) stride length body (body i s)
      else s
  end.

(** [_FillKernel] as run by one thread of a launch; [tx] and [stride_x] are
    of type [int], [length] is a [size_t].  The stride enters through the
    sum [tx + stride_x] only, which is converted to [int] and which the low
    32 bits of the stride decide, so that it is kept as the product it comes
    from. *)
Definition _FillKernel {DType : Type} (fuel : nat) (cfg : launch) (t : thread_id)
    (length : Z) (val : DType) (p : list DType) : list DType :=
  let tx := to_int (x (blockIdx t) * x (blockDim cfg) + x (threadIdx t)) in
  let stride_x := x (gridDim cfg) * x (blockDim cfg) in
  while_lt_size fuel tx stride_x length (fun tx p => <[Z.to_nat tx := val]> p) p.

(** A launch of [_FillKernel]: the threads run in some order. *)
Definition run_fill {DType : Type} (fuel : nat) (cfg : launch)
    (schedule : list thread_id) (length : Z) (val : DType) (p : list DType)
    : list DType :=
  fold_left (fun p t => _FillKernel fuel cfg t length val p) schedule p.

End SpMM.

(** ** CUDA utilities (graphbolt, cuda/utils.h) *)

Module CudaUtils.

Definition CUDA_MAX_NUM_THREADS : Z := 1024.

(** The loop of [FindNumThreads]:
    [while ((ret << 1) <= std::min(size, CUDA_MAX_NUM_THREADS)) ret <<= 1;] *)
Fixpoint find_loop (fuel : nat) (ret size : Z) : Z :=
  match fuel with
  | O => ret
  | S fuel' =>
      if Z.shiftl ret 1 <=? Z.min size CUDA_MAX_NUM_THREADS
      then find_loop fuel' (Z.shiftl ret 1) size
      else ret
  end.

(** [FindNumThreads(size)]; the loop doubles [ret] at most ten times before
    it passes [CUDA_MAX_NUM_THREADS]. *)
Definition FindNumThreads (size : Z) : Z := find_loop 11 1 size.

End CudaUtils.

(** ** Unique and compact (graphbolt, cuda/unique_and_compact_impl.cu) *)

Module UniqueAndCompactImpl.

(** [_NumberOfBits] of cuda/utils.h, for a 64-bit [T]. *)
Fixpoint bits_loop (fuel : nat) (bits urange : Z) : Z :=
  match fuel with
  | O => bits
  | S fuel' =>
      if (bits <? 64) && (2 ^ bits <? urange) then bits_loop fuel' (bits + 1) urange
      else bits
  end.

Definition NumberOfBits (range : Z) : Z :=
  if range <=? 1 then 0 else bits_loop 64 1 (range mod 2 ^ 64).

(** The key a radix sort over [num_bits] bits orders by. *)
Definition radix_key (num_bits : Z) (v : Z) : Z := Z.land v (2 ^ num_bits - 1).

(** [Sort<false>(ptr, n, num_bits)] and [Sort(tensor, num_bits)] of the CUDA
    sort helper, which is not among the files: an ascending stable radix
    sort on the low [num_bits] bits; the second form also returns, for each
    sorted element, its index in the input. *)
Definition Sort_values (input : list Z) (num_bits : Z) : list Z :=
  StdSort.stable_sort (fun a b => radix_key num_bits a <? radix_key num_bits b) input.

Definition Sort (input : list Z) (num_bits : Z) : list Z * list Z :=
  let order :=
    StdSort.stable_sort
      (fun i j => radix_key num_bits input.[i] <? radix_key num_bits input.[j])
      (iota 0 (length input)) in
  (map (fun i => input.[i]) order, order).

(** [thrust::lower_bound] on a sorted range: the first position whose
    element is not less than [v]. *)
Fixpoint lower_bound (sorted : list Z) (v : Z) : Z :=
  match sorted with
  | [] => 0
  | s :: sorted' => if s <? v then 1 + lower_bound sorted' v else 0
  end.

(** [thrust::binary_search]: whether [v] occurs in the sorted range. *)
Definition binary_search (sorted : list Z) (v : Z) : bool :=
  let i := lower_bound sorted v in
  (i <? Z.of_nat (length sorted)) && (sorted.[i] =? v).

(** [cub::DeviceRunLengthEncode::Encode], the unique values output: one
    value per run of equal values. *)
Fixpoint run_length_unique (l : list Z) : list Z :=
  match l with
  | [] => []
  | a :: l' =>
      match l' with
      | [] => [a]
      | b :: _ => if a =? b then run_length_unique l' else a :: run_length_unique l'
      end
  end.

(** [UniqueAndCompact(src_ids, dst_ids, unique_dst_ids, num_bits)], on
    tensors of one integral type.  [junk] is whatever lies after the end of
    [sorted_order], which [EqualityFunc] reads when [lower_bound] finds no
    position. *)
Definition UniqueAndCompact (junk : Z) (src_ids dst_ids unique_dst_ids : list Z)
    (num_bits : Z) : result (list Z * list Z * list Z) :=
  let num_bits :=
    if (num_bits <=? 0) || (64 <? num_bits) then
      let max_id_src := fold_right Z.max (- 2 ^ 63) src_ids in
      let max_id_dst := fold_left Z.max unique_dst_ids 0 in
      NumberOfBits (Z.max max_id_src max_id_dst + 1)
    else num_bits in
  (* Sort the unique_dst_ids tensor. *)
  let sorted_unique_dst_ids := Sort_values unique_dst_ids num_bits in
  (* Mark dst nodes in the src_ids tensor. *)
  let is_dst := map (binary_search sorted_unique_dst_ids) src_ids in
  (* Filter the non-dst nodes in the src_ids tensor, hence only_src. *)
  let only_src := map fst (List.filter (fun p => negb (snd p)) (combine src_ids is_dst)) in
  let sorted_only_src := Sort_values only_src num_bits in
  let unique_only_src := run_length_unique sorted_only_src in
  let real_order := unique_dst_ids ++ unique_only_src in
  (* Sort here so that binary search can be used to lookup new_ids. *)
  let '(sorted_order, new_ids) := Sort real_order num_bits in
  let new_src_ids_loc := map (lower_bound sorted_order) src_ids in
  let new_dst_ids_loc := map (lower_bound sorted_order) dst_ids in
  (* Check if unique_dst_ids includes all dst_ids. *)
  let all_exist :=
    forallb (fun p => rd junk sorted_order (fst p) =? snd p)
            (combine new_dst_ids_loc dst_ids) in
  if negb all_exist then Error "Some ids not found."
  else
    let new_src_ids := map (fun loc => new_ids.[loc]) new_src_ids_loc in
    let new_dst_ids := map (fun loc => new_ids.[loc]) new_dst_ids_loc in
    Ok (real_order, new_src_ids, new_dst_ids).

End UniqueAndCompactImpl.

(** ** COO entry removal by edge type (array/cpu/coo_remove_if.cc) *)

Module EtypeRemoveIf.
Import RemoveIf.
Section WithDType.
(** [DType] with its [!=]. *)
Context {DType : Type} (dtype_ne : DType -> DType -> bool).
(** [IdType] is [int32_t] or [int64_t]; [bits] is its width. *)
Context (bits : Z).

(** The conversion of an [int64_t] to [IdType]. *)
Definition to_IdType (x : Z) : Z :=
  (x + 2 ^ (bits - 1)) mod 2 ^ bits - 2 ^ (bits - 1).

(** [a[i]] at an index of the array.  A read outside the array has no
    defined result, which [None] stands for. *)
Definition at_index {A : Type} (a : list A) (i : Z) : option A :=
  if i <? 0 then None else a !! Z.to_nat i.

(** The vector [val]: [etype_offset.size() - 1] null pointers, of which the
    loop over [values] sets the first [values.size()], to null where the
    value array is a null array ([None]).  There is no such vector for an
    empty [etype_offset], whose size minus one wraps around, and with more
    value arrays than cells the loop writes outside the vector. *)
Definition value_pointers (etype_offset : list Z) (values : list (option (list DType)))
    : option (list (option (list DType))) :=
  match etype_offset with
  | [] => None
  | _ :: cells =>
      if (length cells <? length values)%nat then None
      else Some (values ++ replicate (length cells - length values) None)
  end.

(** [data ? data[i] : i], an [IdType]; [i] is an [int64_t]. *)
Definition read_eid (data : option (list Z)) (i : Z) : option Z :=
  match data with
  | Some d => at_index d i
  | None => Some (to_IdType i)
  end.

(** The condition of the loop body on the entry with edge id
    [homogenized_eid]; [std::lower_bound] is read as on a sorted vector.
    The position found and the difference of the [int64_t] values are
    stored as [IdType]; the three reads
    [etype_offset[heterogenized_etype]], [val[heterogenized_etype]] and
    [val[heterogenized_etype][heterogenized_eid]] are reads at an index. *)
Definition passes (etype_offset : list Z) (val : list (option (list DType)))
    (criteria : DType) (homogenized_eid : Z) : option bool :=
  let heterogenized_etype :=
    to_IdType (UniqueAndCompactImpl.lower_bound etype_offset homogenized_eid) in
  match at_index etype_offset heterogenized_etype with
  | None => None
  | Some offset =>
      let heterogenized_eid := to_IdType (homogenized_eid - offset) in
      match at_index val heterogenized_etype with
      | None => None
      | Some None => Some true
      | Some (Some v) =>
          match at_index v heterogenized_eid with
          | None => None
          | Some x => Some (dtype_ne x criteria)
          end
      end
  end.

(** The condition of the loop body at the entry [i]. *)
Definition test (coo : COOMatrix) (etype_offset : list Z)
    (val : list (option (list DType))) (criteria : DType) (i : nat) : option bool :=
  match read_eid (coo_data coo) (Z.of_nat i) with
  | None => None
  | Some homogenized_eid => passes etype_offset val criteria homogenized_eid
  end.

(** One iteration of the loop over [i]. *)
Definition step (coo : COOMatrix) (etype_offset : list Z)
    (val : list (option (list DType))) (criteria : DType)
    (b : buffers) (i : nat) : option buffers :=
  match read_eid (coo_data coo) (Z.of_nat i) with
  | None => None
  | Some homogenized_eid =>
      match passes etype_offset val criteria homogenized_eid with
      | None => None
      | Some false => Some b
      | Some true =>
          match at_index (coo_row coo) (Z.of_nat i),
                at_index (coo_col coo) (Z.of_nat i) with
          | Some r, Some c =>
              Some {| new_row_data := <[cursor b := r]> (new_row_data b);
                      new_col_data := <[cursor b := c]> (new_col_data b);
                      new_eid_data := <[cursor b := homogenized_eid]> (new_eid_data b);
                      cursor := S (cursor b) |}
          | _, _ => None
          end
      end
  end.

(** The loop [for (int64_t i = 0; i < nnz; ++i)], over the list of its
    indices. *)
Fixpoint loop (coo : COOMatrix) (etype_offset : list Z)
    (val : list (option (list DType))) (criteria : DType)
    (is_ : list nat) (b : buffers) : option buffers :=
  match is_ with
  | [] => Some b
  | i :: is' =>
      match step coo etype_offset val criteria b i with
      | None => None
      | Some b' => loop coo etype_offset val criteria is' b'
      end
  end.

(** [COOEtypeRemoveIf]; [None] for an execution that reads or writes
    outside an array. *)
Definition COOEtypeRemoveIf (coo : COOMatrix) (etype_offset : list Z)
    (values : list (option (list DType))) (criteria : DType) : option COOMatrix :=
  match value_pointers etype_offset values with
  | None => None
  | Some val =>
      let nnz := length (coo_row coo) in
      let b0 := {| new_row_data := replicate nnz 0; new_col_data := replicate nnz 0;
                   new_eid_data := replicate nnz 0; cursor := 0 |} in
      match loop coo etype_offset val criteria (seq 0 nnz) b0 with
      | None => None
      | Some b =>
          Some {| coo_num_rows := coo_num_rows coo;
                  coo_num_cols := coo_num_cols coo;
                  coo_row := take (cursor b) (new_row_data b);
                  coo_col := take (cursor b) (new_col_data b);
                  coo_data := Some (take (cursor b) (new_eid_data b)) |}
      end
  end.

End WithDType.
End EtypeRemoveIf.

(** ** Index compaction (sparse/matrix_ops.cc) *)

Module Compact.

(** The tensor operations of the torch library, on one-dimensional integer
    tensors. *)

(** [t.sort(-1)]: the values in ascending order and, for each, its index
    in [t]. *)
Definition sort (t : list Z) : list Z * list Z :=
  let sort_idx := StdSort.stable_sort (fun i j => t.[i] <? t.[j]) (iota 0 (length t)) in
  (map (fun i => t.[i]) sort_idx, sort_idx).

(** [t.index_put_({idx}, vals)]: [t[idx[i]] = vals[i]] for every [i]. *)
Definition index_put_ (t idx vals : list Z) : list Z :=
  fold_left (fun d kv => <[Z.to_nat (fst kv) := snd kv]> d) (combine idx vals) t.

(** [torch::arange(start, end, -1)] for [end = -1]: [start, ..., 0]. *)
Definition arange_down (start : Z) : list Z :=
  map (fun i => start - i) (iota 0 (Z.to_nat (start + 1))).

(** [t.index_select(0, idx)]. *)
Definition index_select (t idx : list Z) : list Z := map (fun i => t.[i]) idx.

(** [t.slice(0, a, b)]. *)
Definition slice (t : list Z) (a b : Z) : list Z :=
  firstn (Z.to_nat (b - a)) (skipn (Z.to_nat a) t).

(** What [torch::_unique(t, sorted = false, return_inverse = true)] promises:
    the distinct values of [t], in an order that is not specified, and for
    each element of [t] the index of its value among them. *)
Definition unique_spec (unique : list Z -> list Z * list Z) : Prop :=
  forall t,
    List.NoDup (fst (unique t)) /\
    (forall v, In v (fst (unique t)) <-> In v t) /\
    length (snd (unique t)) = length t /\
    (forall i, 0 <= i < Z.of_nat (length t) ->
       0 <= (snd (unique t)).[i] < Z.of_nat (length (fst (unique t))) /\
       (fst (unique t)).[(snd (unique t)).[i]] = t.[i]).

(** The position of the first [v] in [l]. *)
Fixpoint index_of (v : Z) (l : list Z) : Z :=
  match l with
  | [] => 0
  | a :: l' => if a =? v then 0 else 1 + index_of v l'
  end.

(** The values of [l] in the order of their first appearance. *)
Fixpoint first_seen (seen l : list Z) : list Z :=
  match l with
  | [] => []
  | a :: l' =>
      if existsb (Z.eqb a) seen then first_seen seen l'
      else a :: first_seen (a :: seen) l'
  end.

(** Two behaviours of [_unique] that meet the promise: the values in
    reverse order of first appearance (a hash set that is iterated from its
    newest entry), and the values in ascending order (an implementation that
    sorts whatever the flag). *)
Definition unique_newest_first (t : list Z) : list Z * list Z :=
  let u := rev (first_seen [] t) in (u, map (fun v => index_of v u) t).

Definition unique_ascending (t : list Z) : list Z * list Z :=
  let u := StdSort.stable_sort Z.ltb (first_seen [] t) in
  (u, map (fun v => index_of v u) t).

(** [CompactIndices(row, leading_indices)], over the [_unique] of the torch
    library in use. *)
Definition CompactIndices (unique : list Z -> list Z * list Z)
    (row : list Z) (leading_indices : option (list Z)) : list Z * list Z :=
  let '(sort_row, sort_idx) := sort row in
  let rev_sort_idx :=
    index_put_ (replicate (length sort_idx) 0) sort_idx (iota 0 (length sort_idx)) in
  let n_leading_indices :=
    match leading_indices with
    | Some leading => Z.of_nat (length leading)
    | None => 0
    end in
  let '(uniqued, uniq_idx) :=
    match leading_indices with
    | Some leading => unique (leading ++ sort_row)
    | None => unique sort_row
    end in
  let new_row :=
    index_select
      (index_select (arange_down (Z.of_nat (length uniqued) - 1))
                    (slice uniq_idx n_leading_indices
                           (n_leading_indices + Z.of_nat (length row))))
      rev_sort_idx in
  (new_row, uniqued).

(** [CompactCOO(mat, dim, leading_indices)] on the row and column tensors of
    the matrix: the compacted matrix and the tensor of original ids. *)
Definition CompactCOO (unique : list Z -> list Z * list Z)
    (coo : list Z * list Z) (dim : Z) (leading_indices : option (list Z))
    : (list Z * list Z) * list Z :=
  let '(row, col) := if dim =? 0 then coo else (snd coo, fst coo) in
  let '(new_row, uniqued) := CompactIndices unique row leading_indices in
  if dim =? 0 then ((new_row, col), rev uniqued)
  else ((col, new_row), rev uniqued).

(** The assignment the claim describes: a leading id gets its position
    among the leading ids; any other id gets, after the leading range, the
    reverse of its position among the sorted other ids. *)
Definition claimed_index (leading row : list Z) (v : Z) : Z :=
  if existsb (Z.eqb v) leading then index_of v leading
  else
    let residual :=
      StdSort.stable_sort Z.ltb
        (first_seen [] (List.filter (fun w => negb (existsb (Z.eqb w) leading)) row)) in
    Z.of_nat (length leading) + (Z.of_nat (length residual) - 1 - index_of v residual).

End Compact.

(** ** Intersection of COO matrices (sparse/matrix_ops.cc) *)

Module Intersection.
Import Compact.

(** The [COO] structure of the sparse library; the [2 x nnz] tensor
    [indices] is kept as its two rows. *)
Record COO : Type := mkSparseCOO {
  num_rows : Z;
  num_cols : Z;
  indices : list Z * list Z;
  row_sorted : bool;
  col_sorted : bool
}.

(** Arithmetic on [int64] tensors wraps around. *)
Definition int64 (x : Z) : Z := (x + 2 ^ 63) mod 2 ^ 64 - 2 ^ 63.

(** [indices.index({0}) * num_cols + indices.index({1})]. *)
Definition encode (m : COO) : list Z :=
  map (fun rc => int64 (int64 (fst rc * num_cols m) + snd rc))
      (combine (fst (indices m)) (snd (indices m))).

(** What [torch::unique_dim(t, 0, sorted = false, return_inverse = true,
    return_counts = true)] promises on a one-dimensional tensor: the
    distinct values of [t], for each element of [t] the index of its value
    among them, and for each distinct value how often it occurs. *)
Definition unique_dim_spec (unique_dim : list Z -> list Z * list Z * list Z) : Prop :=
  forall t,
    let '(u, inverse, counts) := unique_dim t in
    List.NoDup u /\
    (forall v, In v u <-> In v t) /\
    length inverse = length t /\
    (forall i, 0 <= i < Z.of_nat (length t) ->
       0 <= inverse.[i] < Z.of_nat (length u) /\ u.[inverse.[i]] = t.[i]) /\
    length counts = length u /\
    (forall j, 0 <= j < Z.of_nat (length u) ->
       counts.[j] = Z.of_nat (count_occ Z.eq_dec t u.[j])).

(** A behaviour of [unique_dim] that meets the promise: the values in
    ascending order. *)
Definition unique_dim_ascending (t : list Z) : list Z * list Z * list Z :=
  let '(u, inverse) := unique_ascending t in
  (u, inverse, map (fun v => Z.of_nat (count_occ Z.eq_dec t v)) u).

(** [t.index({mask})] for a boolean [mask]. *)
Definition index_mask (t : list Z) (mask : list bool) : list Z :=
  map fst (List.filter snd (combine t mask)).

(** [COOIntersection(lhs, rhs)], over the [unique_dim] of the torch library
    in use and over what [torch::empty_like] leaves in the fresh tensor.
    Integer division of a non-empty tensor by zero raises. *)
Definition COOIntersection (unique_dim : list Z -> list Z * list Z * list Z)
    (empty_like : list Z -> list Z) (lhs rhs : COO)
    : result (COO * list Z * list Z) :=
  (* 1. Encode the two COO matrices into arrays of integers. *)
  let lhs_arr := encode lhs in
  let rhs_arr := encode rhs in
  (* 2. Concatenate the two arrays. *)
  let arr := lhs_arr ++ rhs_arr in
  (* 3. Unique the concatenated array. *)
  let '(unique, inverse, counts) := unique_dim arr in
  (* 4. Find the indices of the counts greater than 1 in the unique array. *)
  let mask := map (fun c => 1 <? c) counts in
  (* 5. Map the inverse array to the original array to generate indices. *)
  let lhs_inverse := slice inverse 0 (Z.of_nat (length lhs_arr)) in
  let rhs_inverse := slice inverse (Z.of_nat (length lhs_arr)) (Z.of_nat (length arr)) in
  let map_to_original := empty_like unique in
  let map_to_original :=
    index_put_ map_to_original lhs_inverse (iota 0 (length lhs_inverse)) in
  let lhs_indices := index_mask map_to_original mask in
  let map_to_original :=
    index_put_ map_to_original rhs_inverse (iota 0 (length rhs_inverse)) in
  let rhs_indices := index_mask map_to_original mask in
  (* 6. Decode the indices to get the intersection COO matrix. *)
  let ret_arr := index_mask unique mask in
  if (num_cols lhs =? 0) && negb (length ret_arr =? 0)%nat
  then Error "ZeroDivisionError"
  else
    let ret_indices :=
      (map (fun v => v / num_cols lhs) ret_arr,
       map (fun v => v mod num_cols lhs) ret_arr) in
    Ok (mkSparseCOO (num_rows lhs) (num_cols lhs) ret_indices false false,
        lhs_indices, rhs_indices).

(** The entries of a matrix, as pairs of row and column. *)
Definition entries (m : COO) : list (Z * Z) :=
  combine (fst (indices m)) (snd (indices m)).

End Intersection.

(** ** Atomic read-modify-write helpers (array/cuda/atomic.cuh) *)

Module Atomic.

(** A memory word of [bits] bits is kept as its unsigned code, the way the
    helpers see it through [reinterpret_cast<CT*>(addr)].  [Cast<T>] for a
    signed integer type [T] of [bits] bits: [Encode] is [static_cast] to the
    unsigned type of that size, [Decode] the [static_cast] back. *)
Definition Encode (bits : Z) (val : Z) : Z := val mod 2 ^ bits.

Definition Decode (bits : Z) (code : Z) : Z :=
  (code + 2 ^ (bits - 1)) mod 2 ^ bits - 2 ^ (bits - 1).

(** [atomicCAS(address, compare, val)] and [atomicMax(address, val)] of CUDA
    on the word at [address]: the word afterwards and the old word, which is
    what the call returns. *)
Definition atomicCAS (word compare val : Z) : Z * Z :=
  (if word =? compare then val else word, word).

Definition atomicMax (word val : Z) : Z * Z := (Z.max word val, word).

Section AtomicOp.

(** [bits] is [8 * sizeof(T)]; [OP] is the macro of that name, on values of
    [T]. *)
Variable bits : Z.
Variable OP : Z -> Z -> Z.

(** The do-while loop of [Atomic##NAME] ([DEFINE_ATOMIC]).  Other threads
    may store to the word between this thread's last read of it and its
    [atomicCAS]: [others] lists, round by round, the word they leave
    ([None] when they leave it alone).  The result is the word after the
    loop and the returned value. *)
Fixpoint cas_loop (fuel : nat) (others : list (option Z)) (val word old : Z)
    : option (Z * Z) :=
  match fuel with
  | O => None
  | S fuel' =>
      let assumed := old in
      let word := match others with Some w :: _ => w | _ => word end in
      let '(word, old) :=
        atomicCAS word assumed (Encode bits (OP val (Decode bits old))) in
      if negb (assumed =? old) then cas_loop fuel' (tl others) val word old
      else Some (word, Decode bits old)
  end.

Definition AtomicOp (fuel : nat) (others : list (option Z)) (word val : Z)
    : option (Z * Z) :=
  let old := word in
  cas_loop fuel others val word old.

End AtomicOp.

(** [AtomicCAS] and [AtomicMax] on [int64_t]: [Type] is
    [unsigned long long int]. *)
Definition AtomicCAS_int64 (word compare val : Z) : Z * Z :=
  let '(word, old) := atomicCAS word (Encode 64 compare) (Encode 64 val) in
  (word, Decode 64 old).

Definition AtomicMax_int64 (word val : Z) : Z * Z :=
  let '(word, old) := atomicMax word (Encode 64 val) in
  (word, Decode 64 old).

(** [AtomicCAS] and [AtomicMax] on [int32_t]: [Type] is [int], so that the
    word is read as the signed value it holds. *)
Definition AtomicCAS_int32 (word compare val : Z) : Z * Z :=
  let '(v, old) := atomicCAS (Decode 32 word) compare val in
  (Encode 32 v, old).

Definition AtomicMax_int32 (word val : Z) : Z * Z :=
  let '(v, old) := atomicMax (Decode 32 word) val in
  (Encode 32 v, old).

End Atomic.

(** ** Expansion of an index pointer (cuda/expand_indptr.cu) *)

Module ExpandIndptr.

(** The integral types of [AT_DISPATCH_INTEGRAL_TYPES]: [uint8_t],
    [int8_t], [int16_t], [int32_t] and [int64_t]. *)
Inductive ScalarType : Type := Byte | Char | Short | Int | Long.

Definition signed (bits x : Z) : Z :=
  (x + 2 ^ (bits - 1)) mod 2 ^ bits - 2 ^ (bits - 1).

(** [static_cast] of an integer to the type. *)
Definition cast (t : ScalarType) (x : Z) : Z :=
  match t with
  | Byte => x mod 2 ^ 8
  | Char => signed 8 x
  | Short => signed 16 x
  | Int => signed 32 x
  | Long => signed 64 x
  end.

(** [RepeatIndex<indices_t, nodes_t>{nodes}(i)], the value that the
    constant iterator repeats; [indices_t] is the output type. *)
Definition RepeatIndex (indices_t : ScalarType) (nodes : option (list Z)) (i : Z) : Z :=
  let i := cast indices_t i in
  match nodes with
  | Some nodes => nodes.[i]
  | None => i
  end.

(** [OutputBufferIndexer{indptr, buffer}(i)], as an offset into [buffer]. *)
Definition OutputBufferIndexer (indptr : list Z) (i : Z) : Z := indptr.[i].

Definition AdjacentDifference (indptr : list Z) (i : Z) : Z :=
  indptr.[i + 1] - indptr.[i].

(** What [cub::DeviceCopy::Batched] does for buffer [i]: it copies
    [buffer_sizes[i]] items from [input_buffer[i]] to [output_buffer[i]]. *)
Definition copy_buffer (indices_t : ScalarType) (nodes : option (list Z))
    (indptr : list Z) (csc_rows : list Z) (i : Z) : list Z :=
  let value := cast indices_t (RepeatIndex indices_t nodes i) in
  fold_left (fun b p => <[Z.to_nat p := value]> b)
            (iota (OutputBufferIndexer indptr i)
                  (Z.to_nat (AdjacentDifference indptr i)))
            csc_rows.

(** [ExpandIndptrImpl(indptr, output_dtype, num_edges, nodes)], over what
    [torch::empty] leaves in the fresh tensor.  [schedule] is the order in
    which the copies of the buffers [0 .. num_rows - 1] take effect. *)
Definition ExpandIndptrImpl (empty : Z -> list Z) (schedule : list Z)
    (indptr : list Z) (output_dtype : ScalarType) (num_edges : option Z)
    (nodes : option (list Z)) : list Z :=
  let num_edges :=
    match num_edges with
    | Some n => n
    | None => indptr.[Z.of_nat (length indptr) - 1]
    end in
  let csc_rows := empty num_edges in
  fold_left (copy_buffer output_dtype nodes indptr) schedule csc_rows.

End ExpandIndptr.

(* ===================================================================== *)
(** * Part II.  Properties                                                *)
(* ===================================================================== *)

(** ** Lists as arrays *)

Lemma take_S_insert {A : Type} (l : list A) (i : nat) (x : A) :
  (i < length l)%nat -> take (S i) (<[i:=x]> l) = take i l ++ [x].
Proof.
  intros Hi. rewrite (take_S_r _ _ x) by (apply list_lookup_insert_eq; lia).
  rewrite take_insert_ge by lia. reflexivity.
Qed.

Lemma map_fst_combine {A B : Type} (l : list A) (k : list B) :
  (length l <= length k)%nat -> map fst (combine l k) = l.
Proof.
  revert k. induction l as [|a l IH]; intros [|b k] Hlen; simpl in *;
    try lia; auto.
  f_equal. apply IH. lia.
Qed.

(** ** COO entry removal *)

Section RemoveIfFacts.
Import RemoveIf.
Context {DType : Type} (dtype_ne : DType -> DType -> bool) (dfill : DType).
Variables (coo : COOMatrix) (values : list DType) (criteria : DType).

Local Abbreviation stepf := (step dtype_ne dfill coo values criteria).
Local Abbreviation keep i := (dtype_ne (entry_value dfill coo values i) criteria).

(** Loop invariant: the cells below the cursor hold the kept entries of
    the positions seen so far. *)
Lemma fold_step_invariant (is_ : list nat) (b : buffers) (n : nat) :
  length (new_row_data b) = n -> length (new_col_data b) = n ->
  length (new_eid_data b) = n ->
  (cursor b + length is_ <= n)%nat ->
  let b' := fold_left stepf is_ b in
  let ks := List.filter (fun i => keep i) is_ in
  cursor b' = (cursor b + length ks)%nat /\
  length (new_row_data b') = n /\ length (new_col_data b') = n /\
  length (new_eid_data b') = n /\
  take (cursor b') (new_row_data b') =
    take (cursor b) (new_row_data b) ++ map (fun i => (coo_row coo).[Z.of_nat i]) ks /\
  take (cursor b') (new_col_data b') =
    take (cursor b) (new_col_data b) ++ map (fun i => (coo_col coo).[Z.of_nat i]) ks /\
  take (cursor b') (new_eid_data b') =
    take (cursor b) (new_eid_data b) ++
    map (fun i => eid_at (coo_data coo) (Z.of_nat i)) ks.
Proof.
  revert b. induction is_ as [|i is_ IH]; intros b Hr Hc He Hn; cbn zeta.
  - simpl. rewrite !app_nil_r. repeat split; auto; lia.
  - simpl in Hn. cbn [fold_left List.filter].
    unfold step at 2 4 6 8 10 12 14 16 18 20. fold (entry_value dfill coo values i).
    destruct (keep i) eqn:Hk.
    + match goal with |- context [fold_left _ _ ?b1] => set (b1' := b1) end.
      destruct (IH b1') as (IH1 & IH2 & IH3 & IH4 & IH5 & IH6 & IH7);
        try (subst b1'; cbn [cursor new_row_data new_col_data new_eid_data];
             rewrite ?length_insert; auto; lia).
      rewrite IH5, IH6, IH7, IH1. subst b1'.
      cbn [cursor new_row_data new_col_data new_eid_data length map].
      rewrite !take_S_insert by lia. rewrite <- !app_assoc.
      repeat split; auto; lia.
    + apply IH; auto; lia.
Qed.

(** The kept entries, read through positions or by filtering the list of
    entries paired with their values, are the same list. *)
Lemma filter_entries_seq (r c : list Z) (v : nat -> DType) (s : nat) :
  length c = length r ->
  map fst (List.filter (fun e => dtype_ne (snd e) criteria)
             (combine (combine r c) (map v (seq s (length r))))) =
  map (fun i => (nth (i - s) r 0, nth (i - s) c 0))
      (List.filter (fun i => dtype_ne (v i) criteria) (seq s (length r))).
Proof.
  revert c s. induction r as [|x r IH]; intros [|y c] s Hlen; simpl in *;
    try discriminate; auto.
  injection Hlen as Hlen.
  assert (Htl : map (fun i => (nth (i - S s) r 0, nth (i - S s) c 0))
                  (List.filter (fun i => dtype_ne (v i) criteria) (seq (S s) (length r))) =
                map (fun i => (nth (i - s) (x :: r) 0, nth (i - s) (y :: c) 0))
                  (List.filter (fun i => dtype_ne (v i) criteria) (seq (S s) (length r)))).
  { apply map_ext_in. intros i Hi. apply filter_In in Hi as [Hi _].
    apply in_seq in Hi. replace (i - s)%nat with (S (i - S s)) by lia. reflexivity. }
  destruct (dtype_ne (v s) criteria); simpl;
    rewrite ?Nat.sub_diag, (IH c (S s) Hlen), Htl; reflexivity.
Qed.

Lemma filter_fst_sublist {A B : Type} (p : A * B -> bool) (l : list (A * B)) :
  sublist (map fst (List.filter p l)) (map fst l).
Proof.
  induction l as [|a l IH]; simpl; [constructor|].
  destruct (p a); simpl; now constructor.
Qed.
End RemoveIfFacts.

Section RemoveIfClaim.
Import RemoveIf.
Context {DType : Type} (dtype_ne : DType -> DType -> bool) (dfill : DType).

(** C10.  For a COO matrix whose row and column arrays have the same length,
    [COORemoveIf] keeps [num_rows] and [num_cols], and its (row, col) pairs
    are the input entries whose value ([val[eid]], compared with [!=])
    differs from the criteria, in their original order: a subsequence of
    the input entries. *)
Theorem COORemoveIf_keeps_differing_entries
    (coo : COOMatrix) (values : list DType) (criteria : DType) :
  length (coo_col coo) = length (coo_row coo) ->
  let res := COORemoveIf dtype_ne dfill coo values criteria in
  let vals := map (entry_value dfill coo values) (seq 0 (length (coo_row coo))) in
  coo_num_rows res = coo_num_rows coo /\
  coo_num_cols res = coo_num_cols coo /\
  entries res =
    map fst (List.filter (fun e => dtype_ne (snd e) criteria)
               (combine (entries coo) vals)) /\
  sublist (entries res) (entries coo) /\
  coo_data res =
    Some (map (fun i => eid_at (coo_data coo) (Z.of_nat i))
            (kept dtype_ne dfill coo values criteria)).
Proof.
  intros Hlen res vals.
  pose proof (fold_step_invariant dtype_ne dfill coo values criteria
                (seq 0 (length (coo_row coo)))
                {| new_row_data := replicate (length (coo_row coo)) 0;
                   new_col_data := replicate (length (coo_row coo)) 0;
                   new_eid_data := replicate (length (coo_row coo)) 0;
                   cursor := 0 |} (length (coo_row coo))) as Hinv.
  cbn [new_row_data new_col_data new_eid_data cursor] in Hinv.
  rewrite !length_replicate, length_seq in Hinv.
  destruct Hinv as (_ & _ & _ & _ & Hr & Hc & He); auto.
  assert (Hent : entries res =
            map fst (List.filter (fun e => dtype_ne (snd e) criteria)
                       (combine (entries coo) vals))).
  { unfold entries, res, COORemoveIf. cbn [coo_row coo_col].
    rewrite Hr, Hc. cbn [take app]. subst vals.
    rewrite (filter_entries_seq dtype_ne criteria (coo_row coo) (coo_col coo)
               (entry_value dfill coo values) 0 Hlen).
    clear.
    generalize (List.filter (fun i => dtype_ne (entry_value dfill coo values i) criteria)
                  (seq 0 (length (coo_row coo)))) as ks.
    induction ks as [|k ks IH]; simpl; [reflexivity|].
    rewrite Nat.sub_0_r. f_equal. unfold rd. rewrite Nat2Z.id.
    - reflexivity.
    - assumption. }
  split; [reflexivity|]. split; [reflexivity|]. split; [exact Hent|]. split.
  - rewrite Hent.
    replace (entries coo) with (map fst (combine (entries coo) vals)) at 2.
    + apply filter_fst_sublist.
    + apply map_fst_combine. subst vals. unfold entries.
      rewrite length_map, length_seq, length_combine. lia.
  - unfold res, COORemoveIf. cbn [coo_data]. rewrite He. reflexivity.
Qed.
End RemoveIfClaim.

(** An instance with [double] values and the IEEE [!=]: entries 0 and 2 have
    the criteria value and are removed. *)
Lemma COORemoveIf_keeps_differing_entries_witness :
  let coo := mkCOO 3 3 [0; 1; 2; 2] [1; 2; 0; 1] None in
  let ne := fun a b : float => negb (PrimFloat.eqb a b) in
  length (coo_col coo) = length (coo_row coo) /\
  RemoveIf.entries (RemoveIf.COORemoveIf ne 0%float coo [1; 0; 1; 3]%float 1%float) =
    [(1, 2); (2, 1)].
Proof.
  cbn zeta. split; [reflexivity|].
  pose proof (COORemoveIf_keeps_differing_entries
                (fun a b : float => negb (PrimFloat.eqb a b)) 0%float
                (mkCOO 3 3 [0; 1; 2; 2] [1; 2; 0; 1] None)
                [1; 0; 1; 3]%float 1%float eq_refl) as H.
  cbn zeta in H. destruct H as (_ & _ & H & _). rewrite H. vm_compute. reflexivity.
Defined.

(** ** Sorting *)

Section StdSortFacts.
Import StdSort.


Lemma strict_weak_incl (cmp : Z -> Z -> bool) (l l' : list Z) :
  (forall x, In x l' -> In x l) -> strict_weak cmp l -> strict_weak cmp l'.
Proof. intros Hincl [Ha Ht]. split; eauto 10. Qed.

Lemma insert_perm (cmp : Z -> Z -> bool) (x : Z) (l : list Z) :
  Permutation (insert cmp x l) (x :: l).
Proof.
  induction l as [|y l IH]; simpl; [reflexivity|].
  destruct (cmp y x); [|reflexivity].
  rewrite IH. apply perm_swap.
Qed.

Lemma insert_sorted (cmp : Z -> Z -> bool) (x : Z) (l : list Z) :
  strict_weak cmp (x :: l) -> sorted_by cmp l -> sorted_by cmp (insert cmp x l).
Proof.
  unfold sorted_by. induction l as [|y l IH]; intros Hsw Hs; simpl.
  - constructor; constructor.
  - apply StronglySorted_inv in Hs as [Hs Hy].
    destruct Hsw as [Hasym Hneg]. destruct (cmp y x) eqn:Hyx.
    + constructor.
      * apply IH; [|exact Hs].
        apply (strict_weak_incl cmp (x :: y :: l)); [|split; assumption].
        simpl. intuition.
      * eapply Permutation_Forall; [symmetry; apply insert_perm|].
        constructor; [|exact Hy]. apply Hasym; simpl; auto.
    + constructor; [constructor; assumption|].
      constructor; [exact Hyx|].
      rewrite List.Forall_forall in Hy |- *. intros z Hz.
      apply (Hneg z y x); simpl; auto.
Qed.

Lemma stable_sort_perm (cmp : Z -> Z -> bool) (l : list Z) :
  Permutation (stable_sort cmp l) l.
Proof.
  induction l as [|x l IH]; simpl; [reflexivity|].
  fold (stable_sort cmp l). rewrite insert_perm. now constructor.
Qed.

Lemma stable_sort_sorted (cmp : Z -> Z -> bool) (l : list Z) :
  strict_weak cmp l -> sorted_by cmp (stable_sort cmp l).
Proof.
  induction l as [|x l IH]; intros Hsw; simpl.
  - constructor.
  - fold (stable_sort cmp l). apply insert_sorted.
    + apply (strict_weak_incl cmp (x :: l)); [|exact Hsw].
      intros z [->|Hz]; [left; reflexivity|right].
      apply (Permutation_in _ (stable_sort_perm cmp l)). exact Hz.
    + apply IH. apply (strict_weak_incl cmp (x :: l)); [|exact Hsw]. simpl; auto.
Qed.





End StdSortFacts.

(** ** Uniform sampling *)

Section UniformSampling.
Import Random RowwisePick.

Lemma iota_length (off : Z) (len : nat) : length (iota off len) = len.
Proof. unfold iota. now rewrite length_map, length_seq. Qed.

Lemma in_iota (off : Z) (len : nat) (x : Z) :
  In x (iota off len) <-> off <= x < off + Z.of_nat len.
Proof.
  unfold iota. rewrite in_map_iff. split.
  - intros (j & <- & Hj). apply in_seq in Hj. lia.
  - intros Hx. exists (Z.to_nat (x - off)). split; [lia|]. apply in_seq. lia.
Qed.

(** C1 (the code at the failing input).  The closure that
    [GetSamplingUniformNumPicksFn] returns never consults the [num_samples]
    and [replace] it was built for: it computes the count from what it finds
    at their addresses when it is called.  On the CSR matrix with rows of
    2, 0 and 3 neighbors, queried for 2 picks with replacement, the counts
    of rows 0 and 2 are the 2 that was asked for only if the stack still
    holds 2 at the address of [num_samples]; when it holds 3 (and [true] at
    the address of [replace]), the count of row 0 is 3, and rows 0 and 2
    yield 3 entries each, for every state of the random engine. *)
Theorem GetSamplingUniformNumPicksFn_reads_dead_parameters :
  (forall (num_samples num_samples' : Z) (replace replace' : bool) (stack : dangling),
     GetSamplingUniformNumPicksFn num_samples replace stack =
     GetSamplingUniformNumPicksFn num_samples' replace' stack) /\
  (let mat := mkCSR 3 4 [0; 2; 2; 5] [1; 3; 0; 1; 2] None in
   (forall stack : dangling,
      GetSamplingUniformNumPicksFn 2 true stack 0 0 2 (csr_indices mat) (csr_data mat) = 2 ->
      GetSamplingUniformNumPicksFn 2 true stack 2 2 3 (csr_indices mat) (csr_data mat) = 2 ->
      at_num_samples stack = 2) /\
   let stack := mkDangling 3 true in
   GetSamplingUniformNumPicksFn 2 true stack 0 0 2 (csr_indices mat) (csr_data mat) = 3 /\
   forall g : RandomEngine, exists res g',
     CSRRowWiseSamplingUniform stack mat [0; 1; 2] 2 true g = Ok (res, g') /\
     coo_row res = [0; 0; 0; 2; 2; 2]).
Proof.
  split; [reflexivity|]. cbn zeta. split.
  - intros stack. unfold GetSamplingUniformNumPicksFn.
    destruct (at_num_samples stack =? -1); [lia|].
    destruct (at_replace stack); cbn; lia.
  - split; [reflexivity|].
    intros g. eexists _, _. split; reflexivity.
Qed.

End UniformSampling.

(** ** Top-k *)

Section TopK.
Import StdSort RowwisePick.

Lemma map_nth_seq {A : Type} (d : A) (l : list A) (n : nat) :
  (n <= length l)%nat -> map (fun j => nth j l d) (seq 0 n) = firstn n l.
Proof.
  revert l. induction n as [|n IH]; intros l Hn; [reflexivity|].
  destruct l as [|a l]; [simpl in Hn; lia|].
  cbn [seq firstn map nth]. f_equal.
  rewrite <- seq_shift, map_map. apply IH. simpl in Hn. lia.
Qed.


Lemma NoDup_iota (off : Z) (len : nat) : NoDup (iota off len).
Proof.
  unfold iota. apply NoDup_fmap_2_strong; [|apply NoDup_seq].
  intros x y _ _ Hxy. lia.
Qed.




End TopK.

(** ** Broadcast shape inference *)

Section BroadcastShape.
Import BinaryReduce.

Lemma to_int_small (d : Z) : - 2 ^ 31 <= d < 2 ^ 31 -> to_int d = d.
Proof. intros Hd. unfold to_int. rewrite Z.mod_small; lia. Qed.

Lemma rd_Forall {A : Type} (P : A -> Prop) (d : A) (l : list A) (i : Z) :
  Forall P l -> P d -> P (rd d l i).
Proof.
  intros Hl Hd. unfold rd. destruct (nth_in_or_default (Z.to_nat i) l d) as [Hin| ->].
  - rewrite List.Forall_forall in Hl. now apply Hl.
  - exact Hd.
Qed.

Lemma dim_at_aligned (a : NDArray) (j : Z) :
  fits_int a -> dim_at a j = aligned_dim a j.
Proof.
  intros Hfit. unfold dim_at, aligned_dim.
  destruct (ndim a - 1 - j <? 1) eqn:Hlt; [reflexivity|].
  apply Z.ltb_ge in Hlt. apply to_int_small. unfold fits_int in Hfit.
  destruct (shape a) as [|h t]; [unfold rd; destruct (Z.to_nat _); simpl; lia|].
  cbn [tl] in Hfit. unfold rd.
  destruct (Z.to_nat (ndim a - 1 - j)) as [|k] eqn:Hk; [lia|]. cbn [nth].
  apply (rd_Forall (fun d => - 2 ^ 31 <= d < 2 ^ 31) 0 t (Z.of_nat k)) in Hfit; [|lia].
  unfold rd in Hfit. now rewrite Nat2Z.id in Hfit.
Qed.

Lemma flush_accum_real_out (st : bcast_state) :
  st_real_out_shape (flush_accum st) = st_real_out_shape st.
Proof. unfold flush_accum. now destruct (accum st =? 0). Qed.

(** The loop on axes that all broadcast: no error, and one output
    dimension, the larger of the two, per axis. *)
Lemma bcast_loop_ok (lhs rhs : NDArray) (js : list Z) (st : bcast_state) :
  Forall (fun j => dim_at lhs j = dim_at rhs j \/ dim_at lhs j = 1 \/ dim_at rhs j = 1) js ->
  exists st', bcast_loop lhs rhs js st = Ok st' /\
              st_real_out_shape st' =
              st_real_out_shape st ++ map (fun j => Z.max (dim_at lhs j) (dim_at rhs j)) js.
Proof.
  revert st. induction js as [|j js IH]; intros st Hok.
  - exists st. simpl. now rewrite app_nil_r.
  - apply Forall_cons_1 in Hok as [Hj Hok]. cbn [bcast_loop]. unfold bcast_step.
    destruct (dim_at lhs j =? dim_at rhs j) eqn:Heq; cbn [negb].
    + cbn [result_bind]. edestruct IH as (st' & Hloop & Hshape); [exact Hok|].
      exists st'. split; [exact Hloop|]. rewrite Hshape. cbn [st_real_out_shape map].
      now rewrite <- app_assoc.
    + assert (Hone : negb (dim_at lhs j =? 1) && negb (dim_at rhs j =? 1) = false).
      { destruct Hj as [Hj|[Hj|Hj]]; [apply Z.eqb_neq in Heq; contradiction| |];
          rewrite Hj; cbn; [reflexivity|apply andb_false_r]. }
      rewrite Hone. cbn [result_bind].
      edestruct IH as (st' & Hloop & Hshape); [exact Hok|].
      exists st'. split; [exact Hloop|]. rewrite Hshape. cbn [st_real_out_shape map].
      now rewrite flush_accum_real_out, <- app_assoc.
Qed.

(** The loop on axes one of which does not broadcast: the error. *)
Lemma bcast_loop_error (lhs rhs : NDArray) (js : list Z) (st : bcast_state) :
  Exists (fun j => dim_at lhs j <> dim_at rhs j /\ dim_at lhs j <> 1 /\ dim_at rhs j <> 1) js ->
  is_error (bcast_loop lhs rhs js st) = true.
Proof.
  revert st. induction js as [|j js IH]; intros st Hbad.
  - inversion Hbad.
  - cbn [bcast_loop]. unfold bcast_step.
    destruct (dim_at lhs j =? dim_at rhs j) eqn:Heq; cbn [negb].
    + cbn [result_bind]. apply IH. apply Exists_cons in Hbad as [[Hne _]|Hbad]; [|exact Hbad].
      apply Z.eqb_eq in Heq. contradiction.
    + destruct (negb (dim_at lhs j =? 1) && negb (dim_at rhs j =? 1)) eqn:Hone;
        [reflexivity|].
      cbn [result_bind]. apply IH. apply Exists_cons in Hbad as [(_ & Hl & Hr)|Hbad];
        [|exact Hbad].
      apply Z.eqb_neq in Hl, Hr. rewrite Hl, Hr in Hone. discriminate.
Qed.

(** X20.  [InferBinaryFeatureShape] on feature shapes (4, 1) and (1, 5)
    returns (4, 5); on (3,) and (3,) it returns (3,); on (2,) and (3,) it
    reports an error.  In general, for feature dimensions that fit an [int]
    (the type the loop reads them into; the first dimension is not read):
    the call reports an error exactly when some right-aligned pair of
    dimensions differs with neither of them 1, and otherwise returns, axis
    by axis, the larger of the two dimensions. *)
Theorem InferBinaryFeatureShape_broadcasts :
  (forall n m, InferBinaryFeatureShape (mkNDArray [n; 4; 1]) (mkNDArray [m; 1; 5]) =
               Ok [4; 5]) /\
  (forall n m, InferBinaryFeatureShape (mkNDArray [n; 3]) (mkNDArray [m; 3]) = Ok [3]) /\
  (forall n m, is_error (InferBinaryFeatureShape (mkNDArray [n; 2]) (mkNDArray [m; 3])) =
               true) /\
  (forall lhs rhs, fits_int lhs -> fits_int rhs ->
     (is_error (InferBinaryFeatureShape lhs rhs) = true <->
      exists j, 0 <= j < feature_ndim lhs rhs /\
                aligned_dim lhs j <> aligned_dim rhs j /\
                aligned_dim lhs j <> 1 /\ aligned_dim rhs j <> 1) /\
     (broadcastable lhs rhs ->
      InferBinaryFeatureShape lhs rhs = Ok (broadcast_shape lhs rhs))).
Proof.
  split; [intros n m; reflexivity|]. split; [intros n m; reflexivity|].
  split; [intros n m; reflexivity|].
  intros lhs rhs Hl Hr.
  set (js := iota 0 (Z.to_nat (feature_ndim lhs rhs))).
  set (st0 := {| accum := 0; st_real_out_shape := []; st_lhs_shape := [];
                 st_rhs_shape := []; st_out_shape := [] |}).
  assert (Hok : Forall (fun j => dim_at lhs j = dim_at rhs j \/ dim_at lhs j = 1 \/
                                 dim_at rhs j = 1) js ->
                InferBinaryFeatureShape lhs rhs = Ok (broadcast_shape lhs rhs)).
  { intros Hall. destruct (bcast_loop_ok lhs rhs js st0 Hall) as (st' & Hloop & Hshape).
    unfold InferBinaryFeatureShape, CalcBcastInfo. fold (feature_ndim lhs rhs). fold js st0.
    rewrite Hloop. cbn [result_bind real_out_shape].
    rewrite flush_accum_real_out, Hshape. cbn [st_real_out_shape st0 app].
    unfold broadcast_shape. fold js. do 2 f_equal. apply map_ext.
    intros j. now rewrite !dim_at_aligned. }
  assert (Hbad : Exists (fun j => dim_at lhs j <> dim_at rhs j /\ dim_at lhs j <> 1 /\
                                  dim_at rhs j <> 1) js ->
                 is_error (InferBinaryFeatureShape lhs rhs) = true).
  { intros Hex. pose proof (bcast_loop_error lhs rhs js st0 Hex) as Herr.
    unfold InferBinaryFeatureShape, CalcBcastInfo. fold (feature_ndim lhs rhs). fold js st0.
    destruct (bcast_loop lhs rhs js st0); [discriminate|reflexivity]. }
  split; [split|].
  - intros Herr.
    assert (Hdec : forall j,
              {dim_at lhs j = dim_at rhs j \/ dim_at lhs j = 1 \/ dim_at rhs j = 1} +
              {~ (dim_at lhs j = dim_at rhs j \/ dim_at lhs j = 1 \/ dim_at rhs j = 1)}).
    { intros j. destruct (Z.eq_dec (dim_at lhs j) (dim_at rhs j));
        destruct (Z.eq_dec (dim_at lhs j) 1); destruct (Z.eq_dec (dim_at rhs j) 1);
        (left; tauto) || (right; tauto). }
    destruct (List.Forall_Exists_dec _ Hdec js) as [Hall|Hex].
    + rewrite (Hok Hall) in Herr. discriminate.
    + apply List.Exists_exists in Hex as (j & Hin & Hj). exists j.
      apply in_iota in Hin. rewrite <- !dim_at_aligned by assumption.
      split; [lia|]. tauto.
  - intros (j & Hj & Hne & Hl1 & Hr1). apply Hbad. apply List.Exists_exists. exists j.
    split; [apply in_iota; lia|]. rewrite !dim_at_aligned by assumption. tauto.
  - intros Hb. apply Hok. apply List.Forall_forall. intros j Hin. apply in_iota in Hin.
    rewrite !dim_at_aligned by assumption. apply Hb. lia.
Qed.

Lemma InferBinaryFeatureShape_broadcasts_witness :
  let lhs := mkNDArray [7; 2; 1; 3] in
  let rhs := mkNDArray [9; 5; 3] in
  fits_int lhs /\ fits_int rhs /\ broadcastable lhs rhs /\
  InferBinaryFeatureShape lhs rhs = Ok [2; 5; 3].
Proof.
  cbn zeta.
  assert (Hl : fits_int (mkNDArray [7; 2; 1; 3])).
  { unfold fits_int. cbn [shape]. repeat (apply List.Forall_cons; [lia|]). apply List.Forall_nil. }
  assert (Hr : fits_int (mkNDArray [9; 5; 3])).
  { unfold fits_int. cbn [shape]. repeat (apply List.Forall_cons; [lia|]). apply List.Forall_nil. }
  assert (Hb : broadcastable (mkNDArray [7; 2; 1; 3]) (mkNDArray [9; 5; 3])).
  { intros j Hj. unfold feature_ndim, ndim in Hj. cbn in Hj.
    assert (Hcases : j = 0 \/ j = 1 \/ j = 2) by lia.
    destruct Hcases as [Hj0 | [Hj0 | Hj0]]; subst j; vm_compute; tauto. }
  split; [exact Hl|]. split; [exact Hr|]. split; [exact Hb|].
  exact (proj2 (proj2 (proj2 (proj2 InferBinaryFeatureShape_broadcasts)) _ _ Hl Hr) Hb).
Defined.

(** C2.  The code at a pair of feature shapes that do not broadcast: the
    dimensions 4294967298 and 2 differ and neither is 1, and the sibling
    checks [HasBcast] and [IsValidBinaryOpShape], which compare the
    [int64_t] dimensions, see them differ.  [CalcBcastInfo] reads both into
    [const int], where both are 2: its check for an invalid broadcast does
    not fire, no error is reported and the output dimension is 2. *)
Lemma InferBinaryFeatureShape_narrows_dimensions :
  let lhs := mkNDArray [1; 4294967298] in
  let rhs := mkNDArray [1; 2] in
  aligned_dim lhs 0 = 4294967298 /\ aligned_dim rhs 0 = 2 /\
  HasBcast lhs rhs = true /\ IsValidBinaryOpShape lhs rhs = false /\
  dim_at lhs 0 = 2 /\ dim_at rhs 0 = 2 /\
  is_error (InferBinaryFeatureShape lhs rhs) = false /\
  InferBinaryFeatureShape lhs rhs = Ok [2].
Proof. cbn zeta. repeat split; vm_compute; reflexivity. Qed.

End BroadcastShape.

(** ** The CSR SpMM kernel *)

Section SpMMFacts.
Import SpMM.
Context {DType : Type} {Op : BinaryOp DType} {Red : ReduceOp DType}.
Context (UseBcast UseIdx : bool).

Lemma int_small (d : Z) : - 2 ^ 31 <= d < 2 ^ 31 -> to_int d = d.
Proof. intros Hd. unfold to_int. rewrite Z.mod_small; lia. Qed.


(** The converted sum of a counter and a stride is the same for the stride
    and for the stride converted to [int]. *)
Lemma int_sum_stride (i stride : Z) : to_int (i + to_int stride) = to_int (i + stride).
Proof.
  unfold to_int. f_equal.
  replace (i + ((stride + 2 ^ 31) mod 2 ^ 32 - 2 ^ 31) + 2 ^ 31)
    with (i + (stride + 2 ^ 31) mod 2 ^ 32) by lia.
  rewrite Zplus_mod_idemp_r. f_equal. lia.
Qed.

(** What every iteration preserves, the loop preserves, as long as the
    counter stays in the range of [int]. *)
Lemma while_lt_invariant {S : Type} (P : S -> Prop) (fuel : nat)
    (i stride bound lo : Z) (body : Z -> S -> S) (s : S) :
  - 2 ^ 31 <= lo -> bound + stride <= 2 ^ 31 ->
  0 <= stride -> lo <= i ->
  (forall k s, lo <= k < bound -> P s -> P (body k s)) ->
  P s -> P (while_lt fuel i stride bound body s).
Proof.
  intros Hmin Hmax Hstride. revert i s.
  induction fuel as [|fuel IH]; intros i s Hlo Hbody Hs; simpl.
  - exact Hs.
  - destruct (i <? bound) eqn:Hi; [|exact Hs]. apply Z.ltb_lt in Hi.
    rewrite int_small by lia.
    apply IH; [lia|exact Hbody|]. apply Hbody; [lia|exact Hs].
Qed.

(** With enough fuel the loop reaches every index [i + q * stride] below the
    bound, and what the iteration at that index establishes still holds at
    the end. *)
Lemma while_lt_reaches {S : Type} (P Q : S -> Prop) (fuel : nat)
    (i stride bound lo k0 q : Z) (body : Z -> S -> S) (s : S) :
  - 2 ^ 31 <= lo -> bound + stride <= 2 ^ 31 ->
  1 <= stride -> lo <= i -> 0 <= q -> k0 = i + q * stride -> k0 < bound ->
  (Z.to_nat q < fuel)%nat ->
  (forall k s, lo <= k < bound -> P s -> P (body k s)) ->
  (forall k s, lo <= k < bound -> P s -> Q s -> Q (body k s)) ->
  (forall s, P s -> Q (body k0 s)) ->
  P s -> Q (while_lt fuel i stride bound body s).
Proof.
  intros Hmin Hmax Hstride. revert i q s.
  induction fuel as [|fuel IH]; intros i q s Hlo Hq Hk0 Hb Hfuel HP HQ Hest Hs; [lia|].
  simpl. assert (Hi : (i <? bound) = true) by (apply Z.ltb_lt; nia). rewrite Hi.
  apply Z.ltb_lt in Hi. rewrite int_small by lia.
  destruct (Z.eq_dec q 0) as [->|Hq0].
  - assert (k0 = i) as -> by lia.
    apply (while_lt_invariant (fun s => P s /\ Q s) fuel (i + stride) stride bound lo body
             (body i s)); [lia|lia|lia|lia| |].
    + intros k s' Hk [HPs HQs]. split; [now apply HP|now apply HQ].
    + split; [apply HP; [lia|exact Hs]|now apply Hest].
  - apply (IH (i + stride) (q - 1)); try assumption; try lia.
    apply HP; [nia|exact Hs].
Qed.

(** While the counter stays in the range of [int], the comparison with a
    [size_t] is the comparison of the integers. *)
Lemma while_lt_size_eq {S : Type} (fuel : nat) (i stride length : Z)
    (body : Z -> S -> S) (s : S) :
  0 <= stride -> length + stride <= 2 ^ 31 -> 0 <= i < 2 ^ 31 ->
  while_lt_size fuel i stride length body s = while_lt fuel i stride length body s.
Proof.
  intros Hstride Hmax. revert i s.
  induction fuel as [|fuel IH]; intros i s Hi; [reflexivity|].
  simpl. rewrite (Z.mod_small i) by lia.
  destruct (i <? length) eqn:Hlt; [|reflexivity]. apply Z.ltb_lt in Hlt.
  rewrite int_small by lia. apply IH. lia.
Qed.

Lemma fold_left_invariant {S T : Type} (R : S -> Prop) (step : S -> T -> S)
    (l : list T) (s : S) :
  (forall t s, In t l -> R s -> R (step s t)) -> R s -> R (fold_left step l s).
Proof.
  revert s. induction l as [|t l IH]; intros s Hstep Hs; [exact Hs|].
  simpl. apply IH.
  - intros t' s' Ht'. apply Hstep. now right.
  - apply Hstep; [now left|exact Hs].
Qed.

Lemma fold_left_reaches {S T : Type} (P Q : S -> Prop) (step : S -> T -> S)
    (l : list T) (t0 : T) (s : S) :
  In t0 l ->
  (forall t s, In t l -> P s -> P (step s t)) ->
  (forall t s, In t l -> P s -> Q s -> Q (step s t)) ->
  (forall s, P s -> Q (step s t0)) ->
  P s -> P (fold_left step l s) /\ Q (fold_left step l s).
Proof.
  revert s. induction l as [|t l IH]; intros s Hin HP HQ Hest Hs; [contradiction|].
  assert (Hboth : forall t' s', In t' (t :: l) -> P s' /\ Q s' -> P (step s' t') /\ Q (step s' t')).
  { intros t' s' Ht' [HPs HQs]. split; [now apply HP|now apply HQ]. }
  simpl. destruct Hin as [->|Hin].
  - apply (fold_left_invariant (fun s => P s /\ Q s)).
    + intros t' s' Ht'. apply Hboth. now right.
    + split; [apply HP; [now left|exact Hs]|now apply Hest].
  - apply IH; try assumption.
    + intros t' s0 Ht'. apply HP. now right.
    + intros t' s0 Ht'. apply HQ. now right.
    + apply HP; [now left|exact Hs].
Qed.

Local Abbreviation cell_of a ty tx := (Z.to_nat (ty * out_len a + tx)).
Local Abbreviation value_of a ty tx := (fst (fst (accumulate UseBcast UseIdx a ty tx))).


Lemma cell_of_injective (ol ty tx r f : Z) :
  0 <= ty -> 0 <= r -> 0 <= tx < ol -> 0 <= f < ol ->
  Z.to_nat (ty * ol + tx) = Z.to_nat (r * ol + f) -> ty = r /\ tx = f.
Proof.
  intros Hty Hr Htx Hf Heq.
  assert (H : ty * ol + tx = r * ol + f).
  { apply Z2Nat.inj; [nia|nia|exact Heq]. }
  assert (ty = r).
  { destruct (Z.lt_trichotomy ty r) as [Hlt|[Heq'|Hgt]]; [|exact Heq'|].
    - assert (ty + 1 <= r) by lia. assert ((ty + 1) * ol <= r * ol) by nia. nia.
    - assert (r + 1 <= ty) by lia. assert ((r + 1) * ol <= ty * ol) by nia. nia. }
  subst. lia.
Qed.


Lemma in_threads (cfg : launch) (t : thread_id) :
  In t (threads cfg) <->
  (0 <= x (blockIdx t) < x (gridDim cfg) /\ 0 <= y (blockIdx t) < y (gridDim cfg)) /\
  (0 <= x (threadIdx t) < x (blockDim cfg) /\ 0 <= y (threadIdx t) < y (blockDim cfg)).
Proof.
  unfold threads. rewrite in_map_iff. split.
  - intros ([[bx by_] [tx ty]] & <- & Hin). rewrite !in_prod_iff, !in_iota in Hin.
    cbn. lia.
  - intros Ht. destruct t as [[bx by_] [tx ty]]. cbn in Ht.
    exists (bx, by_, (tx, ty)). split; [reflexivity|].
    rewrite !in_prod_iff, !in_iota. lia.
Qed.

(** The first index of a thread of the grid lies below the stride. *)
Lemma thread_start (cfg : launch) (t : thread_id) :
  In t (threads cfg) ->
  0 <= x (blockIdx t) * x (blockDim cfg) + x (threadIdx t)
    < x (blockDim cfg) * x (gridDim cfg) /\
  0 <= y (blockIdx t) * y (blockDim cfg) + y (threadIdx t)
    < y (blockDim cfg) * y (gridDim cfg).
Proof.
  intros Hin. apply in_threads in Hin.
  destruct Hin as [[[Hbx0 Hbx1] [Hby0 Hby1]] [[Htx0 Htx1] [Hty0 Hty1]]].
  assert (x (blockIdx t) + 1 <= x (gridDim cfg)) by lia.
  assert (y (blockIdx t) + 1 <= y (gridDim cfg)) by lia.
  assert ((x (blockIdx t) + 1) * x (blockDim cfg) <= x (gridDim cfg) * x (blockDim cfg))
    by (apply Z.mul_le_mono_nonneg_r; lia).
  assert ((y (blockIdx t) + 1) * y (blockDim cfg) <= y (gridDim cfg) * y (blockDim cfg))
    by (apply Z.mul_le_mono_nonneg_r; lia).
  assert (0 <= x (blockIdx t) * x (blockDim cfg)) by (apply Z.mul_nonneg_nonneg; lia).
  assert (0 <= y (blockIdx t) * y (blockDim cfg)) by (apply Z.mul_nonneg_nonneg; lia).
  lia.
Qed.


End SpMMFacts.

Section SpMMClaim.
Import SpMM.



End SpMMClaim.

(** ** Unique and compact *)

Section UniqueAndCompactFacts.
Import UniqueAndCompactImpl.

(** C8 (the code at the failing input).  The destination id 5 does not occur
    in [unique_dst_ids = [1]], but it occurs in [src_ids]: the check compares
    the destination ids with the whole compacted universe, finds 5 there,
    and the call returns instead of raising the out-of-range error. *)
Theorem UniqueAndCompact_accepts_dst_found_among_src (junk : Z) :
  ~ In 5 [1] /\
  UniqueAndCompact junk [5] [5] [1] 0 = Ok ([1; 5], [1], [1]).
Proof.
  split; [simpl; intuition discriminate|]. vm_compute. reflexivity.
Qed.

End UniqueAndCompactFacts.

(** ** Index compaction *)

Section ArrayReads.

Lemma rd_map {A B : Type} (f : A -> B) (d : A) (d' : B) (l : list A) (i : Z) :
  0 <= i < Z.of_nat (length l) -> rd d' (map f l) i = f (rd d l i).
Proof.
  intros Hi. unfold rd.
  rewrite (nth_indep _ d' (f d)) by (rewrite length_map; lia). apply map_nth.
Qed.

Lemma rd_iota (off : Z) (n : nat) (i : Z) :
  0 <= i < Z.of_nat n -> (iota off n).[i] = off + i.
Proof.
  intros Hi. unfold iota. rewrite (rd_map _ 0%nat) by (rewrite length_seq; lia).
  unfold rd. rewrite seq_nth by lia. lia.
Qed.

Lemma rd_In {A : Type} (d : A) (l : list A) (i : Z) :
  0 <= i < Z.of_nat (length l) -> In (rd d l i) l.
Proof. intros Hi. unfold rd. apply nth_In. lia. Qed.

Lemma In_rd {A : Type} (d : A) (l : list A) (v : A) :
  In v l -> exists i, 0 <= i < Z.of_nat (length l) /\ rd d l i = v.
Proof.
  intros Hin. destruct (In_nth l v d Hin) as (n & Hn & Hv).
  exists (Z.of_nat n). split; [lia|]. unfold rd. now rewrite Nat2Z.id.
Qed.

Lemma rd_app_r {A : Type} (d : A) (l1 l2 : list A) (i : Z) :
  0 <= i -> rd d (l1 ++ l2) (Z.of_nat (length l1) + i) = rd d l2 i.
Proof.
  intros Hi. unfold rd. rewrite app_nth2 by lia. f_equal. lia.
Qed.

Lemma rd_rev {A : Type} (d : A) (l : list A) (i : Z) :
  0 <= i < Z.of_nat (length l) ->
  rd d (rev l) i = rd d l (Z.of_nat (length l) - 1 - i).
Proof.
  intros Hi. unfold rd. rewrite rev_nth by lia. f_equal. lia.
Qed.

Lemma rd_slice (l : list Z) (a b i : Z) :
  0 <= a -> 0 <= i < b - a -> (Compact.slice l a b).[i] = l.[a + i].
Proof.
  intros Ha Hi. unfold Compact.slice, rd.
  rewrite nth_firstn.
  destruct (Z.to_nat i <? Z.to_nat (b - a))%nat eqn:Hlt; [|apply Nat.ltb_ge in Hlt; lia].
  rewrite nth_skipn. f_equal. lia.
Qed.

Lemma NoDup_rd_inj (l : list Z) (i j : Z) :
  List.NoDup l -> 0 <= i < Z.of_nat (length l) -> 0 <= j < Z.of_nat (length l) ->
  l.[i] = l.[j] -> i = j.
Proof.
  intros Hnd Hi Hj Heq. unfold rd in Heq.
  assert (Z.to_nat i = Z.to_nat j); [|lia].
  apply (proj1 (NoDup_nth l 0) Hnd); [lia|lia|exact Heq].
Qed.

End ArrayReads.

Section CompactFacts.

Import Compact StdSort.

Lemma rd_cons_succ (a : Z) (l : list Z) (k : Z) :
  0 <= k -> (a :: l).[1 + k] = l.[k].
Proof.
  intros Hk. unfold rd. replace (Z.to_nat (1 + k)) with (S (Z.to_nat k)) by lia.
  reflexivity.
Qed.

Lemma rd_insert_eq (l : list Z) (i v : Z) :
  0 <= i < Z.of_nat (length l) -> (<[Z.to_nat i := v]> l).[i] = v.
Proof.
  intros Hi. unfold rd. rewrite nth_lookup, list_lookup_insert_eq by lia. reflexivity.
Qed.

Lemma rd_insert_ne (l : list Z) (i j v : Z) :
  0 <= i -> 0 <= j -> i <> j -> (<[Z.to_nat i := v]> l).[j] = l.[j].
Proof.
  intros Hi Hj Hne. unfold rd. rewrite !nth_lookup, list_lookup_insert_ne by lia.
  reflexivity.
Qed.

Lemma index_put_length (idx vals t : list Z) :
  length (index_put_ t idx vals) = length t.
Proof.
  unfold index_put_. revert t. induction (combine idx vals) as [|kv l IH]; intros t.
  - reflexivity.
  - simpl. rewrite IH. apply length_insert.
Qed.

Lemma index_put_keeps (idx vals t : list Z) (j : Z) :
  0 <= j -> (forall i, In i idx -> 0 <= i) -> ~ In j idx ->
  (index_put_ t idx vals).[j] = t.[j].
Proof.
  unfold index_put_. revert vals t.
  induction idx as [|i idx IH]; intros vals t Hj Hpos Hnin; [reflexivity|].
  destruct vals as [|v vals]; [reflexivity|]. simpl.
  rewrite IH; [|exact Hj|intros; apply Hpos; now right|intros H; apply Hnin; now right].
  apply rd_insert_ne; [apply Hpos; now left|exact Hj|].
  intros ->. apply Hnin. now left.
Qed.

(** The scatter [t.index_put_({idx}, vals)] over distinct indices stores
    [vals[k]] at [idx[k]]. *)
Lemma index_put_rd (idx vals t : list Z) (k : Z) :
  List.NoDup idx -> length vals = length idx ->
  (forall i, In i idx -> 0 <= i < Z.of_nat (length t)) ->
  0 <= k < Z.of_nat (length idx) ->
  (index_put_ t idx vals).[idx.[k]] = vals.[k].
Proof.
  revert vals t k.
  induction idx as [|i idx IH]; intros vals t k Hnd Hlen Hrange Hk; [simpl in Hk; lia|].
  destruct vals as [|v vals]; [discriminate|].
  apply NoDup_cons_iff in Hnd as [Hnin Hnd]. simpl in Hlen, Hk.
  destruct (Z.eq_dec k 0) as [->|Hk0].
  - change ((i :: idx).[0]) with i. change ((v :: vals).[0]) with v.
    change (index_put_ t (i :: idx) (v :: vals))
      with (index_put_ (<[Z.to_nat i := v]> t) idx vals).
    rewrite index_put_keeps.
    + apply rd_insert_eq. apply Hrange. now left.
    + pose proof (Hrange i (or_introl eq_refl)). lia.
    + intros j Hj. pose proof (Hrange j (or_intror Hj)). lia.
    + exact Hnin.
  - replace k with (1 + (k - 1)) by lia. rewrite !rd_cons_succ by lia.
    change (index_put_ t (i :: idx) (v :: vals))
      with (index_put_ (<[Z.to_nat i := v]> t) idx vals).
    apply IH; [exact Hnd|lia| |lia].
    intros j Hj. rewrite length_insert. apply Hrange. now right.
Qed.

Lemma sort_idx_perm (t : list Z) : Permutation (snd (sort t)) (iota 0 (length t)).
Proof. apply stable_sort_perm. Qed.

Lemma sort_idx_length (t : list Z) : length (snd (sort t)) = length t.
Proof. rewrite (Permutation_length (sort_idx_perm t)). apply iota_length. Qed.

Lemma sort_idx_range (t : list Z) (i : Z) :
  In i (snd (sort t)) <-> 0 <= i < Z.of_nat (length t).
Proof.
  rewrite <- (in_iota 0 (length t) i). split; apply Permutation_in.
  - apply sort_idx_perm.
  - symmetry. apply sort_idx_perm.
Qed.

Lemma sort_idx_NoDup (t : list Z) : List.NoDup (snd (sort t)).
Proof.
  apply (Permutation_NoDup (Permutation_sym (sort_idx_perm t))).
  apply NoDup_ListNoDup, NoDup_iota.
Qed.

Lemma sort_row_eq (t : list Z) :
  fst (sort t) = map (fun i => t.[i]) (snd (sort t)).
Proof. reflexivity. Qed.

Lemma sort_row_length (t : list Z) : length (fst (sort t)) = length t.
Proof. rewrite sort_row_eq, length_map. apply sort_idx_length. Qed.

Lemma sort_row_In (t : list Z) (v : Z) : In v (fst (sort t)) <-> In v t.
Proof.
  rewrite sort_row_eq, in_map_iff. split.
  - intros (i & <- & Hi). apply sort_idx_range in Hi. now apply rd_In.
  - intros Hv. destruct (In_rd 0 t v Hv) as (i & Hi & <-).
    exists i. split; [reflexivity|]. now apply sort_idx_range.
Qed.

Lemma sort_row_sorted (t : list Z) : StronglySorted Z.le (fst (sort t)).
Proof.
  assert (Hs : sorted_by (fun i j => t.[i] <? t.[j]) (snd (sort t))).
  { apply stable_sort_sorted. split.
    - intros a b _ _ Hab. apply Z.ltb_lt in Hab. apply Z.ltb_ge. lia.
    - intros a b c _ _ _ Hab Hbc. apply Z.ltb_ge in Hab, Hbc. apply Z.ltb_ge. lia. }
  rewrite sort_row_eq. unfold sorted_by in Hs.
  induction Hs as [|i l Hs IH Hall]; simpl; constructor; [exact IH|].
  rewrite List.Forall_forall in Hall |- *. intros v Hv.
  apply in_map_iff in Hv as (j & <- & Hj). specialize (Hall j Hj).
  apply Z.ltb_ge in Hall. exact Hall.
Qed.

(** [rev_sort_idx] inverts the sorting permutation: the element of [row] at
    position [p] sits at position [rev_sort_idx[p]] of [sort_row]. *)
Lemma rev_sort_idx_inverts (row : list Z) (p : Z) :
  0 <= p < Z.of_nat (length row) ->
  let sort_idx := snd (sort row) in
  let rev_sort_idx :=
    index_put_ (replicate (length sort_idx) 0) sort_idx (iota 0 (length sort_idx)) in
  0 <= rev_sort_idx.[p] < Z.of_nat (length row) /\
  (fst (sort row)).[rev_sort_idx.[p]] = row.[p].
Proof.
  intros Hp sort_idx rev_sort_idx.
  assert (Hin : In p sort_idx) by now apply sort_idx_range.
  destruct (In_rd 0 sort_idx p Hin) as (k & Hk & Hkp).
  assert (Hlen : length sort_idx = length row) by apply sort_idx_length.
  assert (Hrev : rev_sort_idx.[p] = k).
  { subst rev_sort_idx. rewrite <- Hkp. rewrite index_put_rd.
    - rewrite rd_iota by lia. lia.
    - apply sort_idx_NoDup.
    - apply iota_length.
    - intros i Hi. rewrite length_replicate, Hlen. now apply sort_idx_range.
    - exact Hk. }
  rewrite Hrev. split; [lia|].
  rewrite sort_row_eq. fold sort_idx. rewrite (rd_map _ 0) by exact Hk.
  now rewrite Hkp.
Qed.

Lemma existsb_eqb_In (a : Z) (l : list Z) : existsb (Z.eqb a) l = true <-> In a l.
Proof.
  rewrite existsb_exists. split.
  - intros (x & Hx & Heq). apply Z.eqb_eq in Heq. now subst.
  - intros Ha. exists a. split; [exact Ha|apply Z.eqb_refl].
Qed.

Lemma first_seen_In (seen l : list Z) (x : Z) :
  In x (first_seen seen l) <-> In x l /\ ~ In x seen.
Proof.
  revert seen. induction l as [|a l IH]; intros seen; simpl; [tauto|].
  destruct (existsb (Z.eqb a) seen) eqn:Hex.
  - apply existsb_eqb_In in Hex. rewrite IH. split.
    + intros [Hl Hs]. tauto.
    + intros [[->|Hl] Hs]; tauto.
  - assert (Hna : ~ In a seen).
    { intros Ha. apply existsb_eqb_In in Ha. congruence. }
    simpl. rewrite IH. simpl. split.
    + intros [->|[Hl Hs]]; [tauto|]. split; [tauto|]. intros H. apply Hs. now right.
    + intros [[->|Hl] Hs]; [now left|].
      destruct (Z.eq_dec a x) as [->|Hne]; [now left|]. right. split; [exact Hl|].
      intros [H|H]; [congruence|contradiction].
Qed.

Lemma first_seen_NoDup (seen l : list Z) : List.NoDup (first_seen seen l).
Proof.
  revert seen. induction l as [|a l IH]; intros seen; simpl; [constructor|].
  destruct (existsb (Z.eqb a) seen); [apply IH|].
  constructor; [|apply IH]. rewrite first_seen_In. simpl. tauto.
Qed.

Lemma first_seen_app (seen l1 l2 : list Z) :
  first_seen seen (l1 ++ l2) =
  first_seen seen l1 ++ first_seen (rev (first_seen seen l1) ++ seen) l2.
Proof.
  revert seen. induction l1 as [|a l1 IH]; intros seen; simpl; [reflexivity|].
  destruct (existsb (Z.eqb a) seen); [apply IH|].
  simpl. rewrite IH. rewrite <- app_assoc. reflexivity.
Qed.

Lemma first_seen_distinct (seen l : list Z) :
  List.NoDup l -> (forall x, In x l -> ~ In x seen) -> first_seen seen l = l.
Proof.
  revert seen. induction l as [|a l IH]; intros seen Hnd Hdis; simpl; [reflexivity|].
  apply NoDup_cons_iff in Hnd as [Hnin Hnd].
  destruct (existsb (Z.eqb a) seen) eqn:Hex.
  - apply existsb_eqb_In in Hex. exfalso. apply (Hdis a); [now left|exact Hex].
  - f_equal. apply IH; [exact Hnd|].
    intros x Hx [<-|Hs]; [contradiction|]. apply (Hdis x); [now right|exact Hs].
Qed.

Lemma first_seen_sorted (seen l : list Z) :
  StronglySorted Z.le l -> StronglySorted Z.lt (first_seen seen l).
Proof.
  revert seen. induction l as [|a l IH]; intros seen Hs; simpl; [constructor|].
  apply StronglySorted_inv in Hs as [Hs Ha].
  destruct (existsb (Z.eqb a) seen); [now apply IH|].
  constructor; [now apply IH|].
  rewrite List.Forall_forall in Ha |- *. intros x Hx.
  apply first_seen_In in Hx as [Hl Hnin]. specialize (Ha x Hl).
  assert (a <> x) by (intros ->; apply Hnin; now left). lia.
Qed.

Lemma index_of_spec (v : Z) (l : list Z) :
  In v l -> 0 <= index_of v l < Z.of_nat (length l) /\ l.[index_of v l] = v.
Proof.
  induction l as [|a l IH]; intros Hin; [contradiction|]. simpl index_of.
  destruct (a =? v) eqn:Hav.
  - apply Z.eqb_eq in Hav. subst. simpl length. split; [lia|reflexivity].
  - apply Z.eqb_neq in Hav. destruct Hin as [->|Hin]; [congruence|].
    destruct (IH Hin) as [Hr Hv]. simpl length. split; [lia|].
    rewrite rd_cons_succ by lia. exact Hv.
Qed.

(** Any listing of the distinct values, with [index_of] as the inverse,
    keeps the promise of [_unique]. *)
Lemma unique_spec_of_listing (listing : list Z -> list Z) :
  (forall t, List.NoDup (listing t)) ->
  (forall t v, In v (listing t) <-> In v t) ->
  unique_spec (fun t => (listing t, map (fun v => index_of v (listing t)) t)).
Proof.
  intros Hnd Hin t. cbn [fst snd]. split; [apply Hnd|]. split; [apply Hin|].
  split; [apply length_map|]. intros i Hi.
  rewrite (rd_map _ 0) by exact Hi.
  apply index_of_spec, Hin. now apply rd_In.
Qed.

Lemma unique_newest_first_spec : unique_spec unique_newest_first.
Proof.
  apply (unique_spec_of_listing (fun t => rev (first_seen [] t))).
  - intros t. apply List.NoDup_rev, first_seen_NoDup.
  - intros t v. rewrite <- in_rev, first_seen_In. simpl. tauto.
Qed.

Lemma unique_ascending_spec : unique_spec unique_ascending.
Proof.
  apply (unique_spec_of_listing (fun t => stable_sort Z.ltb (first_seen [] t))).
  - intros t. apply (Permutation_NoDup (Permutation_sym (stable_sort_perm _ _))).
    apply first_seen_NoDup.
  - intros t v. split.
    + intros H. apply (Permutation_in _ (stable_sort_perm _ _)) in H.
      apply first_seen_In in H. tauto.
    + intros H. apply (Permutation_in _ (Permutation_sym (stable_sort_perm _ _))).
      apply first_seen_In. simpl. tauto.
Qed.

Lemma CompactIndices_unfold (unique : list Z -> list Z * list Z)
    (row leading : list Z) :
  CompactIndices unique row (Some leading) =
  let sort_idx := snd (sort row) in
  let rev_sort_idx :=
    index_put_ (replicate (length sort_idx) 0) sort_idx (iota 0 (length sort_idx)) in
  let n_leading_indices := Z.of_nat (length leading) in
  let u := unique (leading ++ fst (sort row)) in
  (index_select
     (index_select (arange_down (Z.of_nat (length (fst u)) - 1))
                   (slice (snd u) n_leading_indices
                          (n_leading_indices + Z.of_nat (length row))))
     rev_sort_idx, fst u).
Proof.
  unfold CompactIndices. destruct (sort row) as [sort_row sort_idx]. cbn [fst snd].
  cbv zeta. destruct (unique (leading ++ sort_row)) as [uniqued uniq_idx]. reflexivity.
Qed.

Lemma CompactIndices_uniqued (unique : list Z -> list Z * list Z)
    (row leading : list Z) :
  snd (CompactIndices unique row (Some leading)) =
  fst (unique (leading ++ fst (sort row))).
Proof. now rewrite CompactIndices_unfold. Qed.

Lemma CompactIndices_length (unique : list Z -> list Z * list Z)
    (row leading : list Z) :
  length (fst (CompactIndices unique row (Some leading))) = length row.
Proof.
  rewrite CompactIndices_unfold. cbv zeta. cbn [fst]. unfold index_select.
  rewrite length_map, index_put_length, length_replicate. apply sort_idx_length.
Qed.

(** The new index of the element at position [p] is the position of its
    value in [uniqued], counted from the end. *)
Lemma CompactIndices_rd (unique : list Z -> list Z * list Z)
    (row leading : list Z) (p : Z) :
  unique_spec unique -> 0 <= p < Z.of_nat (length row) ->
  let uniqued := snd (CompactIndices unique row (Some leading)) in
  exists j, 0 <= j < Z.of_nat (length uniqued) /\
    (fst (CompactIndices unique row (Some leading))).[p] =
      Z.of_nat (length uniqued) - 1 - j /\
    uniqued.[j] = row.[p].
Proof.
  intros Hspec Hp uniqued. subst uniqued.
  rewrite CompactIndices_uniqued, CompactIndices_unfold. cbv zeta. cbn [fst].
  destruct (rev_sort_idx_inverts row p Hp) as [Hq Hqv].
  set (rev_sort_idx := index_put_ _ _ _) in *.
  set (q := rev_sort_idx.[p]) in *.
  destruct (Hspec (leading ++ fst (sort row))) as (_ & _ & Hlen & Hidx).
  set (u := unique (leading ++ fst (sort row))) in *.
  rewrite length_app, sort_row_length in Hlen, Hidx.
  set (nl := Z.of_nat (length leading)).
  destruct (Hidx (nl + q)) as [Hj Hjv]; [subst nl; lia|].
  exists ((snd u).[nl + q]). split; [exact Hj|].
  assert (Hslice : length (slice (snd u) nl (nl + Z.of_nat (length row))) = length row).
  { unfold slice. rewrite length_firstn, length_skipn, Hlen. subst nl. lia. }
  assert (Hrlen : length rev_sort_idx = length row).
  { subst rev_sort_idx. rewrite index_put_length, length_replicate.
    apply sort_idx_length. }
  split.
  - unfold index_select.
    rewrite (rd_map _ 0) by (rewrite Hrlen; exact Hp).
    fold q. rewrite (rd_map _ 0) by (rewrite Hslice; exact Hq).
    rewrite rd_slice by (subst nl; lia).
    unfold arange_down. rewrite (rd_map _ 0) by (rewrite iota_length; lia).
    rewrite rd_iota by lia. lia.
  - rewrite Hjv. subst nl. rewrite rd_app_r by lia. exact Hqv.
Qed.

End CompactFacts.

Section CompactClaim.

Import Compact StdSort.

(** C7 (amended).  [CompactIndices] with a leading prefix, over any [_unique]
    that keeps its promise, and [CompactCOO] on top of it: the new index
    tensor has the length of the input; the returned reverse mapping (the
    flipped [uniqued]) holds each id of the leading prefix and of the input
    exactly once; and it is consistent with the new indices, that is, every
    new index is in range and the reverse mapping sends it back to the
    original id.  Which id gets which index is decided by the order in which
    [_unique] lists the values.  When it lists them newest first and the
    leading ids are distinct, the leading ids get the indices
    [0 .. len(leading) - 1] in their given order, and the other ids follow in
    ascending order. *)
Theorem CompactIndices_reverse_mapping_consistent
    (unique : list Z -> list Z * list Z) (row col leading : list Z) :
  unique_spec unique ->
  let new_row := fst (CompactIndices unique row (Some leading)) in
  let uniqued := snd (CompactIndices unique row (Some leading)) in
  let ret_idx := rev uniqued in
  CompactCOO unique (row, col) 0 (Some leading) = ((new_row, col), ret_idx) /\
  CompactCOO unique (col, row) 1 (Some leading) = ((col, new_row), ret_idx) /\
  length new_row = length row /\
  List.NoDup ret_idx /\
  (forall v, In v ret_idx <-> In v leading \/ In v row) /\
  (forall p, 0 <= p < Z.of_nat (length row) ->
     0 <= new_row.[p] < Z.of_nat (length ret_idx) /\
     ret_idx.[new_row.[p]] = row.[p]) /\
  ((forall t, fst (unique t) = rev (first_seen [] t)) -> List.NoDup leading ->
   (forall p i, 0 <= p < Z.of_nat (length row) ->
      0 <= i < Z.of_nat (length leading) ->
      row.[p] = leading.[i] -> new_row.[p] = i) /\
   exists residual,
     ret_idx = leading ++ residual /\
     StronglySorted Z.lt residual /\
     (forall v, In v residual <-> In v row /\ ~ In v leading)).
Proof.
  intros Hspec new_row uniqued ret_idx.
  assert (Hcons : forall p, 0 <= p < Z.of_nat (length row) ->
            0 <= new_row.[p] < Z.of_nat (length ret_idx) /\
            ret_idx.[new_row.[p]] = row.[p]).
  { intros p Hp. destruct (CompactIndices_rd unique row leading p Hspec Hp)
      as (j & Hj & Hnew & Hv).
    fold uniqued in Hj, Hnew, Hv. fold new_row in Hnew.
    subst ret_idx. rewrite length_rev, Hnew. split; [lia|].
    rewrite rd_rev by lia. rewrite <- Hv. f_equal. lia. }
  assert (Hnd : List.NoDup ret_idx).
  { subst ret_idx uniqued. rewrite CompactIndices_uniqued.
    apply List.NoDup_rev, Hspec. }
  split; [|split; [|split; [|split; [|split; [|split]]]]].
  - unfold CompactCOO. cbn [Z.eqb fst snd]. subst ret_idx uniqued new_row.
    now destruct (CompactIndices unique row (Some leading)).
  - unfold CompactCOO. cbn [Z.eqb fst snd]. subst ret_idx uniqued new_row.
    now destruct (CompactIndices unique row (Some leading)).
  - apply CompactIndices_length.
  - exact Hnd.
  - intros v. subst ret_idx uniqued. rewrite <- in_rev, CompactIndices_uniqued.
    destruct (Hspec (leading ++ fst (sort row))) as (_ & Hin & _).
    rewrite Hin, in_app_iff, sort_row_In. reflexivity.
  - exact Hcons.
  - intros Horder Hlead.
    assert (Hret : ret_idx = leading ++ first_seen (rev leading ++ []) (fst (sort row))).
    { subst ret_idx uniqued. rewrite CompactIndices_uniqued, Horder, rev_involutive.
      rewrite first_seen_app.
      rewrite (first_seen_distinct [] leading Hlead) by (intros x _ []).
      reflexivity. }
    split.
    + intros p i Hp Hi Heq. destruct (Hcons p Hp) as [Hrange Hback].
      apply (NoDup_rd_inj ret_idx); [exact Hnd|exact Hrange| |].
      * rewrite Hret, length_app. lia.
      * rewrite Hback, Heq, Hret. unfold rd. rewrite app_nth1 by lia. reflexivity.
    + exists (first_seen (rev leading ++ []) (fst (sort row))).
      split; [exact Hret|]. split; [apply first_seen_sorted, sort_row_sorted|].
      intros v. rewrite first_seen_In, sort_row_In, app_nil_r, <- in_rev. reflexivity.
Qed.

End CompactClaim.

Section CompactExamples.

Import Compact StdSort.

Lemma CompactIndices_reverse_mapping_consistent_witness :
  unique_spec unique_newest_first /\
  CompactCOO unique_newest_first ([7; 5; 9; 5], [0; 1; 2; 3]) 0 (Some [4]) =
    (([2; 1; 3; 1], [0; 1; 2; 3]), [4; 5; 7; 9]) /\
  exists residual,
    [4; 5; 7; 9] = [4] ++ residual /\ StronglySorted Z.lt residual.
Proof.
  split; [apply unique_newest_first_spec|].
  destruct (CompactIndices_reverse_mapping_consistent unique_newest_first
              [7; 5; 9; 5] [0; 1; 2; 3] [4] unique_newest_first_spec)
    as (Hcoo & _ & _ & _ & _ & _ & Hord).
  split.
  - rewrite Hcoo. vm_compute. reflexivity.
  - destruct Hord as (_ & residual & Hret & Hs & _).
    + reflexivity.
    + constructor; [simpl; tauto|constructor].
    + exists residual. split; [|exact Hs]. vm_compute in Hret. exact Hret.
Defined.

(** With a [_unique] that lists the values newest first, the ids outside the
    leading prefix are numbered in ascending order, not in the reverse of
    it: for the ids [7, 5, 9, 5] and the leading id [4] the new indices are
    [2, 1, 3, 1], where the reversed numbering would give [2, 3, 1, 3].
    With a [_unique] that lists the values in ascending order, the leading
    id [4] is not numbered [0]: the reverse mapping is [9, 7, 5, 4]. *)
Lemma CompactIndices_order_follows_unique :
  (unique_spec unique_newest_first /\
   fst (CompactIndices unique_newest_first [7; 5; 9; 5] (Some [4])) = [2; 1; 3; 1] /\
   map (claimed_index [4] [7; 5; 9; 5]) [7; 5; 9; 5] = [2; 3; 1; 3]) /\
  (unique_spec unique_ascending /\
   CompactCOO unique_ascending ([7; 5; 9; 5], [0; 1; 2; 3]) 0 (Some [4]) =
     (([1; 2; 0; 2], [0; 1; 2; 3]), [9; 7; 5; 4])).
Proof.
  split; split.
  - apply unique_newest_first_spec.
  - split; vm_compute; reflexivity.
  - apply unique_ascending_spec.
  - vm_compute. reflexivity.
Qed.

End CompactExamples.

(* ===================================================================== *)
(** * Part III.  Further properties of the embedded code                  *)
(* ===================================================================== *)

(** ** Shapes of binary operands (kernel/binary_reduce.cc) *)

Section OperandShapes.
Import BinaryReduce.

Lemma existsb_negb_forallb {A : Type} (f : A -> bool) (l : list A) :
  existsb f l = negb (forallb (fun a => negb (f a)) l).
Proof.
  induction l as [|a l IH]; [reflexivity|]. simpl. rewrite IH.
  now destruct (f a).
Qed.

Lemma tl_eq_pointwise (l r : list Z) :
  length l = length r ->
  (forall i, In i (iota 1 (length l - 1)) -> l.[i] = r.[i]) ->
  tl l = tl r.
Proof.
  intros Hlen Hpt. destruct l as [|a l], r as [|b r]; try discriminate; [reflexivity|].
  simpl. apply nth_ext with (d := 0) (d' := 0); [simpl in Hlen; lia|].
  intros n Hn. specialize (Hpt (Z.of_nat (S n))).
  unfold rd in Hpt. rewrite Nat2Z.id in Hpt. simpl in Hpt. apply Hpt.
  apply in_iota. simpl. lia.
Qed.

(** X1.  [HasBcast] is the negation of [IsValidBinaryOpShape], and both
    decide whether the two arrays have the same number of axes and the same
    feature shape (the dimensions after the first). *)
Theorem HasBcast_negates_IsValidBinaryOpShape (lhs rhs : NDArray) :
  HasBcast lhs rhs = negb (IsValidBinaryOpShape lhs rhs) /\
  (IsValidBinaryOpShape lhs rhs = true <->
   length (shape lhs) = length (shape rhs) /\ feature_shape lhs = feature_shape rhs).
Proof.
  unfold HasBcast, IsValidBinaryOpShape, ndim, feature_shape. split.
  - destruct (Z.of_nat (length (shape lhs)) =? Z.of_nat (length (shape rhs)));
      [|reflexivity].
    cbn [negb]. apply existsb_negb_forallb.
  - destruct (Z.of_nat (length (shape lhs)) =? Z.of_nat (length (shape rhs))) eqn:Hn;
      cbn [negb].
    + apply Z.eqb_eq in Hn. rewrite forallb_forall. split.
      * intros Hall. split; [lia|]. apply tl_eq_pointwise; [lia|].
        intros i Hi. specialize (Hall i).
        replace (Z.to_nat (Z.of_nat (length (shape lhs)) - 1))
          with (length (shape lhs) - 1)%nat in Hall by lia.
        specialize (Hall Hi). rewrite negb_involutive in Hall. now apply Z.eqb_eq.
      * intros [_ Htl] i Hi. rewrite negb_involutive. apply Z.eqb_eq.
        apply in_iota in Hi.
        destruct (shape lhs) as [|a l], (shape rhs) as [|b r]; simpl in *; try lia.
        subst r. unfold rd. replace (Z.to_nat i) with (S (Z.to_nat (i - 1))) by lia.
        reflexivity.
    + apply Z.eqb_neq in Hn. split; [discriminate|]. intros [Hlen _]. lia.
Qed.

End OperandShapes.

Section Strides.
Import BinaryReduce.

Lemma nth_replicate_same_Z (n j : nat) (v : Z) :
  (j < n)%nat -> nth j (replicate n v) 0 = v.
Proof.
  intros Hj. rewrite nth_lookup, lookup_replicate_2 by exact Hj. reflexivity.
Qed.

Lemma numel_skipn_S (shp : list Z) (k : nat) :
  (k < length shp)%nat -> numel (skipn k shp) = nth k shp 0 * numel (skipn (S k) shp).
Proof.
  revert k. induction shp as [|a shp IH]; intros k Hk; [simpl in Hk; lia|].
  destruct k as [|k]; [reflexivity|]. simpl in Hk. cbn [skipn nth]. apply IH. lia.
Qed.

Lemma to_int64_small (x : Z) : - 2 ^ 63 <= x < 2 ^ 63 -> to_int64 x = x.
Proof. intros Hx. unfold to_int64. rewrite Z.mod_small; lia. Qed.

(** An [int64_t] product depends on the low 64 bits of its factors only. *)
Lemma to_int64_mul_l (a b : Z) : to_int64 (to_int64 a * b) = to_int64 (a * b).
Proof.
  unfold to_int64. set (q := (a + 2 ^ 63) / 2 ^ 64).
  assert (H : (a + 2 ^ 63) mod 2 ^ 64 = a + 2 ^ 63 - 2 ^ 64 * q).
  { pose proof (Z.div_mod (a + 2 ^ 63) (2 ^ 64) ltac:(lia)). subst q. lia. }
  rewrite H.
  replace ((a + 2 ^ 63 - 2 ^ 64 * q - 2 ^ 63) * b + 2 ^ 63)
    with (a * b + 2 ^ 63 + (- q * b) * 2 ^ 64) by ring.
  now rewrite Z_mod_plus_full.
Qed.

(** The loop of [ComputeStride] from axis [k + m - 1] down to axis [k]. *)
Lemma ComputeStride_loop (shp : list Z) (m k : nat) :
  (k + m + 1 = length shp)%nat ->
  let ret :=
    fold_right (fun i ret =>
                  <[i := to_int64 (ret.[Z.of_nat i + 1] * shp.[Z.of_nat i + 1])]> ret)
               (replicate (length shp) 1) (seq k m) in
  length ret = length shp /\
  forall j, (k <= j < length shp)%nat ->
    nth j ret 0 = to_int64 (numel (skipn (S j) shp)).
Proof.
  revert k. induction m as [|m IH]; intros k Hk; cbn zeta.
  - simpl. split; [apply length_replicate|]. intros j Hj.
    assert (j = k) by lia. subst j. rewrite nth_replicate_same_Z by lia.
    rewrite skipn_all2 by lia. reflexivity.
  - cbn [seq fold_right]. destruct (IH (S k)) as [Hlen Hval]; [lia|].
    cbv zeta in Hlen, Hval.
    set (ret := fold_right _ _ (seq (S k) m)) in *.
    split; [now rewrite length_insert|]. intros j Hj.
    destruct (Nat.eq_dec j k) as [->|Hne].
    + rewrite nth_lookup, list_lookup_insert_eq by lia. cbn [default from_option]. unfold id.
      unfold rd. replace (Z.to_nat (Z.of_nat k + 1)) with (S k) by lia.
      rewrite Hval by lia. rewrite to_int64_mul_l.
      rewrite (numel_skipn_S shp (S k)) by lia. f_equal. lia.
    + rewrite nth_lookup, list_lookup_insert_ne by lia. rewrite <- nth_lookup.
      apply Hval. lia.
Qed.

(** X2.  [ComputeStride] gives row-major strides in [int64_t] arithmetic:
    the result has one stride per axis, and the stride of an axis is the
    number of elements of the axes after it (1 for the last axis), reduced
    to 64 bits; it is that number itself whenever the number fits an
    [int64_t]. *)
Theorem ComputeStride_is_row_major (shp : list Z) :
  length (ComputeStride shp) = length shp /\
  (forall j, (j < length shp)%nat ->
     nth j (ComputeStride shp) 0 = to_int64 (numel (skipn (S j) shp))) /\
  (forall j, (j < length shp)%nat ->
     - 2 ^ 63 <= numel (skipn (S j) shp) < 2 ^ 63 ->
     nth j (ComputeStride shp) 0 = numel (skipn (S j) shp)).
Proof.
  assert (H : length (ComputeStride shp) = length shp /\
              forall j, (j < length shp)%nat ->
                nth j (ComputeStride shp) 0 = to_int64 (numel (skipn (S j) shp))).
  { unfold ComputeStride.
    rewrite <- (fold_left_rev_right
                  (fun i ret =>
                     <[i := to_int64 (ret.[Z.of_nat i + 1] * shp.[Z.of_nat i + 1])]> ret)).
    rewrite rev_involutive.
    destruct shp as [|a shp]; [split; [reflexivity|simpl; lia]|].
    destruct (ComputeStride_loop (a :: shp) (length (a :: shp) - 1) 0) as [Hlen Hval];
      [simpl; lia|].
    split; [exact Hlen|]. intros j Hj. apply Hval. lia. }
  destruct H as [Hlen Hval]. split; [exact Hlen|]. split; [exact Hval|].
  intros j Hj Hfit. rewrite Hval by exact Hj. now apply to_int64_small.
Qed.

End Strides.

Section CollapsedShapes.
Import BinaryReduce.

Lemma numel_app (l1 l2 : list Z) : numel (l1 ++ l2) = numel l1 * numel l2.
Proof.
  unfold numel. induction l1 as [|a l1 IH]; simpl; [lia|]. rewrite IH. lia.
Qed.

Lemma numel_cons (a : Z) (l : list Z) : numel (a :: l) = a * numel l.
Proof. reflexivity. Qed.

Lemma numel_rev (l : list Z) : numel (rev l) = numel l.
Proof.
  induction l as [|a l IH]; [reflexivity|]. simpl rev. rewrite numel_app, IH.
  unfold numel. simpl. lia.
Qed.

(** What the loop reads at distance [j] from the last axis, for positive
    feature dimensions that fit an [int]: the dimension itself, and 1 where
    the feature shape has run out. *)
Lemma dim_at_feature (a : NDArray) (j : nat) :
  positive_features a ->
  dim_at a (Z.of_nat j) =
    if (j <? length (feature_shape a))%nat
    then nth j (rev (feature_shape a)) 0 else 1.
Proof.
  unfold positive_features, feature_shape, dim_at, ndim. intros Hpos.
  destruct (shape a) as [|h t]; simpl tl in *.
  - simpl length.
    replace (Z.of_nat 0 - 1 - Z.of_nat j <? 1) with true
      by (symmetry; apply Z.ltb_lt; lia).
    reflexivity.
  - cbn [length]. destruct (j <? length t)%nat eqn:Hj.
    + apply Nat.ltb_lt in Hj.
      replace (Z.of_nat (S (length t)) - 1 - Z.of_nat j <? 1) with false
        by (symmetry; apply Z.ltb_ge; lia).
      rewrite rev_nth by lia. unfold rd.
      replace (Z.to_nat (Z.of_nat (S (length t)) - 1 - Z.of_nat j))
        with (S (length t - S j)) by lia.
      cbn [nth]. apply to_int_small.
      rewrite List.Forall_forall in Hpos.
      assert (In (nth (length t - S j) t 0) t) by (apply nth_In; lia).
      specialize (Hpos _ H). lia.
    + apply Nat.ltb_ge in Hj.
      replace (Z.of_nat (S (length t)) - 1 - Z.of_nat j <? 1) with true
        by (symmetry; apply Z.ltb_lt; lia).
      reflexivity.
Qed.

Lemma dim_at_positive (a : NDArray) (j : nat) :
  positive_features a -> 1 <= dim_at a (Z.of_nat j).
Proof.
  intros Hpos. rewrite dim_at_feature by exact Hpos.
  destruct (j <? length (feature_shape a))%nat eqn:Hj; [|lia].
  apply Nat.ltb_lt in Hj. unfold positive_features in Hpos.
  rewrite List.Forall_forall in Hpos.
  assert (In (nth j (rev (feature_shape a)) 0) (rev (feature_shape a)))
    by (apply nth_In; rewrite length_rev; lia).
  apply in_rev in H. specialize (Hpos _ H). lia.
Qed.

(** The dimensions the loop reads over [n] axes multiply to the number of
    elements of the feature shape. *)
Lemma dims_numel (a : NDArray) (n : nat) :
  positive_features a -> (length (feature_shape a) <= n)%nat ->
  numel (map (dim_at a) (iota 0 n)) = numel (feature_shape a).
Proof.
  intros Hpos Hn. set (m := length (feature_shape a)).
  replace n with (m + (n - m))%nat by lia.
  unfold iota. rewrite seq_app, !map_app, numel_app. cbn [Nat.add].
  assert (H1 : map (dim_at a) (map (fun j => 0 + Z.of_nat j) (seq 0 m)) =
               rev (feature_shape a)).
  { apply nth_ext with (d := 0) (d' := 0); [now rewrite !length_map, length_seq, length_rev|].
    intros k Hk. rewrite !length_map, length_seq in Hk.
    rewrite map_map, (nth_indep _ 0 (dim_at a (0 + Z.of_nat 0)))
      by (rewrite length_map, length_seq; lia).
    rewrite (map_nth (fun j => dim_at a (0 + Z.of_nat j)) (seq 0 m) 0%nat k).
    rewrite seq_nth by lia. change (0 + Z.of_nat (0 + k)%nat) with (Z.of_nat k).
    rewrite dim_at_feature by exact Hpos.
    fold m. apply Nat.ltb_lt in Hk. now rewrite Hk. }
  assert (H2 : numel (map (dim_at a) (map (fun j => 0 + Z.of_nat j) (seq m (n - m)))) = 1).
  { generalize (n - m)%nat as q. assert (Hm : (m <= m)%nat) by lia. revert Hm.
    generalize m at 2 3 as s. intros s Hs q. revert s Hs.
    induction q as [|q IH]; intros s Hs; [reflexivity|].
    cbn [seq map]. unfold numel in *. cbn [fold_right]. rewrite IH by lia.
    replace (0 + Z.of_nat s) with (Z.of_nat s) by lia.
    rewrite dim_at_feature by exact Hpos. fold m.
    replace (s <? m)%nat with false by (symmetry; apply Nat.ltb_ge; lia). reflexivity. }
  rewrite H1, H2, numel_rev. lia.
Qed.

Lemma numel_ge_1 (l : list Z) : Forall (fun d => 1 <= d) l -> 1 <= numel l.
Proof.
  induction l as [|a l IH]; intros Hl; [unfold numel; simpl; lia|].
  apply Forall_cons_1 in Hl as [Ha Hl]. rewrite numel_cons. specialize (IH Hl). nia.
Qed.

Local Abbreviation pending a := (if Z.eqb a 0 then 1 else a%Z).
Local Abbreviation compatible t :=
  (snd t = Z.max (fst (fst t)) (snd (fst t)) /\
   (fst (fst t) = snd (fst t) \/ fst (fst t) = 1 \/ snd (fst t) = 1)).
Local Abbreviation collapsed st pl pr po :=
  (0 <= accum st /\
   (exists T : list (Z * Z * Z),
      st_lhs_shape st = map (fun t => fst (fst t)) T /\
      st_rhs_shape st = map (fun t => snd (fst t)) T /\
      st_out_shape st = map snd T /\
      Forall (fun t => compatible t) T) /\
   1 <= numel (st_lhs_shape st) /\
   numel (st_lhs_shape st) * pending (accum st) = pl /\
   numel (st_rhs_shape st) * pending (accum st) = pr /\
   numel (st_out_shape st) * pending (accum st) = po /\
   numel (st_real_out_shape st) = po).

Lemma flush_accum_collapsed (st : bcast_state) (pl pr po : Z) :
  collapsed st pl pr po ->
  accum (flush_accum st) = 0 /\ collapsed (flush_accum st) pl pr po.
Proof.
  intros (Hacc & (T & HL & HR & HO & HT) & Hnl & Hpl & Hpr & Hpo & Hro).
  unfold flush_accum. destruct (accum st =? 0) eqn:Hz.
  - apply Z.eqb_eq in Hz. split; [exact Hz|]. rewrite Hz in *.
    repeat split; try assumption; try lia. exists T. now repeat split.
  - cbn [accum st_lhs_shape st_rhs_shape st_out_shape st_real_out_shape].
    apply Z.eqb_neq in Hz.
    split; [reflexivity|]. split; [lia|]. split.
    + exists (T ++ [(accum st, accum st, accum st)]). rewrite !map_app, HL, HR, HO.
      cbn [map fst snd]. repeat split. apply Forall_app. split; [exact HT|].
      apply List.Forall_cons; [|apply List.Forall_nil]. cbn [fst snd]. split; lia.
    + rewrite !numel_app. unfold numel at 2 4 6 8. cbn [fold_right Z.eqb].
      repeat split; nia.
Qed.

(** The invariant of the loop of [CalcBcastInfo]: the three collapsed shapes
    stay compatible axis by axis, and together with the pending [accum]
    they account for every element of the axes read so far.  The products
    that [accum] holds stay below the number of elements of the lhs
    features, so that no product leaves the range of [int64_t]. *)
Lemma bcast_loop_collapsed (lhs rhs : NDArray) (js : list Z) (st st' : bcast_state)
    (pl pr po : Z) :
  Forall (fun j => 1 <= dim_at lhs j /\ 1 <= dim_at rhs j) js ->
  pl * numel (map (dim_at lhs) js) < 2 ^ 63 ->
  collapsed st pl pr po ->
  bcast_loop lhs rhs js st = Ok st' ->
  collapsed st' (pl * numel (map (dim_at lhs) js)) (pr * numel (map (dim_at rhs) js))
            (po * numel (map (fun j => Z.max (dim_at lhs j) (dim_at rhs j)) js)).
Proof.
  revert st pl pr po. induction js as [|j js IH]; intros st pl pr po Hpos Hfit Hinv Hloop.
  - simpl in Hloop. injection Hloop as <-. unfold numel. simpl. rewrite !Z.mul_1_r.
    exact Hinv.
  - apply Forall_cons_1 in Hpos as [[Hdl Hdr] Hpos]. cbn [bcast_loop] in Hloop.
    destruct (bcast_step lhs rhs st j) as [st1|] eqn:Hstep; [|discriminate].
    cbn [result_bind] in Hloop. cbn [map] in Hfit. rewrite numel_cons in Hfit.
    set (dl := dim_at lhs j) in *. set (dr := dim_at rhs j) in *.
    assert (Hrest : 1 <= numel (map (dim_at lhs) js)).
    { apply numel_ge_1. apply List.Forall_forall. intros d Hd.
      apply in_map_iff in Hd as (j' & <- & Hj'). rewrite List.Forall_forall in Hpos.
      apply (Hpos j' Hj'). }
    assert (Hst1 : collapsed st1 (pl * dl) (pr * dr) (po * Z.max dl dr)).
    { unfold bcast_step in Hstep. fold dl dr in Hstep.
      destruct (dl =? dr) eqn:Heq; cbn [negb] in Hstep.
      - apply Z.eqb_eq in Heq. injection Hstep as <-.
        destruct Hinv as (Hacc & HT & Hnl & Hpl & Hpr & Hpo & Hro).
        cbn [accum st_lhs_shape st_rhs_shape st_out_shape st_real_out_shape].
        rewrite numel_app. unfold numel at 6. cbn [fold_right].
        rewrite <- Heq, Z.max_id in *.
        destruct (accum st =? 0) eqn:Hz.
        + apply Z.eqb_eq in Hz.
          replace (dl =? 0) with false by (symmetry; apply Z.eqb_neq; lia).
          repeat split; try assumption; lia.
        + apply Z.eqb_neq in Hz.
          assert (Hw : to_int64 (accum st * dl) = accum st * dl).
          { apply to_int64_small.
            set (a := accum st) in *. set (L := numel (st_lhs_shape st)) in *.
            set (R := numel (map (dim_at lhs) js)) in *.
            assert (0 <= a * dl) by nia.
            assert (a * dl * 1 <= a * dl * (L * R)) by (apply Z.mul_le_mono_nonneg_l; nia).
            assert (pl * (dl * R) = a * dl * (L * R)) by (rewrite <- Hpl; ring).
            lia. }
          rewrite Hw.
          replace (accum st * dl =? 0) with false by (symmetry; apply Z.eqb_neq; nia).
          repeat split; try assumption; nia.
      - apply Z.eqb_neq in Heq.
        destruct (negb (dl =? 1) && negb (dr =? 1)) eqn:Hone; [discriminate|].
        injection Hstep as <-.
        destruct (flush_accum_collapsed st pl pr po Hinv)
          as (Hz & Hacc & (T & HL & HR & HO & HT) & Hnl & Hpl & Hpr & Hpo & Hro).
        cbn [accum st_lhs_shape st_rhs_shape st_out_shape st_real_out_shape].
        rewrite Hz in *. cbn [Z.eqb] in *. split; [lia|]. split.
        + exists (T ++ [(dl, dr, Z.max dl dr)]). rewrite !map_app, HL, HR, HO.
          cbn [map fst snd]. repeat split. apply Forall_app. split; [exact HT|].
          apply List.Forall_cons; [|apply List.Forall_nil]. cbn [fst snd].
          split; [reflexivity|]. right.
          apply andb_false_iff in Hone as [H|H]; apply negb_false_iff, Z.eqb_eq in H;
            [now left|now right].
        + rewrite !numel_app. unfold numel at 2 4 6 8 10. cbn [fold_right].
          repeat split; nia. }
    assert (Hfit1 : pl * dl * numel (map (dim_at lhs) js) < 2 ^ 63)
      by (rewrite <- Z.mul_assoc; exact Hfit).
    specialize (IH st1 _ _ _ Hpos Hfit1 Hst1 Hloop).
    cbn [map]. fold dl dr. rewrite !numel_cons, !Z.mul_assoc. exact IH.
Qed.

(** X3.  For feature dimensions that are positive and fit an [int], and lhs
    features of fewer than [2^63] elements, the collapsed shapes that
    [CalcBcastInfo] returns have the same number of axes; on every axis the
    output dimension is the larger of the two operand dimensions, which are
    equal unless one of them is 1; and the collapsed shapes keep the
    numbers of elements: of the lhs features, of the rhs features and of
    the broadcast output [real_out_shape]. *)
Theorem CalcBcastInfo_collapsed_shapes (lhs rhs : NDArray) (info : BcastInfo) :
  positive_features lhs -> positive_features rhs ->
  numel (feature_shape lhs) < 2 ^ 63 ->
  CalcBcastInfo lhs rhs = Ok info ->
  length (lhs_shape info) = length (out_shape info) /\
  length (rhs_shape info) = length (out_shape info) /\
  (forall i, (i < length (out_shape info))%nat ->
     nth i (out_shape info) 0 =
       Z.max (nth i (lhs_shape info) 0) (nth i (rhs_shape info) 0) /\
     (nth i (lhs_shape info) 0 = nth i (rhs_shape info) 0 \/
      nth i (lhs_shape info) 0 = 1 \/ nth i (rhs_shape info) 0 = 1)) /\
  numel (lhs_shape info) = numel (feature_shape lhs) /\
  numel (rhs_shape info) = numel (feature_shape rhs) /\
  numel (out_shape info) = numel (real_out_shape info).
Proof.
  intros Hl Hr Hfit Hcalc. unfold CalcBcastInfo in Hcalc.
  set (n := Z.to_nat (Z.max (ndim lhs) (ndim rhs) - 1)) in *.
  set (st0 := {| accum := 0; st_real_out_shape := []; st_lhs_shape := [];
                 st_rhs_shape := []; st_out_shape := [] |}) in *.
  destruct (bcast_loop lhs rhs (iota 0 n) st0) as [st|] eqn:Hloop; [|discriminate].
  cbn [result_bind] in Hcalc. injection Hcalc as <-.
  cbn [lhs_shape rhs_shape out_shape real_out_shape].
  assert (Hpos : Forall (fun j => 1 <= dim_at lhs j /\ 1 <= dim_at rhs j) (iota 0 n)).
  { apply List.Forall_forall. intros j Hj. unfold iota in Hj.
    apply in_map_iff in Hj as (k & <- & _). cbn [Z.add].
    split; now apply dim_at_positive. }
  assert (H0 : collapsed st0 1 1 1).
  { subst st0. cbn. split; [lia|]. split; [|repeat split; lia].
    exists []. repeat split. apply List.Forall_nil. }
  assert (Hfl : (length (feature_shape lhs) <= n)%nat).
  { subst n. unfold feature_shape, ndim. destruct (shape lhs); simpl; lia. }
  assert (Hfr : (length (feature_shape rhs) <= n)%nat).
  { subst n. unfold feature_shape, ndim. destruct (shape rhs); simpl; lia. }
  assert (Hfit0 : 1 * numel (map (dim_at lhs) (iota 0 n)) < 2 ^ 63).
  { rewrite dims_numel by assumption. lia. }
  pose proof (bcast_loop_collapsed lhs rhs (iota 0 n) st0 st 1 1 1 Hpos Hfit0 H0 Hloop)
    as Hinv.
  rewrite !Z.mul_1_l in Hinv.
  destruct (flush_accum_collapsed st _ _ _ Hinv)
    as (Hz & _ & (T & HL & HR & HO & HT) & _ & Hpl & Hpr & Hpo & Hro).
  rewrite flush_accum_real_out in Hro. rewrite Hz in *. cbn [Z.eqb] in *.
  rewrite !Z.mul_1_r in *.
  rewrite dims_numel in Hpl, Hpr by assumption.
  rewrite !numel_rev, HL, HR, HO, <- !map_rev, !length_map.
  split; [reflexivity|]. split; [reflexivity|]. split.
  - intros i Hi.
    rewrite (nth_indep _ 0 (snd (0, 0, 0))) by (now rewrite length_map).
    rewrite (nth_indep (map (fun t => fst (fst t)) _) 0 (fst (fst (0, 0, 0))))
      by (now rewrite length_map).
    rewrite (nth_indep (map (fun t => snd (fst t)) _) 0 (snd (fst (0, 0, 0))))
      by (now rewrite length_map).
    rewrite (map_nth snd), (map_nth (fun t => fst (fst t))),
      (map_nth (fun t => snd (fst t))).
    rewrite List.Forall_forall in HT. apply HT. apply in_rev. now apply nth_In.
  - rewrite HL in Hpl. rewrite HR in Hpr. rewrite HO in Hpo.
    rewrite flush_accum_real_out.
    split; [exact Hpl|]. split; [exact Hpr|]. now rewrite Hpo, Hro.
Qed.

End CollapsedShapes.

Lemma CalcBcastInfo_collapsed_shapes_witness :
  let lhs := BinaryReduce.mkNDArray [7; 2; 3; 1] in
  let rhs := BinaryReduce.mkNDArray [7; 2; 3; 5] in
  exists info,
    BinaryReduce.CalcBcastInfo lhs rhs = Ok info /\
    BinaryReduce.lhs_shape info = [6; 1] /\
    BinaryReduce.rhs_shape info = [6; 5] /\
    BinaryReduce.out_shape info = [6; 5] /\
    BinaryReduce.numel (BinaryReduce.out_shape info) =
      BinaryReduce.numel (BinaryReduce.real_out_shape info).
Proof.
  cbn zeta. eexists. split; [vm_compute; reflexivity|].
  split; [reflexivity|]. split; [reflexivity|]. split; [reflexivity|].
  refine (proj2 (proj2 (proj2 (proj2 (proj2
    (CalcBcastInfo_collapsed_shapes (BinaryReduce.mkNDArray [7; 2; 3; 1])
       (BinaryReduce.mkNDArray [7; 2; 3; 5]) _ _ _ _ _)))))).
  - repeat (apply List.Forall_cons; [lia|]). apply List.Forall_nil.
  - repeat (apply List.Forall_cons; [lia|]). apply List.Forall_nil.
  - reflexivity.
  - vm_compute. reflexivity.
Defined.

(** ** CUDA utilities (graphbolt, cuda/utils.h) *)

Section CudaUtilsFacts.
Import CudaUtils UniqueAndCompactImpl.

Lemma find_loop_spec (fuel : nat) (k size : Z) :
  0 <= k <= 10 -> (Z.to_nat (10 - k) < fuel)%nat ->
  (k = 0 \/ 2 ^ k <= Z.min size CUDA_MAX_NUM_THREADS) ->
  exists k', k <= k' <= 10 /\
    find_loop fuel (2 ^ k) size = 2 ^ k' /\
    (k' = 0 \/ 2 ^ k' <= Z.min size CUDA_MAX_NUM_THREADS) /\
    Z.min size CUDA_MAX_NUM_THREADS < 2 ^ (k' + 1).
Proof.
  revert k. induction fuel as [|fuel IH]; intros k Hk Hfuel Hinv; [lia|].
  cbn [find_loop].
  assert (Hshift : Z.shiftl (2 ^ k) 1 = 2 ^ (k + 1)).
  { rewrite Z.shiftl_mul_pow2 by lia. rewrite Z.pow_add_r by lia. reflexivity. }
  rewrite Hshift.
  destruct (2 ^ (k + 1) <=? Z.min size CUDA_MAX_NUM_THREADS) eqn:Hle.
  - apply Z.leb_le in Hle.
    assert (Hk1 : k + 1 <= 10).
    { destruct (Z_le_gt_dec (k + 1) 10) as [H|H]; [exact H|]. exfalso.
      assert (2 ^ 11 <= 2 ^ (k + 1)) by (apply Z.pow_le_mono_r; lia).
      change (2 ^ 11) with 2048 in H0. unfold CUDA_MAX_NUM_THREADS in Hle. lia. }
    destruct (IH (k + 1)) as (k' & Hk' & Hres & Hlow & Hup); [lia|lia|now right|].
    exists k'. split; [lia|]. now repeat split.
  - apply Z.leb_gt in Hle. exists k. split; [lia|]. now repeat split.
Qed.

(** X4.  [FindNumThreads(size)] is 1 when [size] is less than 1 (and for
    every size below 2), and otherwise the largest power of two that is at
    most the minimum of [size] and [CUDA_MAX_NUM_THREADS]: the loop stops by
    itself, on a power of two between 1 and 1024 that is at most that
    minimum and whose double exceeds it. *)
Theorem FindNumThreads_largest_power_of_two (size : Z) :
  (size < 2 -> FindNumThreads size = 1) /\
  (1 <= size ->
   exists k, 0 <= k <= 10 /\
     FindNumThreads size = 2 ^ k /\
     2 ^ k <= Z.min size CUDA_MAX_NUM_THREADS < 2 ^ (k + 1) /\
     forall j, 0 <= j -> 2 ^ j <= Z.min size CUDA_MAX_NUM_THREADS -> 2 ^ j <= 2 ^ k).
Proof.
  split.
  - intros Hsize. unfold FindNumThreads. cbn [find_loop].
    change (Z.shiftl 1 1) with 2.
    replace (2 <=? Z.min size CUDA_MAX_NUM_THREADS) with false; [reflexivity|].
    symmetry. apply Z.leb_gt. lia.
  - intros Hsize.
    destruct (find_loop_spec 11 0 size) as (k & Hk & Hres & Hlow & Hup);
      [lia|simpl; lia|now left|].
    exists k. split; [exact Hk|]. split; [exact Hres|]. split.
    + split; [|exact Hup]. destruct Hlow as [->|Hlow]; [|exact Hlow].
      unfold CUDA_MAX_NUM_THREADS. simpl. lia.
    + intros j Hj Hle. apply Z.pow_le_mono_r; [lia|].
      assert (Hlt : 2 ^ j < 2 ^ (k + 1)) by lia.
      apply Z.pow_lt_mono_r_iff in Hlt; lia.
Qed.

Lemma bits_loop_spec (fuel : nat) (bits urange : Z) :
  1 <= bits -> 2 ^ (bits - 1) < urange <= 2 ^ 63 ->
  (Z.to_nat (64 - bits) <= fuel)%nat ->
  let b := bits_loop fuel bits urange in
  bits <= b <= 63 /\ 2 ^ (b - 1) < urange <= 2 ^ b.
Proof.
  revert bits. induction fuel as [|fuel IH]; intros bits Hb Hu Hfuel; cbn zeta.
  - assert (Hlt : bits - 1 < 63).
    { apply (Z.pow_lt_mono_r_iff 2); lia. }
    lia.
  - cbn [bits_loop].
    assert (Hlt : bits - 1 < 63) by (apply (Z.pow_lt_mono_r_iff 2); lia).
    destruct ((bits <? 64) && (2 ^ bits <? urange)) eqn:Hc.
    + apply andb_true_iff in Hc as [_ Hc]. apply Z.ltb_lt in Hc.
      destruct (IH (bits + 1)) as [Hr Hp]; [lia| |lia|].
      * replace (bits + 1 - 1) with bits by lia. lia.
      * split; [lia|exact Hp].
    + apply andb_false_iff in Hc as [Hc|Hc].
      * apply Z.ltb_ge in Hc. lia.
      * apply Z.ltb_ge in Hc. lia.
Qed.

(** X5.  [_NumberOfBits(range)] is 0 for a range of at most 1; for a larger
    range (of a signed 64-bit type) it is the least number of bits [b] with
    [range <= 2^b], so that every id of [[0, range)] is unchanged by the
    mask of the [b] low bits that the radix sort orders by. *)
Theorem NumberOfBits_is_least (range : Z) :
  (range <= 1 -> NumberOfBits range = 0) /\
  (1 < range < 2 ^ 63 ->
   let b := NumberOfBits range in
   1 <= b <= 63 /\ 2 ^ (b - 1) < range <= 2 ^ b /\
   forall id, 0 <= id < range -> radix_key b id = id).
Proof.
  unfold NumberOfBits. split.
  - intros Hr. now replace (range <=? 1) with true by (symmetry; apply Z.leb_le; lia).
  - intros Hr. replace (range <=? 1) with false by (symmetry; apply Z.leb_gt; lia).
    rewrite Z.mod_small by lia.
    destruct (bits_loop_spec 64 1 range) as [Hb Hp]; [lia|simpl; lia|simpl; lia|].
    cbn zeta. split; [lia|]. split; [exact Hp|].
    intros id Hid. unfold radix_key.
    replace (2 ^ bits_loop 64 1 range - 1) with (Z.ones (bits_loop 64 1 range))
      by (rewrite Z.ones_equiv; lia).
    rewrite Z.land_ones by lia. apply Z.mod_small. lia.
Qed.

End CudaUtilsFacts.

(** ** The fill kernel of SpMM (array/cuda/spmm.cuh) *)

Section FillKernelFacts.
Import SpMM.
Context {DType : Type}.

(** X6.  A launch of [_FillKernel] over a non-empty grid, whatever the order
    in which its threads run, for a [length] that with the stride
    [gridDim.x * blockDim.x] is at most [2^31], so that the [int] counter
    [tx] never wraps: the first [length] cells of the buffer hold [val], the
    cells after them are untouched, and the buffer keeps its size. *)
Theorem FillKernel_fills_prefix (cfg : launch) (schedule : list thread_id)
    (fuel : nat) (length : Z) (val : DType) (p : list DType) :
  0 < x (gridDim cfg) -> 0 < y (gridDim cfg) ->
  0 < x (blockDim cfg) -> 0 < y (blockDim cfg) ->
  0 <= length -> length + x (gridDim cfg) * x (blockDim cfg) <= 2 ^ 31 ->
  Permutation schedule (threads cfg) ->
  (Z.to_nat length <= fuel)%nat ->
  length <= Z.of_nat (List.length p) ->
  run_fill fuel cfg schedule length val p =
    replicate (Z.to_nat length) val ++ skipn (Z.to_nat length) p.
Proof.
  intros Hgx Hgy Hbx Hby Hl0 Hmax Hperm Hfuel Hlen.
  set (sx := x (gridDim cfg) * x (blockDim cfg)) in *.
  assert (Hsx : 1 <= sx) by (subst sx; nia).
  assert (Hstart : forall t, In t schedule ->
            0 <= x (blockIdx t) * x (blockDim cfg) + x (threadIdx t) < sx).
  { intros t Hin. apply (Permutation_in _ Hperm), thread_start in Hin.
    subst sx. lia. }
  set (n := Z.to_nat length) in *.
  set (P := fun s : list DType =>
              List.length s = List.length p /\
              forall i, (n <= i)%nat -> s !! i = p !! i).
  assert (HPbody : forall k s, 0 <= k < length -> P s ->
            P (<[Z.to_nat k := val]> s)).
  { intros k s Hk [Hl Hrest]. split; [now rewrite length_insert|].
    intros i Hi. rewrite list_lookup_insert_ne by lia. now apply Hrest. }
  assert (HPthread : forall t s, In t schedule -> P s ->
            P (_FillKernel fuel cfg t length val s)).
  { intros t s Hin Hs. apply Hstart in Hin.
    unfold _FillKernel. fold sx.
    rewrite int_small by lia. rewrite while_lt_size_eq by lia.
    apply (while_lt_invariant P) with (lo := 0); [lia|lia|lia|lia|exact HPbody|exact Hs]. }
  assert (HP : P (run_fill fuel cfg schedule length val p)).
  { unfold run_fill. apply (fold_left_invariant P); [exact HPthread|].
    split; [reflexivity|]. intros i _. reflexivity. }
  assert (HQ : forall i, (i < n)%nat ->
            run_fill fuel cfg schedule length val p !! i = Some val).
  { intros i Hi. set (c := Z.of_nat i).
    set (Q := fun s : list DType => s !! i = Some val).
    assert (HQbody : forall k s, 0 <= k < length -> P s -> Q s ->
              Q (<[Z.to_nat k := val]> s)).
    { intros k s Hk [Hl _] Hs. unfold Q.
      destruct (Nat.eq_dec (Z.to_nat k) i) as [Heq|Hne].
      - rewrite Heq. apply list_lookup_insert_eq. lia.
      - now rewrite list_lookup_insert_ne. }
    assert (Hcm : 0 <= c mod sx < sx) by (apply Z.mod_pos_bound; lia).
    set (t0 := mkThread (mkDim ((c mod sx) / x (blockDim cfg)) 0)
                        (mkDim ((c mod sx) mod x (blockDim cfg)) 0)).
    assert (Ht0 : In t0 (threads cfg)).
    { apply in_threads. subst t0. cbn.
      pose proof (Z.mod_pos_bound (c mod sx) (x (blockDim cfg)) Hbx).
      repeat split; try lia; try (apply Z.div_pos; lia).
      apply Z.div_lt_upper_bound; subst sx; lia. }
    unfold run_fill.
    apply (fold_left_reaches P Q _ schedule t0).
    - apply (Permutation_in _ (Permutation_sym Hperm)). exact Ht0.
    - exact HPthread.
    - intros t s Hin Hs HQs. apply Hstart in Hin.
      unfold _FillKernel. fold sx.
      rewrite int_small by lia. rewrite while_lt_size_eq by lia. eapply proj2.
      apply (while_lt_invariant (fun s => P s /\ Q s)) with (lo := 0);
        [lia|lia|lia|lia| |now split].
      intros k s' Hk [HPs HQs']. split; [now apply HPbody|now apply HQbody].
    - intros s Hs. unfold _FillKernel. fold sx. subst t0. cbn [blockIdx threadIdx x].
      rewrite (Z.mul_comm _ (x (blockDim cfg))), <- (Z.div_mod (c mod sx)) by lia.
      rewrite int_small by lia. rewrite while_lt_size_eq by lia.
      apply (while_lt_reaches P Q fuel (c mod sx) sx length 0 c (c / sx));
        [lia|lia|lia|lia|apply Z.div_pos; lia| |lia| |exact HPbody|exact HQbody| |exact Hs].
      + rewrite (Z.div_mod c sx) at 1 by lia. lia.
      + assert (c / sx <= c) by (apply Z.div_le_upper_bound; nia). lia.
      + intros s' [Hl _]. unfold Q. subst c. rewrite Nat2Z.id.
        apply list_lookup_insert_eq. lia.
    - split; [reflexivity|]. intros j _. reflexivity. }
  destruct HP as [Hl Hrest].
  apply list_eq. intros i. destruct (Nat.lt_ge_cases i n) as [Hi|Hi].
  - rewrite HQ by exact Hi. rewrite lookup_app_l by (rewrite length_replicate; lia).
    symmetry. now apply lookup_replicate_2.
  - rewrite Hrest by exact Hi.
    rewrite lookup_app_r by (rewrite length_replicate; lia).
    rewrite length_replicate, lookup_drop. f_equal. lia.
Qed.

End FillKernelFacts.

Lemma FillKernel_fills_prefix_witness :
  let cfg := SpMM.mkLaunch (SpMM.mkDim 2 1) (SpMM.mkDim 2 1) in
  SpMM.run_fill 5 cfg (rev (SpMM.threads cfg)) 5 7 [1; 2; 3; 4; 5; 6] =
    [7; 7; 7; 7; 7; 6].
Proof.
  cbn zeta.
  rewrite (FillKernel_fills_prefix (SpMM.mkLaunch (SpMM.mkDim 2 1) (SpMM.mkDim 2 1))).
  - reflexivity.
  - simpl. lia.
  - simpl. lia.
  - simpl. lia.
  - simpl. lia.
  - lia.
  - simpl. lia.
  - apply Permutation_sym, Permutation_rev.
  - simpl. lia.
  - simpl. lia.
Defined.

(** ** What the CSR SpMM kernel leaves alone, and its arg outputs *)

Section SpMMFrame.
Import SpMM.
Context {DType : Type} {Op : BinaryOp DType} {Red : ReduceOp DType}.
Context (UseBcast UseIdx : bool).

Lemma store_cell_frame (a : kernel_args) (ty tx : Z) (m : memory) :
  let m' := store_cell UseBcast UseIdx a ty tx m in
  length (out m') = length (out m) /\
  length (arg_u m') = length (arg_u m) /\
  length (arg_e m') = length (arg_e m) /\
  (require_arg = false -> arg_u m' = arg_u m /\ arg_e m' = arg_e m) /\
  (forall i, i <> Z.to_nat (ty * out_len a + tx) ->
     out m' !! i = out m !! i /\ arg_u m' !! i = arg_u m !! i /\
     arg_e m' !! i = arg_e m !! i).
Proof.
  unfold store_cell. destruct (accumulate UseBcast UseIdx a ty tx) as [[v u] e].
  cbn [out arg_u arg_e]. split; [apply length_insert|].
  split; [destruct (require_arg && use_lhs); [apply length_insert|reflexivity]|].
  split; [destruct (require_arg && use_rhs); [apply length_insert|reflexivity]|].
  split.
  - intros ->. now cbn [andb].
  - intros i Hi. split; [now rewrite list_lookup_insert_ne|].
    split.
    + destruct (require_arg && use_lhs); [now rewrite list_lookup_insert_ne|reflexivity].
    + destruct (require_arg && use_rhs); [now rewrite list_lookup_insert_ne|reflexivity].
Qed.

(** X7.  Whatever threads of the grid run and in whatever order, with
    [num_rows] plus the row stride and [out_len] plus the feature stride at
    most [2^31], so that the [int] counters [ty] and [tx] never wrap, the
    CSR SpMM kernel keeps the sizes of its three output arrays, writes no
    cell outside the [num_rows * out_len] cells of the output, and, for a
    reducer that requires no arg (such as sum), leaves [arg_u] and [arg_e]
    as they were. *)
Theorem SpMMCsrKernel_writes_only_its_cells (a : kernel_args) (cfg : launch)
    (schedule : list thread_id) (fuel : nat) (m : memory) :
  (forall t, In t schedule -> In t (threads cfg)) ->
  0 <= num_rows a -> 0 <= out_len a ->
  num_rows a + y (blockDim cfg) * y (gridDim cfg) <= 2 ^ 31 ->
  out_len a + x (blockDim cfg) * x (gridDim cfg) <= 2 ^ 31 ->
  let m' := run UseBcast UseIdx fuel cfg schedule a m in
  length (out m') = length (out m) /\
  length (arg_u m') = length (arg_u m) /\
  length (arg_e m') = length (arg_e m) /\
  (require_arg = false -> arg_u m' = arg_u m /\ arg_e m' = arg_e m) /\
  (forall i, (Z.to_nat (num_rows a * out_len a) <= i)%nat ->
     out m' !! i = out m !! i /\ arg_u m' !! i = arg_u m !! i /\
     arg_e m' !! i = arg_e m !! i).
Proof.
  intros Hsched Hnr Hol Hny Hnx. cbn zeta.
  set (P := fun m' : @memory DType =>
              length (out m') = length (out m) /\
              length (arg_u m') = length (arg_u m) /\
              length (arg_e m') = length (arg_e m) /\
              (require_arg = false -> arg_u m' = arg_u m /\ arg_e m' = arg_e m) /\
              (forall i, (Z.to_nat (num_rows a * out_len a) <= i)%nat ->
                 out m' !! i = out m !! i /\ arg_u m' !! i = arg_u m !! i /\
                 arg_e m' !! i = arg_e m !! i)).
  change (P (run UseBcast UseIdx fuel cfg schedule a m)).
  assert (HPcell : forall ty tx m', 0 <= ty < num_rows a -> 0 <= tx < out_len a ->
            P m' -> P (store_cell UseBcast UseIdx a ty tx m')).
  { intros ty tx m' Hty Htx (H1 & H2 & H3 & H4 & H5).
    destruct (store_cell_frame a ty tx m') as (F1 & F2 & F3 & F4 & F5).
    cbv zeta in F1, F2, F3, F4, F5.
    split; [congruence|]. split; [congruence|]. split; [congruence|]. split.
    - intros Hreq. destruct (F4 Hreq) as [-> ->]. now apply H4.
    - intros i Hi. destruct (F5 i) as (G1 & G2 & G3); [nia|].
      destruct (H5 i Hi) as (K1 & K2 & K3). split; [congruence|]. split; congruence. }
  unfold run. apply (fold_left_invariant P).
  - intros t m' Hin Hm'. apply Hsched, thread_start in Hin. unfold SpMMCsrKernel.
    rewrite !int_small by lia.
    apply (while_lt_invariant P) with (lo := 0); [lia|lia|lia|lia| |exact Hm'].
    intros ty m1 Hty Hm1.
    apply (while_lt_invariant P) with (lo := 0); [lia|lia|lia|lia| |exact Hm1].
    intros tx m2 Htx Hm2. now apply HPcell.
  - unfold P. repeat split; reflexivity.
Qed.

Local Abbreviation arg_of b m := (if b : bool then arg_u m else arg_e m).
Local Abbreviation used b := (if b : bool then use_lhs else use_rhs).
Local Abbreviation arg_value b a ty tx :=
  (if b : bool then snd (fst (accumulate UseBcast UseIdx a ty tx))
   else snd (accumulate UseBcast UseIdx a ty tx)).

Lemma store_cell_arg (b : bool) (a : kernel_args) (ty tx : Z) (m : memory) :
  arg_of b (store_cell UseBcast UseIdx a ty tx m) =
  if require_arg && used b
  then <[Z.to_nat (ty * out_len a + tx) := arg_value b a ty tx]> (arg_of b m)
  else arg_of b m.
Proof.
  unfold store_cell. destruct (accumulate UseBcast UseIdx a ty tx) as [[v u] e].
  now destruct b.
Qed.

(** After a launch in which every thread of the grid runs, an arg array
    that the kernel writes holds, in every output cell, the arg that the
    fold over the row ended with. *)
Lemma run_stores_every_arg (b : bool) (a : kernel_args) (cfg : launch)
    (schedule : list thread_id) (fuel : nat) (m : memory) (r f : Z) :
  require_arg = true -> used b = true ->
  0 < x (gridDim cfg) -> 0 < y (gridDim cfg) ->
  0 < x (blockDim cfg) -> 0 < y (blockDim cfg) ->
  num_rows a + y (blockDim cfg) * y (gridDim cfg) <= 2 ^ 31 ->
  out_len a + x (blockDim cfg) * x (gridDim cfg) <= 2 ^ 31 ->
  Permutation schedule (threads cfg) ->
  (Z.to_nat (num_rows a) <= fuel)%nat -> (Z.to_nat (out_len a) <= fuel)%nat ->
  num_rows a * out_len a <= Z.of_nat (length (arg_of b m)) ->
  0 <= r < num_rows a -> 0 <= f < out_len a ->
  arg_of b (run UseBcast UseIdx fuel cfg schedule a m) !! Z.to_nat (r * out_len a + f) =
  Some (arg_value b a r f).
Proof.
  intros Hreq Huse Hgx Hgy Hbx Hby Hny Hnx Hperm Hfr Hff Hlen Hr Hf.
  set (P := fun m' : @memory DType => length (arg_of b m') = length (arg_of b m)).
  set (Q := fun m' : @memory DType =>
              arg_of b m' !! Z.to_nat (r * out_len a + f) = Some (arg_value b a r f)).
  set (sx := x (blockDim cfg) * x (gridDim cfg)) in *.
  set (sy := y (blockDim cfg) * y (gridDim cfg)) in *.
  assert (Hsx : 1 <= sx) by (subst sx; nia).
  assert (Hsy : 1 <= sy) by (subst sy; nia).
  assert (Hstore : forall ty tx m',
            arg_of b (store_cell UseBcast UseIdx a ty tx m') =
            <[Z.to_nat (ty * out_len a + tx) := arg_value b a ty tx]> (arg_of b m')).
  { intros ty tx m'. rewrite store_cell_arg, Hreq, Huse. reflexivity. }
  assert (HPcell : forall ty tx m', P m' -> P (store_cell UseBcast UseIdx a ty tx m')).
  { intros ty tx m' Hm'. unfold P in *. now rewrite Hstore, length_insert. }
  assert (HQcell : forall ty tx m', 0 <= ty -> 0 <= tx < out_len a ->
                     Q m' -> Q (store_cell UseBcast UseIdx a ty tx m')).
  { intros ty tx m' Hty Htx Hm'. unfold Q in *. rewrite Hstore.
    destruct (Nat.eq_dec (Z.to_nat (ty * out_len a + tx)) (Z.to_nat (r * out_len a + f)))
      as [Heq|Hne].
    - destruct (cell_of_injective (out_len a) ty tx r f Hty (proj1 Hr) Htx Hf Heq)
        as [-> ->].
      apply list_lookup_insert_eq. now apply lookup_lt_Some in Hm'.
    - now rewrite list_lookup_insert_ne. }
  set (t0 := mkThread (mkDim ((f mod sx) / x (blockDim cfg)) ((r mod sy) / y (blockDim cfg)))
                      (mkDim ((f mod sx) mod x (blockDim cfg))
                             ((r mod sy) mod y (blockDim cfg)))).
  assert (Hfm : 0 <= f mod sx < sx) by (apply Z.mod_pos_bound; lia).
  assert (Hrm : 0 <= r mod sy < sy) by (apply Z.mod_pos_bound; lia).
  assert (Ht0 : In t0 (threads cfg)).
  { apply in_threads. subst t0. cbn.
    pose proof (Z.mod_pos_bound (f mod sx) (x (blockDim cfg)) Hbx).
    pose proof (Z.mod_pos_bound (r mod sy) (y (blockDim cfg)) Hby).
    repeat split; try lia; try (apply Z.div_pos; lia);
      apply Z.div_lt_upper_bound; subst sx sy; lia. }
  unfold run. eapply proj2. apply (fold_left_reaches P Q _ schedule t0).
  - apply (Permutation_in _ (Permutation_sym Hperm)). exact Ht0.
  - intros t m' Hin Hm'. apply (Permutation_in _ Hperm), thread_start in Hin.
    fold sx sy in Hin. unfold SpMMCsrKernel. fold sx sy.
    rewrite !int_small by lia.
    apply (while_lt_invariant P) with (lo := 0); [lia|lia|lia|lia| |exact Hm'].
    intros ty m1 _ Hm1.
    apply (while_lt_invariant P) with (lo := 0); [lia|lia|lia|lia| |exact Hm1].
    intros tx m2 _ Hm2. now apply HPcell.
  - intros t m' Hin Hm' HQm'. apply (Permutation_in _ Hperm), thread_start in Hin.
    fold sx sy in Hin. unfold SpMMCsrKernel. fold sx sy.
    rewrite !int_small by lia. eapply proj2.
    apply (while_lt_invariant (fun s => P s /\ Q s)) with (lo := 0);
      [lia|lia|lia|lia| |now split].
    intros ty m1 Hty [HP1 HQ1].
    apply (while_lt_invariant (fun s => P s /\ Q s)) with (lo := 0);
      [lia|lia|lia|lia| |now split].
    intros tx m2 Htx [HP2 HQ2]. split; [now apply HPcell|apply HQcell; [lia|lia|exact HQ2]].
  - intros m' Hm'. unfold SpMMCsrKernel. subst t0. cbn [blockIdx threadIdx x y].
    rewrite (Z.mul_comm _ (y (blockDim cfg))), <- (Z.div_mod (r mod sy)) by lia.
    rewrite (Z.mul_comm _ (x (blockDim cfg))), <- (Z.div_mod (f mod sx)) by lia.
    fold sx sy. rewrite !int_small by lia.
    apply (while_lt_reaches P Q) with (lo := 0) (k0 := r) (q := r / sy);
      [lia|lia|lia|lia|apply Z.div_pos; lia| |lia| | | | |exact Hm'].
    + rewrite (Z.div_mod r sy) at 1 by lia. lia.
    + assert (r / sy <= r) by (apply Z.div_le_upper_bound; nia). lia.
    + intros ty m1 _ Hm1.
      apply (while_lt_invariant P) with (lo := f mod sx); [lia|lia|lia|lia| |exact Hm1].
      intros tx m2 _ Hm2. now apply HPcell.
    + intros ty m1 Hty HP1 HQ1. eapply proj2.
      apply (while_lt_invariant (fun s => P s /\ Q s)) with (lo := 0);
        [lia|lia|lia|lia| |now split].
      intros tx m2 Htx [HP2 HQ2]. split; [now apply HPcell|apply HQcell; [lia|lia|exact HQ2]].
    + intros m1 Hm1.
      apply (while_lt_reaches P Q) with (lo := 0) (k0 := f) (q := f / sx);
        [lia|lia|lia|lia|apply Z.div_pos; lia| |lia| | | | |exact Hm1].
      * rewrite (Z.div_mod f sx) at 1 by lia. lia.
      * assert (f / sx <= f) by (apply Z.div_le_upper_bound; nia). lia.
      * intros tx m2 _ Hm2. now apply HPcell.
      * intros tx m2 Htx HP2 HQ2. apply HQcell; [lia|lia|exact HQ2].
      * intros m2 Hm2. unfold Q. rewrite Hstore. apply list_lookup_insert_eq.
        unfold P in Hm2. rewrite Hm2. nia.
  - reflexivity.
Qed.

(** X8.  For a reducer that requires args (arg-max, arg-min), after a launch
    in which every thread of a non-empty grid runs with fuel for the longest
    loop, and with [num_rows] plus the row stride and [out_len] plus the
    feature stride at most [2^31], so that the [int] counters [ty] and [tx]
    never wrap: [arg_u] holds, in every output cell, the node arg that the fold
    over the row's nonzeros ended with, when the operator uses the lhs; and
    [arg_e] the edge arg, when the operator uses the rhs. *)
Theorem SpMMCsrKernel_stores_args (a : kernel_args) (cfg : launch)
    (schedule : list thread_id) (fuel : nat) (m : memory) (ty tx : Z) :
  require_arg = true ->
  0 < x (gridDim cfg) -> 0 < y (gridDim cfg) ->
  0 < x (blockDim cfg) -> 0 < y (blockDim cfg) ->
  num_rows a + y (blockDim cfg) * y (gridDim cfg) <= 2 ^ 31 ->
  out_len a + x (blockDim cfg) * x (gridDim cfg) <= 2 ^ 31 ->
  Permutation schedule (threads cfg) ->
  (Z.to_nat (num_rows a) <= fuel)%nat -> (Z.to_nat (out_len a) <= fuel)%nat ->
  0 <= ty < num_rows a -> 0 <= tx < out_len a ->
  let m' := run UseBcast UseIdx fuel cfg schedule a m in
  let acc := fold_left (edge_step UseBcast UseIdx a tx) (row_nonzeros a ty) (zero, 0, 0) in
  (use_lhs = true -> num_rows a * out_len a <= Z.of_nat (length (arg_u m)) ->
   arg_u m' !! Z.to_nat (ty * out_len a + tx) = Some (snd (fst acc))) /\
  (use_rhs = true -> num_rows a * out_len a <= Z.of_nat (length (arg_e m)) ->
   arg_e m' !! Z.to_nat (ty * out_len a + tx) = Some (snd acc)).
Proof.
  intros Hreq Hgx Hgy Hbx Hby Hny Hnx Hperm Hfr Hff Hty Htx. cbn zeta. split.
  - intros Huse Hlen.
    exact (run_stores_every_arg true a cfg schedule fuel m ty tx Hreq Huse
             Hgx Hgy Hbx Hby Hny Hnx Hperm Hfr Hff Hlen Hty Htx).
  - intros Huse Hlen.
    exact (run_stores_every_arg false a cfg schedule fuel m ty tx Hreq Huse
             Hgx Hgy Hbx Hby Hny Hnx Hperm Hfr Hff Hlen Hty Htx).
Qed.

End SpMMFrame.

Lemma SpMMCsrKernel_writes_only_its_cells_witness :
  let cfg := SpMM.mkLaunch (SpMM.mkDim 1 2) (SpMM.mkDim 2 1) in
  let a := SpMM.mkArgs [10; 20]%float [] [0; 2; 3] [0; 1; 0] [] 2 2 3 [] [] 1 1 1 in
  let m := SpMM.mkMemory [0; 0; 5]%float [4; 4] [9] in
  let m' := SpMM.run (Op := SpMM.CopyLhs) (Red := SpMM.Sum) false false 2 cfg
                     (SpMM.threads cfg) a m in
  SpMM.arg_u m' = [4; 4] /\ SpMM.arg_e m' = [9] /\ SpMM.out m' !! 2%nat = Some 5%float.
Proof.
  cbn zeta.
  destruct (SpMMCsrKernel_writes_only_its_cells (Op := SpMM.CopyLhs) (Red := SpMM.Sum)
              false false
              (SpMM.mkArgs [10; 20]%float [] [0; 2; 3] [0; 1; 0] [] 2 2 3 [] [] 1 1 1)
              (SpMM.mkLaunch (SpMM.mkDim 1 2) (SpMM.mkDim 2 1))
              (SpMM.threads (SpMM.mkLaunch (SpMM.mkDim 1 2) (SpMM.mkDim 2 1))) 2
              (SpMM.mkMemory [0; 0; 5]%float [4; 4] [9]))
    as (_ & _ & _ & Hargs & Hout).
  - intros t Ht. exact Ht.
  - simpl. lia.
  - simpl. lia.
  - simpl. lia.
  - simpl. lia.
  - destruct (Hargs eq_refl) as [Hu He]. destruct (Hout 2%nat) as (Ho & _ & _).
    + simpl. lia.
    + split; [exact Hu|]. split; [exact He|]. exact Ho.
Defined.

Lemma SpMMCsrKernel_stores_args_witness :
  let Op := SpMM.Build_BinaryOp Z true false (fun lhs rhs => SpMM.ptr_get 0 lhs 0) in
  let Red := SpMM.Build_ReduceOp Z 0 true
               (fun acc val uid eid => if fst (fst acc) <? val then (val, uid, eid) else acc) in
  let cfg := SpMM.mkLaunch (SpMM.mkDim 1 2) (SpMM.mkDim 2 1) in
  let a := SpMM.mkArgs [10; 20] [] [0; 2; 3] [0; 1; 0] [] 2 2 3 [] [] 1 1 1 in
  SpMM.arg_u (SpMM.run (Op := Op) (Red := Red) false false 2 cfg (rev (SpMM.threads cfg)) a
                       (SpMM.mkMemory [0; 0] [7; 7] [])) !! 0%nat = Some 1.
Proof.
  cbn zeta.
  refine (proj1 (SpMMCsrKernel_stores_args
            (Op := SpMM.Build_BinaryOp Z true false (fun lhs rhs => SpMM.ptr_get 0 lhs 0))
            (Red := SpMM.Build_ReduceOp Z 0 true
               (fun acc val uid eid => if fst (fst acc) <? val then (val, uid, eid) else acc))
            false false
            (SpMM.mkArgs [10; 20] [] [0; 2; 3] [0; 1; 0] [] 2 2 3 [] [] 1 1 1)
            (SpMM.mkLaunch (SpMM.mkDim 1 2) (SpMM.mkDim 2 1))
            (rev (SpMM.threads (SpMM.mkLaunch (SpMM.mkDim 1 2) (SpMM.mkDim 2 1)))) 2
            (SpMM.mkMemory [0; 0] [7; 7] []) 0 0 eq_refl _ _ _ _ _ _ _ _ _ _ _) eq_refl _).
  - simpl. lia.
  - simpl. lia.
  - simpl. lia.
  - simpl. lia.
  - simpl. lia.
  - simpl. lia.
  - apply Permutation_sym, Permutation_rev.
  - simpl. lia.
  - simpl. lia.
  - simpl. lia.
  - simpl. lia.
  - simpl. lia.
Defined.

(** ** COO entry removal, applied twice, and by edge type *)

Section RemoveIfTwice.
Import RemoveIf.
Context {DType : Type} (dtype_ne : DType -> DType -> bool) (dfill : DType).

Lemma map_rd_seq (l : list Z) :
  map (fun i => l.[Z.of_nat i]) (seq 0 (length l)) = l.
Proof.
  transitivity (firstn (length l) l); [|apply firstn_all].
  rewrite <- (map_nth_seq 0 l (length l)) by lia.
  apply map_ext. intros i. unfold rd. now rewrite Nat2Z.id.
Qed.

Lemma filter_all {A : Type} (f : A -> bool) (l : list A) :
  (forall x, In x l -> f x = true) -> List.filter f l = l.
Proof.
  induction l as [|a l IH]; intros Hall; [reflexivity|]. simpl.
  rewrite (Hall a) by now left. f_equal. apply IH. intros x Hx. apply Hall. now right.
Qed.

(** The result of [COORemoveIf], read through the kept positions. *)
Lemma COORemoveIf_kept (coo : COOMatrix) (values : list DType) (criteria : DType) :
  COORemoveIf dtype_ne dfill coo values criteria =
  let ks := kept dtype_ne dfill coo values criteria in
  {| coo_num_rows := coo_num_rows coo;
     coo_num_cols := coo_num_cols coo;
     coo_row := map (fun i => (coo_row coo).[Z.of_nat i]) ks;
     coo_col := map (fun i => (coo_col coo).[Z.of_nat i]) ks;
     coo_data := Some (map (fun i => eid_at (coo_data coo) (Z.of_nat i)) ks) |}.
Proof.
  pose proof (fold_step_invariant dtype_ne dfill coo values criteria
                (seq 0 (length (coo_row coo)))
                {| new_row_data := replicate (length (coo_row coo)) 0;
                   new_col_data := replicate (length (coo_row coo)) 0;
                   new_eid_data := replicate (length (coo_row coo)) 0;
                   cursor := 0 |} (length (coo_row coo))) as Hinv.
  cbn [new_row_data new_col_data new_eid_data cursor] in Hinv.
  rewrite !length_replicate, length_seq in Hinv.
  destruct Hinv as (_ & _ & _ & _ & Hr & Hc & He); auto.
  unfold COORemoveIf. cbn zeta. rewrite Hr, Hc, He. reflexivity.
Qed.

(** X9.  [COORemoveIf] is idempotent: no entry that it returns has the
    criteria value, so a second pass with the same values and criteria
    returns its input. *)
Theorem COORemoveIf_idempotent (coo : COOMatrix) (values : list DType) (criteria : DType) :
  let res := COORemoveIf dtype_ne dfill coo values criteria in
  (forall i, (i < length (coo_row res))%nat ->
     dtype_ne (entry_value dfill res values i) criteria = true) /\
  COORemoveIf dtype_ne dfill res values criteria = res.
Proof.
  cbn zeta. rewrite (COORemoveIf_kept coo). cbn zeta.
  set (ks := kept dtype_ne dfill coo values criteria).
  set (res := {| coo_num_rows := coo_num_rows coo; coo_num_cols := coo_num_cols coo;
                 coo_row := _; coo_col := _; coo_data := _ |}).
  assert (Hval : forall i, (i < length (coo_row res))%nat ->
            dtype_ne (entry_value dfill res values i) criteria = true).
  { intros i Hi. subst res. cbn [coo_row] in Hi. rewrite length_map in Hi.
    unfold entry_value. cbn [coo_data eid_at].
    rewrite (rd_map _ 0%nat) by lia. unfold rd at 2. rewrite Nat2Z.id.
    assert (Hin : In (nth i ks 0%nat) ks) by now apply nth_In.
    subst ks. unfold kept in Hin. apply filter_In in Hin as [_ Hk]. exact Hk. }
  split; [exact Hval|].
  rewrite (COORemoveIf_kept res). cbn zeta.
  assert (Hks : kept dtype_ne dfill res values criteria = seq 0 (length (coo_row res))).
  { unfold kept. apply filter_all. intros i Hi. apply in_seq in Hi. apply Hval. lia. }
  rewrite Hks. subst res. cbn [coo_num_rows coo_num_cols coo_row coo_col coo_data eid_at].
  rewrite length_map.
  assert (Hread : forall l : list Z, length l = length ks ->
            map (fun i => l.[Z.of_nat i]) (seq 0 (length ks)) = l).
  { intros l <-. apply map_rd_seq. }
  rewrite !Hread by apply length_map. reflexivity.
Qed.

End RemoveIfTwice.

Section LowerBoundFacts.
Import UniqueAndCompactImpl.

Lemma lower_bound_range (l : list Z) (v : Z) :
  0 <= lower_bound l v <= Z.of_nat (length l).
Proof.
  induction l as [|s l IH]; simpl lower_bound; simpl length; [lia|].
  destruct (s <? v); lia.
Qed.

(** The elements before the found position are less than [v]. *)
Lemma lower_bound_before (l : list Z) (v i : Z) :
  0 <= i < lower_bound l v -> l.[i] < v.
Proof.
  revert i. induction l as [|s l IH]; intros i Hi; simpl lower_bound in Hi; [lia|].
  destruct (s <? v) eqn:Hs; [|lia]. apply Z.ltb_lt in Hs.
  destruct (Z.eq_dec i 0) as [->|Hne]; [exact Hs|].
  replace i with (1 + (i - 1)) by lia. rewrite rd_cons_succ by lia. apply IH. lia.
Qed.

(** The element at the found position, if there is one, is not less than
    [v]. *)
Lemma lower_bound_at (l : list Z) (v : Z) :
  lower_bound l v < Z.of_nat (length l) -> v <= l.[lower_bound l v].
Proof.
  induction l as [|s l IH]; simpl lower_bound; simpl length; [lia|].
  destruct (s <? v) eqn:Hs.
  - intros Hlt. rewrite rd_cons_succ by apply lower_bound_range. apply IH. lia.
  - intros _. apply Z.ltb_ge in Hs. exact Hs.
Qed.

Lemma sorted_rd_le (l : list Z) (i j : Z) :
  StronglySorted Z.le l -> 0 <= i <= j -> j < Z.of_nat (length l) -> l.[i] <= l.[j].
Proof.
  intros Hs. revert i j. induction Hs as [|a l Hs IH Hall]; intros i j Hij Hj.
  - simpl in Hj. lia.
  - simpl length in Hj. destruct (Z.eq_dec j 0) as [->|Hj0].
    + assert (i = 0) by lia. subst. lia.
    + replace j with (1 + (j - 1)) by lia. rewrite (rd_cons_succ a l (j - 1)) by lia.
      destruct (Z.eq_dec i 0) as [->|Hi0].
      * change ((a :: l).[0]) with a. rewrite List.Forall_forall in Hall.
        apply Hall. apply rd_In. lia.
      * replace i with (1 + (i - 1)) by lia. rewrite (rd_cons_succ a l (i - 1)) by lia.
        apply IH; lia.
Qed.

(** On a sorted range that holds [v], the found position holds [v]. *)
Lemma lower_bound_finds (l : list Z) (v : Z) :
  StronglySorted Z.le l -> In v l ->
  0 <= lower_bound l v < Z.of_nat (length l) /\ l.[lower_bound l v] = v.
Proof.
  intros Hs Hin. destruct (In_rd 0 l v Hin) as (k & Hk & Hkv).
  pose proof (lower_bound_range l v) as Hr.
  assert (Hle : lower_bound l v <= k).
  { destruct (Z_le_gt_dec (lower_bound l v) k) as [H|H]; [exact H|].
    pose proof (lower_bound_before l v k ltac:(lia)). lia. }
  split; [lia|].
  pose proof (lower_bound_at l v ltac:(lia)).
  pose proof (sorted_rd_le l (lower_bound l v) k Hs ltac:(lia) ltac:(lia)). lia.
Qed.

End LowerBoundFacts.

Section EtypeRemoveIfFacts.
Import RemoveIf EtypeRemoveIf UniqueAndCompactImpl.
Context {DType : Type} (dtype_ne : DType -> DType -> bool) (bits : Z).
Variables (coo : COOMatrix) (etype_offset : list Z) (val : list (option (list DType))).
Variable criteria : DType.

Local Abbreviation etest :=
  (EtypeRemoveIf.test dtype_ne bits coo etype_offset val criteria).
Local Abbreviation eloop :=
  (EtypeRemoveIf.loop dtype_ne bits coo etype_offset val criteria).
Local Abbreviation estep :=
  (EtypeRemoveIf.step dtype_ne bits coo etype_offset val criteria).

Lemma to_IdType_small (x : Z) :
  1 <= bits -> - 2 ^ (bits - 1) <= x < 2 ^ (bits - 1) -> to_IdType bits x = x.
Proof.
  intros Hb Hx. unfold to_IdType.
  assert (H2 : 2 ^ bits = 2 * 2 ^ (bits - 1)).
  { rewrite <- Z.pow_succ_r by lia. f_equal. lia. }
  rewrite Z.mod_small; lia.
Qed.
Local Abbreviation ekeep := (fun i => bool_decide (etest i = Some true)).

Lemma at_index_rd {A : Type} (d : A) (a : list A) (i : Z) (v : A) :
  at_index a i = Some v -> 0 <= i < Z.of_nat (length a) /\ rd d a i = v.
Proof.
  unfold at_index, rd. destruct (i <? 0) eqn:Hi; [discriminate|].
  apply Z.ltb_ge in Hi. intros Hv. pose proof (lookup_lt_Some _ _ _ Hv).
  split; [lia|]. now apply nth_lookup_Some.
Qed.

Lemma at_index_inside {A : Type} (d : A) (a : list A) (i : Z) :
  0 <= i < Z.of_nat (length a) -> at_index a i = Some (rd d a i).
Proof.
  intros Hi. unfold at_index, rd.
  replace (i <? 0) with false by (symmetry; apply Z.ltb_ge; lia).
  destruct (lookup_lt_is_Some_2 a (Z.to_nat i)) as [v Hv]; [lia|].
  rewrite Hv. f_equal. symmetry. now apply nth_lookup_Some.
Qed.

Lemma at_index_outside {A : Type} (a : list A) (i : Z) :
  i < 0 \/ Z.of_nat (length a) <= i -> at_index a i = None.
Proof.
  intros Hi. unfold at_index. destruct (i <? 0) eqn:Hlt; [reflexivity|].
  apply Z.ltb_ge in Hlt. apply lookup_ge_None. lia.
Qed.

Lemma read_eid_at (i : Z) (e : Z) :
  1 <= bits -> 0 <= i < 2 ^ (bits - 1) ->
  read_eid bits (coo_data coo) i = Some e -> eid_at (coo_data coo) i = e.
Proof.
  intros Hb Hi. unfold read_eid, eid_at. destruct (coo_data coo) as [d|].
  - intros H. now apply (at_index_rd 0) in H.
  - rewrite to_IdType_small by lia. congruence.
Qed.

(** The loop has no defined result as soon as the test of one entry has
    none. *)
Lemma loop_fails (is_ : list nat) (b : buffers) :
  (exists i, In i is_ /\ etest i = None) -> eloop is_ b = None.
Proof.
  revert b. induction is_ as [|i is_ IH]; intros b (k & Hin & Hk); [contradiction|].
  cbn [loop]. destruct Hin as [->|Hin].
  - unfold step. unfold test in Hk.
    destruct (read_eid bits (coo_data coo) (Z.of_nat k)); [|reflexivity]. now rewrite Hk.
  - destruct (estep b i); [|reflexivity]. apply IH. now exists k.
Qed.

Lemma loop_returns (is_ : list nat) (b : buffers) (n : nat) :
  1 <= bits -> Z.of_nat (length (coo_row coo)) <= 2 ^ (bits - 1) ->
  length (coo_col coo) = length (coo_row coo) ->
  (forall i, In i is_ -> (i < length (coo_row coo))%nat /\ etest i <> None) ->
  length (new_row_data b) = n -> length (new_col_data b) = n ->
  length (new_eid_data b) = n ->
  (cursor b + length is_ <= n)%nat ->
  exists b', eloop is_ b = Some b' /\
  let ks := List.filter ekeep is_ in
  cursor b' = (cursor b + length ks)%nat /\
  length (new_row_data b') = n /\ length (new_col_data b') = n /\
  length (new_eid_data b') = n /\
  take (cursor b') (new_row_data b') =
    take (cursor b) (new_row_data b) ++ map (fun i => (coo_row coo).[Z.of_nat i]) ks /\
  take (cursor b') (new_col_data b') =
    take (cursor b) (new_col_data b) ++ map (fun i => (coo_col coo).[Z.of_nat i]) ks /\
  take (cursor b') (new_eid_data b') =
    take (cursor b) (new_eid_data b) ++
    map (fun i => eid_at (coo_data coo) (Z.of_nat i)) ks.
Proof.
  intros Hbits Hfit Hcol. revert b.
  induction is_ as [|i is_ IH]; intros b Hin Hr Hc He Hn; cbn zeta.
  - exists b. simpl. rewrite !app_nil_r. repeat split; auto; lia.
  - simpl in Hn. destruct (Hin i (or_introl eq_refl)) as [Hi Hti].
    assert (Hrest : forall k, In k is_ -> (k < length (coo_row coo))%nat /\ etest k <> None).
    { intros k Hk. apply Hin. now right. }
    cbn [loop List.filter].
    assert (Hcase : exists e k, read_eid bits (coo_data coo) (Z.of_nat i) = Some e /\
                      passes dtype_ne bits etype_offset val criteria e = Some k /\
                      etest i = Some k).
    { unfold test in Hti |- *.
      destruct (read_eid bits (coo_data coo) (Z.of_nat i)) as [e|]; [|congruence].
      destruct (passes dtype_ne bits etype_offset val criteria e) as [k|] eqn:Hp;
        [|congruence].
      now exists e, k. }
    destruct Hcase as (e & k & He0 & Hp & Ht). unfold step. rewrite He0, Hp.
    apply read_eid_at in He0; [|lia|lia]. destruct k.
    + rewrite (at_index_inside 0 (coo_row coo)) by lia.
      rewrite (at_index_inside 0 (coo_col coo)) by lia.
      rewrite bool_decide_true by exact Ht.
      match goal with |- context [loop _ _ _ _ _ _ _ ?b1] => set (b1' := b1) end.
      destruct (IH b1' Hrest) as (b' & Hb' & IH1 & IH2 & IH3 & IH4 & IH5 & IH6 & IH7);
        try (subst b1'; cbn [cursor new_row_data new_col_data new_eid_data];
             rewrite ?length_insert; auto; lia).
      exists b'. split; [exact Hb'|].
      rewrite IH5, IH6, IH7, IH1. subst b1'.
      cbn [cursor new_row_data new_col_data new_eid_data length map].
      rewrite !take_S_insert by lia. rewrite <- !app_assoc. rewrite He0.
      repeat split; auto; lia.
    + rewrite bool_decide_false by congruence.
      apply IH; auto; lia.
Qed.

Lemma filter_sublist {A : Type} (f : A -> bool) (l : list A) :
  sublist (List.filter f l) l.
Proof.
  induction l as [|a l IH]; simpl; [constructor|].
  destruct (f a); now constructor.
Qed.

Lemma combine_map_pair {A : Type} (f g : A -> Z) (l : list A) :
  combine (map f l) (map g l) = map (fun a => (f a, g a)) l.
Proof. induction l as [|a l IH]; [reflexivity|]. simpl. now rewrite IH. Qed.

Lemma combine_rd_seq (r c : list Z) :
  length c = length r ->
  combine r c = map (fun i => (r.[Z.of_nat i], c.[Z.of_nat i])) (seq 0 (length r)).
Proof.
  intros Hlen.
  rewrite <- (combine_map_pair (fun i => r.[Z.of_nat i]) (fun i => c.[Z.of_nat i])).
  rewrite map_rd_seq. rewrite <- Hlen. now rewrite map_rd_seq.
Qed.

End EtypeRemoveIfFacts.

Section EtypeRemoveIfClaims.
Import RemoveIf EtypeRemoveIf UniqueAndCompactImpl.
Context {DType : Type} (dtype_ne : DType -> DType -> bool) (bits : Z).

(** X10.  [COOEtypeRemoveIf] on a matrix whose row and column arrays have
    one length, with positions that fit [IdType], over sorted offsets and a
    vector [val] that could be built.
    If the test of some entry reads outside an array (the edge data, the
    offsets, [val] or the selected value array), the call has no defined
    result.  Otherwise it returns: it keeps [num_rows] and [num_cols] and
    holds, in their order, the entries that pass the test of the loop (the
    value array selected for the entry is null, or its value at the entry's
    local id differs from the criteria), with the homogenized edge ids of
    these entries as explicit data; the result is a subsequence of the
    input entries. *)
Theorem COOEtypeRemoveIf_keeps_passing_entries (coo : COOMatrix)
    (etype_offset : list Z) (values val : list (option (list DType)))
    (criteria : DType) :
  1 <= bits -> Z.of_nat (length (coo_row coo)) <= 2 ^ (bits - 1) ->
  length (coo_col coo) = length (coo_row coo) ->
  StronglySorted Z.le etype_offset ->
  value_pointers etype_offset values = Some val ->
  let nnz := length (coo_row coo) in
  let test := test dtype_ne bits coo etype_offset val criteria in
  let ks := List.filter (fun i => bool_decide (test i = Some true)) (seq 0 nnz) in
  ((exists i, (i < nnz)%nat /\ test i = None) ->
   COOEtypeRemoveIf dtype_ne bits coo etype_offset values criteria = None) /\
  ((forall i, (i < nnz)%nat -> test i <> None) ->
   exists res,
     COOEtypeRemoveIf dtype_ne bits coo etype_offset values criteria = Some res /\
     coo_num_rows res = coo_num_rows coo /\
     coo_num_cols res = coo_num_cols coo /\
     coo_row res = map (fun i => (coo_row coo).[Z.of_nat i]) ks /\
     coo_col res = map (fun i => (coo_col coo).[Z.of_nat i]) ks /\
     coo_data res = Some (map (fun i => eid_at (coo_data coo) (Z.of_nat i)) ks) /\
     sublist (entries res) (entries coo)).
Proof.
  intros Hbits Hfit Hlen _ Hval. cbn zeta. unfold COOEtypeRemoveIf. rewrite Hval. split.
  - intros (i & Hi & Hti).
    rewrite (loop_fails dtype_ne bits coo etype_offset val criteria); [reflexivity|].
    exists i. split; [|exact Hti]. apply in_seq. lia.
  - intros Hdef.
    destruct (loop_returns dtype_ne bits coo etype_offset val criteria
                (seq 0 (length (coo_row coo)))
                {| new_row_data := replicate (length (coo_row coo)) 0;
                   new_col_data := replicate (length (coo_row coo)) 0;
                   new_eid_data := replicate (length (coo_row coo)) 0;
                   cursor := 0 |} (length (coo_row coo)) Hbits Hfit Hlen)
      as (b' & Hb' & _ & _ & _ & _ & Hr & Hc & He).
    + intros i Hi. apply in_seq in Hi. split; [lia|]. apply Hdef. lia.
    + apply length_replicate.
    + apply length_replicate.
    + apply length_replicate.
    + cbn [cursor]. rewrite length_seq. lia.
    + cbn [new_row_data new_col_data new_eid_data cursor] in Hr, Hc, He.
      rewrite !take_0 in Hr, Hc, He. cbn [app] in Hr, Hc, He.
      rewrite Hb'. eexists. split; [reflexivity|].
      cbn [coo_num_rows coo_num_cols coo_row coo_col coo_data].
      rewrite Hr, Hc, He.
      split; [reflexivity|]. split; [reflexivity|]. split; [reflexivity|].
      split; [reflexivity|]. split; [reflexivity|].
      unfold entries. cbn [coo_row coo_col].
      rewrite combine_map_pair, (combine_rd_seq _ _ Hlen).
      apply (fmap_sublist
               (fun i => ((coo_row coo).[Z.of_nat i], (coo_col coo).[Z.of_nat i]))).
      apply filter_sublist.
Qed.

(** X11.  Which value [COOEtypeRemoveIf] consults for an edge id, over
    strictly increasing offsets, when the position and the local id fit
    [IdType]: the edge type is the position [t] of the
    first offset that is not less than the id.  The test reads [val[t]],
    outside the vector when [t] is its size; for a null pointer the entry
    passes.  Otherwise an id that is the offset of type [t] is looked up at
    local id 0 of the value array of type [t]; an id strictly between the
    offsets of types [t - 1] and [t] is looked up in that array too, at the
    local id [eid - etype_offset[t]], which is negative: a read before the
    array, with no defined result. *)
Theorem COOEtypeRemoveIf_consults_lower_bound (etype_offset : list Z)
    (val : list (option (list DType))) (criteria : DType) (t eid : Z) :
  1 <= bits -> t < 2 ^ (bits - 1) ->
  - 2 ^ (bits - 1) <= eid - etype_offset.[t] ->
  StronglySorted Z.lt etype_offset ->
  0 <= t < Z.of_nat (length etype_offset) ->
  (t = 0 \/ etype_offset.[t - 1] < eid) -> eid <= etype_offset.[t] ->
  lower_bound etype_offset eid = t /\
  passes dtype_ne bits etype_offset val criteria eid =
    match at_index val t with
    | None => None
    | Some None => Some true
    | Some (Some v) =>
        if eid <? etype_offset.[t] then None
        else match v with
             | [] => None
             | x :: _ => Some (dtype_ne x criteria)
             end
    end.
Proof.
  intros Hbits Htfit Hdfit Hs Ht Hlow Hup.
  assert (Hpow : 0 < 2 ^ (bits - 1)) by (apply Z.pow_pos_nonneg; lia).
  assert (Hle : StronglySorted Z.le etype_offset).
  { clear -Hs. induction Hs as [|a l Hs IH Hall]; constructor; [exact IH|].
    eapply List.Forall_impl; [|exact Hall]. intros; lia. }
  assert (Hlb : lower_bound etype_offset eid = t).
  { pose proof (lower_bound_range etype_offset eid) as Hr.
    destruct (Z.lt_trichotomy (lower_bound etype_offset eid) t) as [Hlt|[Heq|Hgt]];
      [|exact Heq|].
    - exfalso. pose proof (lower_bound_at etype_offset eid ltac:(lia)) as Hat.
      destruct Hlow as [->|Hlow]; [lia|].
      pose proof (sorted_rd_le etype_offset (lower_bound etype_offset eid) (t - 1) Hle
                    ltac:(lia) ltac:(lia)). lia.
    - exfalso. pose proof (lower_bound_before etype_offset eid t ltac:(lia)). lia. }
  split; [exact Hlb|]. unfold passes. cbn zeta. rewrite Hlb.
  rewrite (to_IdType_small bits t) by lia.
  rewrite (at_index_inside 0 etype_offset) by lia.
  destruct (at_index val t) as [[v|]|]; [|reflexivity|reflexivity].
  rewrite (to_IdType_small bits (eid - etype_offset.[t])) by lia.
  destruct (eid <? etype_offset.[t]) eqn:Hlt.
  - apply Z.ltb_lt in Hlt. now rewrite at_index_outside by lia.
  - apply Z.ltb_ge in Hlt. replace (eid - etype_offset.[t]) with 0 by lia.
    now destruct v.
Qed.

End EtypeRemoveIfClaims.

Lemma COOEtypeRemoveIf_keeps_passing_entries_witness :
  let ne := fun a b : Z => negb (a =? b) in
  let coo := mkCOO 3 3 [0; 1; 2] [1; 2; 0] (Some [0; 3; 2]) in
  exists res,
    EtypeRemoveIf.COOEtypeRemoveIf ne 32 coo [0; 3; 5] [Some [1; 7]; None] 1 = Some res /\
    coo_row res = [1; 2] /\ coo_col res = [2; 0] /\ coo_data res = Some [3; 2].
Proof.
  cbn zeta.
  destruct (proj2 (COOEtypeRemoveIf_keeps_passing_entries (fun a b : Z => negb (a =? b)) 32
              (mkCOO 3 3 [0; 1; 2] [1; 2; 0] (Some [0; 3; 2])) [0; 3; 5]
              [Some [1; 7]; None] [Some [1; 7]; None] 1
              ltac:(lia) ltac:(simpl; lia)
              eq_refl ltac:(repeat constructor; lia) eq_refl))
    as (res & Hres & _ & _ & Hr & Hc & Hd & _).
  - intros i Hi. destruct i as [|[|[|i]]]; [discriminate|discriminate|discriminate|].
    simpl in Hi. lia.
  - exists res. split; [exact Hres|]. split; [exact Hr|]. split; [exact Hc|exact Hd].
Defined.

Lemma COOEtypeRemoveIf_consults_lower_bound_witness :
  let ne := fun a b : Z => negb (a =? b) in
  UniqueAndCompactImpl.lower_bound [0; 3; 5] 4 = 2 /\
  EtypeRemoveIf.passes ne 32 [0; 3; 5] [Some [1; 1; 1]; Some [1; 1]; Some [1]] 1 4 = None.
Proof.
  cbn zeta.
  destruct (COOEtypeRemoveIf_consults_lower_bound (fun a b : Z => negb (a =? b)) 32
              [0; 3; 5] [Some [1; 1; 1]; Some [1; 1]; Some [1]] 1 2 4) as (H1 & H2).
  - lia.
  - simpl. lia.
  - unfold rd. simpl. lia.
  - repeat constructor; lia.
  - simpl. lia.
  - right. unfold rd. simpl. lia.
  - unfold rd. simpl. lia.
  - split; [exact H1|]. rewrite H2. reflexivity.
Defined.

(** ** Unique and compact: the compacted universe and the new ids *)

Section UniqueAndCompactMore.
Import StdSort UniqueAndCompactImpl.

Lemma StronglySorted_impl_in {A : Type} (R R' : A -> A -> Prop) (l : list A) :
  (forall a b, In a l -> In b l -> R a b -> R' a b) ->
  StronglySorted R l -> StronglySorted R' l.
Proof.
  intros Himp Hs. induction Hs as [|a l Hs IH Hall]; constructor.
  - apply IH. intros x y Hx Hy. apply Himp; now right.
  - rewrite List.Forall_forall in Hall |- *. intros x Hx.
    apply Himp; [now left|now right|now apply Hall].
Qed.

Lemma radix_order_strict_weak (key : Z -> Z) (l : list Z) :
  strict_weak (fun a b => key a <? key b) l.
Proof.
  split.
  - intros a b _ _ H. apply Z.ltb_lt in H. apply Z.ltb_ge. lia.
  - intros a b c _ _ _ H1 H2. apply Z.ltb_ge in H1, H2. apply Z.ltb_ge. lia.
Qed.

(** The radix sort on enough bits sorts. *)
Lemma Sort_values_sorts (l : list Z) (num_bits : Z) :
  (forall v, In v l -> radix_key num_bits v = v) ->
  Permutation (Sort_values l num_bits) l /\
  StronglySorted Z.le (Sort_values l num_bits).
Proof.
  intros Hkey. unfold Sort_values. split; [apply stable_sort_perm|].
  pose proof (stable_sort_sorted _ l (radix_order_strict_weak (radix_key num_bits) l)) as Hs.
  unfold sorted_by in Hs. eapply StronglySorted_impl_in; [|exact Hs].
  cbn beta. intros a b Ha Hb Hab. apply Z.ltb_ge in Hab.
  apply (Permutation_in _ (stable_sort_perm _ l)) in Ha, Hb.
  now rewrite !Hkey in Hab.
Qed.

(** The sort with the permutation: the sorted values, and for each of them
    its position in the input. *)
Lemma Sort_sorts (l : list Z) (num_bits : Z) :
  (forall v, In v l -> radix_key num_bits v = v) ->
  let sorted_order := fst (Sort l num_bits) in
  let new_ids := snd (Sort l num_bits) in
  length sorted_order = length l /\
  StronglySorted Z.le sorted_order /\
  (forall v, In v sorted_order <-> In v l) /\
  (forall loc, 0 <= loc < Z.of_nat (length l) ->
     0 <= new_ids.[loc] < Z.of_nat (length l) /\
     l.[new_ids.[loc]] = sorted_order.[loc]).
Proof.
  intros Hkey. unfold Sort. cbn [fst snd].
  set (cmp := fun i j => radix_key num_bits l.[i] <? radix_key num_bits l.[j]).
  set (order := stable_sort cmp (iota 0 (length l))).
  assert (Hperm : Permutation order (iota 0 (length l))) by apply stable_sort_perm.
  assert (Hrange : forall i, In i order <-> 0 <= i < Z.of_nat (length l)).
  { intros i. rewrite <- (in_iota 0 (length l) i). split; apply Permutation_in;
      [exact Hperm|now symmetry]. }
  assert (Hlen : length order = length l).
  { rewrite (Permutation_length Hperm). apply iota_length. }
  split; [now rewrite length_map|]. split; [|split].
  - pose proof (stable_sort_sorted cmp (iota 0 (length l))
                  (radix_order_strict_weak (fun i => radix_key num_bits l.[i]) _)) as Hs.
    fold order in Hs. unfold sorted_by in Hs.
    assert (Hgen : forall o, (forall i, In i o -> 0 <= i < Z.of_nat (length l)) ->
              StronglySorted (fun a b => cmp b a = false) o ->
              StronglySorted Z.le (map (fun i => l.[i]) o)).
    { intros o Hin Ho. induction Ho as [|i o Ho IH Hall]; simpl; constructor.
      - apply IH. intros j Hj. apply Hin. now right.
      - rewrite List.Forall_forall in Hall |- *. intros v Hv.
        apply in_map_iff in Hv as (j & <- & Hj). specialize (Hall j Hj).
        apply Z.ltb_ge in Hall.
        rewrite !Hkey in Hall; [exact Hall| |]; apply rd_In, Hin;
          [now right|now left]. }
    apply Hgen; [|exact Hs]. intros i Hi. now apply Hrange.
  - intros v. rewrite in_map_iff. split.
    + intros (i & <- & Hi). apply rd_In. now apply Hrange.
    + intros Hv. destruct (In_rd 0 l v Hv) as (i & Hi & <-).
      exists i. split; [reflexivity|]. now apply Hrange.
  - intros loc Hloc. split.
    + apply Hrange. apply rd_In. lia.
    + rewrite (rd_map _ 0) by lia. reflexivity.
Qed.

Lemma binary_search_In (sorted : list Z) (v : Z) :
  StronglySorted Z.le sorted -> binary_search sorted v = true <-> In v sorted.
Proof.
  intros Hs. unfold binary_search. rewrite andb_true_iff, Z.ltb_lt, Z.eqb_eq. split.
  - intros [Hlt <-]. apply rd_In. pose proof (lower_bound_range sorted v). lia.
  - intros Hin. destruct (lower_bound_finds sorted v Hs Hin). split; [lia|assumption].
Qed.

Lemma filter_marked (f : Z -> bool) (l : list Z) :
  map fst (List.filter (fun p => negb (snd p)) (combine l (map f l))) =
  List.filter (fun v => negb (f v)) l.
Proof.
  induction l as [|a l IH]; [reflexivity|]. simpl. destruct (f a); simpl; now rewrite IH.
Qed.

Lemma run_length_unique_In (l : list Z) (v : Z) :
  In v (run_length_unique l) <-> In v l.
Proof.
  induction l as [|a l IH]; [reflexivity|].
  cbn [run_length_unique]. destruct l as [|b l]; [reflexivity|].
  destruct (a =? b) eqn:Hab.
  - apply Z.eqb_eq in Hab. subst b. rewrite IH. simpl. tauto.
  - cbn [In]. rewrite IH. reflexivity.
Qed.

Lemma run_length_unique_sorted (l : list Z) :
  StronglySorted Z.le l -> StronglySorted Z.lt (run_length_unique l).
Proof.
  induction l as [|a l IH]; intros Hs; [constructor|].
  apply StronglySorted_inv in Hs as [Hs Ha].
  cbn [run_length_unique]. destruct l as [|b l]; [repeat constructor|].
  destruct (a =? b) eqn:Hab; [now apply IH|].
  apply Z.eqb_neq in Hab. constructor; [now apply IH|].
  rewrite List.Forall_forall in Ha |- *. intros v Hv.
  apply (proj1 (run_length_unique_In _ _)) in Hv.
  pose proof (Ha b (or_introl eq_refl)).
  apply StronglySorted_inv in Hs as [_ Hb]. rewrite List.Forall_forall in Hb.
  destruct Hv as [<-|Hv]; [lia|]. specialize (Hb v Hv). lia.
Qed.

Lemma in_combine_map (f : Z -> Z) (l : list Z) (p : Z * Z) :
  In p (combine (map f l) l) <-> exists d, In d l /\ p = (f d, d).
Proof.
  induction l as [|a l IH]; simpl.
  - split; [tauto|]. now intros (d & [] & _).
  - rewrite IH. split.
    + intros [<-|(d & Hd & ->)]; [exists a|exists d]; auto.
    + intros (d & [->|Hd] & ->); [now left|right; now exists d].
Qed.

Lemma radix_key_small (num_bits id : Z) :
  0 <= num_bits -> 0 <= id < 2 ^ num_bits -> radix_key num_bits id = id.
Proof.
  intros Hb Hid. unfold radix_key.
  replace (2 ^ num_bits - 1) with (Z.ones num_bits) by (rewrite Z.ones_equiv; lia).
  rewrite Z.land_ones by lia. apply Z.mod_small. lia.
Qed.

Lemma fold_left_max_bounds (l : list Z) (a u : Z) :
  a <= fold_left Z.max l a /\
  (forall v, In v l -> v <= fold_left Z.max l a) /\
  (a <= u -> (forall v, In v l -> v <= u) -> fold_left Z.max l a <= u).
Proof.
  revert a. induction l as [|x l IH]; intros a; simpl.
  - split; [lia|]. split; [tauto|]. intros; lia.
  - destruct (IH (Z.max a x)) as (H1 & H2 & H3). split; [lia|]. split.
    + intros v [<-|Hv]; [lia|now apply H2].
    + intros Ha Hall. apply H3; [|intros v Hv; apply Hall; now right].
      pose proof (Hall x (or_introl eq_refl)). lia.
Qed.

Lemma fold_right_max_bounds (l : list Z) (a u : Z) :
  a <= fold_right Z.max a l /\
  (forall v, In v l -> v <= fold_right Z.max a l) /\
  (a <= u -> (forall v, In v l -> v <= u) -> fold_right Z.max a l <= u).
Proof.
  induction l as [|x l (H1 & H2 & H3)]; simpl.
  - split; [lia|]. split; [tauto|]. intros; lia.
  - split; [lia|]. split.
    + intros v [<-|Hv]; [lia|]. specialize (H2 v Hv). lia.
    + intros Ha Hall. pose proof (Hall x (or_introl eq_refl)).
      assert (fold_right Z.max a l <= u) by (apply H3; [exact Ha|]; intros v Hv; apply Hall; now right).
      lia.
Qed.

(** The number of bits that the sorts of [UniqueAndCompact] run on covers
    every id that is sorted. *)
Lemma sort_bits_cover (src_ids unique_dst_ids : list Z) (num_bits : Z) :
  (forall id, In id src_ids \/ In id unique_dst_ids -> 0 <= id < 2 ^ 63 - 1) ->
  ((num_bits <=? 0) || (64 <? num_bits) = false ->
   forall id, In id src_ids \/ In id unique_dst_ids -> id < 2 ^ num_bits) ->
  let b :=
    if (num_bits <=? 0) || (64 <? num_bits) then
      NumberOfBits (Z.max (fold_right Z.max (- 2 ^ 63) src_ids)
                          (fold_left Z.max unique_dst_ids 0) + 1)
    else num_bits in
  forall id, In id src_ids \/ In id unique_dst_ids -> radix_key b id = id.
Proof.
  intros Hids Hgiven. cbn zeta.
  destruct ((num_bits <=? 0) || (64 <? num_bits)) eqn:Hguard.
  - destruct (fold_right_max_bounds src_ids (- 2 ^ 63) (2 ^ 63 - 2)) as (S1 & S2 & S3).
    destruct (fold_left_max_bounds unique_dst_ids 0 (2 ^ 63 - 2)) as (D1 & D2 & D3).
    set (ms := fold_right Z.max (- 2 ^ 63) src_ids) in *.
    set (md := fold_left Z.max unique_dst_ids 0) in *.
    assert (Hms : ms <= 2 ^ 63 - 2).
    { apply S3; [lia|]. intros v Hv. specialize (Hids v (or_introl Hv)). lia. }
    assert (Hmd : md <= 2 ^ 63 - 2).
    { apply D3; [lia|]. intros v Hv. specialize (Hids v (or_intror Hv)). lia. }
    intros id Hid.
    assert (Hle : 0 <= id <= Z.max ms md).
    { pose proof (Hids id Hid) as Hr0.
      destruct Hid as [Hin|Hin]; [specialize (S2 id Hin)|specialize (D2 id Hin)]; lia. }
    unfold NumberOfBits. destruct (Z.max ms md + 1 <=? 1) eqn:Hr.
    + apply Z.leb_le in Hr. assert (id = 0) by lia. subst id. reflexivity.
    + apply Z.leb_gt in Hr. rewrite Z.mod_small by lia.
      destruct (bits_loop_spec 64 1 (Z.max ms md + 1)) as [Hb Hp];
        [lia|simpl; lia|simpl; lia|].
      apply radix_key_small; lia.
  - apply orb_false_iff in Hguard as [H1 H2]. apply Z.leb_gt in H1.
    intros id Hid. apply radix_key_small; [lia|].
    split; [apply (Hids id Hid)|now apply Hgiven].
Qed.

(** X12.  For ids of [[0, 2^63 - 1)] (below [2^num_bits] when the caller
    gives the number of bits) and destination ids that all occur in
    [unique_dst_ids] or in [src_ids], [UniqueAndCompact] returns.  The
    compacted universe is [unique_dst_ids] followed by the source ids that do
    not occur in it, each once and in ascending order; the new source and
    destination ids are positions in the universe, and the universe at the
    new id of an element is the element's original id. *)
Theorem UniqueAndCompact_new_ids_map_back (junk : Z)
    (src_ids dst_ids unique_dst_ids : list Z) (num_bits : Z) :
  (forall id, In id src_ids \/ In id unique_dst_ids -> 0 <= id < 2 ^ 63 - 1) ->
  ((num_bits <=? 0) || (64 <? num_bits) = false ->
   forall id, In id src_ids \/ In id unique_dst_ids -> id < 2 ^ num_bits) ->
  (forall id, In id dst_ids -> In id unique_dst_ids \/ In id src_ids) ->
  exists only_src new_src_ids new_dst_ids,
    UniqueAndCompact junk src_ids dst_ids unique_dst_ids num_bits =
      Ok (unique_dst_ids ++ only_src, new_src_ids, new_dst_ids) /\
    StronglySorted Z.lt only_src /\
    (forall id, In id only_src <-> In id src_ids /\ ~ In id unique_dst_ids) /\
    length new_src_ids = length src_ids /\
    length new_dst_ids = length dst_ids /\
    (forall i, 0 <= i < Z.of_nat (length src_ids) ->
       0 <= new_src_ids.[i] < Z.of_nat (length (unique_dst_ids ++ only_src)) /\
       (unique_dst_ids ++ only_src).[new_src_ids.[i]] = src_ids.[i]) /\
    (forall i, 0 <= i < Z.of_nat (length dst_ids) ->
       0 <= new_dst_ids.[i] < Z.of_nat (length (unique_dst_ids ++ only_src)) /\
       (unique_dst_ids ++ only_src).[new_dst_ids.[i]] = dst_ids.[i]).
Proof.
  intros Hids Hgiven Hdst.
  pose proof (sort_bits_cover src_ids unique_dst_ids num_bits Hids Hgiven) as Hkey.
  cbn zeta in Hkey. unfold UniqueAndCompact.
  set (b := if (num_bits <=? 0) || (64 <? num_bits) then _ else num_bits) in *.
  rewrite filter_marked.
  destruct (Sort_values_sorts unique_dst_ids b) as [Hdperm Hdsorted];
    [intros v Hv; apply Hkey; now right|].
  set (sdst := Sort_values unique_dst_ids b) in *.
  set (only := List.filter (fun v => negb (binary_search sdst v)) src_ids).
  assert (Honly : forall id, In id only <-> In id src_ids /\ ~ In id unique_dst_ids).
  { intros id. subst only. rewrite filter_In, negb_true_iff.
    rewrite <- (not_true_iff_false (binary_search sdst id)).
    rewrite (binary_search_In sdst id Hdsorted). split; intros [H1 H2]; (split; [exact H1|]);
      intros Hin; apply H2.
    - now apply (Permutation_in _ (Permutation_sym Hdperm)).
    - now apply (Permutation_in _ Hdperm). }
  destruct (Sort_values_sorts only b) as [Hoperm Hosorted];
    [intros v Hv; apply Hkey; left; now apply Honly|].
  set (uniq := run_length_unique (Sort_values only b)).
  assert (Huniq : forall id, In id uniq <-> In id src_ids /\ ~ In id unique_dst_ids).
  { intros id. subst uniq. rewrite run_length_unique_In, <- Honly. split.
    - apply Permutation_in. exact Hoperm.
    - apply Permutation_in. now symmetry. }
  set (real_order := unique_dst_ids ++ uniq).
  assert (Hreal : forall id, In id real_order <-> In id unique_dst_ids \/ In id src_ids).
  { intros id. subst real_order. rewrite in_app_iff, Huniq.
    destruct (in_dec Z.eq_dec id unique_dst_ids); tauto. }
  destruct (Sort_sorts real_order b) as (Hslen & Hssorted & Hsin & Hsids);
    [intros v Hv; apply Hkey; apply Hreal in Hv; tauto|].
  destruct (Sort real_order b) as [sorted_order new_ids]. cbn [fst snd] in *.
  assert (Hfind : forall v, In v real_order ->
            0 <= lower_bound sorted_order v < Z.of_nat (length real_order) /\
            sorted_order.[lower_bound sorted_order v] = v /\
            0 <= new_ids.[lower_bound sorted_order v] < Z.of_nat (length real_order) /\
            real_order.[new_ids.[lower_bound sorted_order v]] = v).
  { intros v Hv. apply Hsin in Hv.
    destruct (lower_bound_finds sorted_order v Hssorted Hv) as [Hr Heq].
    rewrite Hslen in Hr. destruct (Hsids _ Hr) as [Hn Hback].
    split; [exact Hr|]. split; [exact Heq|]. split; [exact Hn|]. now rewrite Hback. }
  assert (Hall : forallb (fun p => rd junk sorted_order (fst p) =? snd p)
                   (combine (map (lower_bound sorted_order) dst_ids) dst_ids) = true).
  { apply forallb_forall. intros p Hp. apply in_combine_map in Hp as (d & Hd & ->).
    cbn [fst snd]. apply Z.eqb_eq.
    destruct (Hfind d) as (Hr & Heq & _); [apply Hreal; now apply Hdst|].
    unfold rd in *. rewrite (nth_indep _ junk 0) by lia. exact Heq. }
  rewrite Hall. cbn [negb].
  exists uniq, (map (fun loc => new_ids.[loc]) (map (lower_bound sorted_order) src_ids)),
    (map (fun loc => new_ids.[loc]) (map (lower_bound sorted_order) dst_ids)).
  split; [reflexivity|]. split; [now apply run_length_unique_sorted|].
  split; [exact Huniq|]. split; [now rewrite !length_map|].
  split; [now rewrite !length_map|]. fold real_order. split.
  - intros i Hi. rewrite map_map, (rd_map _ 0) by exact Hi.
    destruct (Hfind src_ids.[i]) as (_ & _ & Hn & Hback);
      [apply Hreal; right; now apply rd_In|]. now split.
  - intros i Hi. rewrite map_map, (rd_map _ 0) by exact Hi.
    destruct (Hfind dst_ids.[i]) as (_ & _ & Hn & Hback);
      [apply Hreal; apply Hdst; now apply rd_In|]. now split.
Qed.

(** X13.  When a destination id occurs neither in [unique_dst_ids] nor in
    [src_ids], [UniqueAndCompact] raises the out-of-range error, provided
    the id differs from what lies after the end of [sorted_order] (which
    the check reads when the id is greater than every id of the
    universe). *)
Theorem UniqueAndCompact_rejects_unknown_dst (junk : Z)
    (src_ids dst_ids unique_dst_ids : list Z) (num_bits id : Z) :
  In id dst_ids -> ~ In id unique_dst_ids -> ~ In id src_ids -> junk <> id ->
  UniqueAndCompact junk src_ids dst_ids unique_dst_ids num_bits =
    Error "Some ids not found.".
Proof.
  intros Hd Hnd Hns Hjunk. unfold UniqueAndCompact.
  set (b := if (num_bits <=? 0) || (64 <? num_bits) then _ else num_bits).
  rewrite filter_marked.
  set (sdst := Sort_values unique_dst_ids b).
  set (only := List.filter (fun v => negb (binary_search sdst v)) src_ids).
  set (real_order := unique_dst_ids ++ run_length_unique (Sort_values only b)).
  assert (Hreal : ~ In id real_order).
  { subst real_order. rewrite in_app_iff, run_length_unique_In. intros [H|H]; [contradiction|].
    apply (Permutation_in _ (stable_sort_perm _ only)) in H.
    subst only. apply filter_In in H as [H _]. contradiction. }
  unfold Sort.
  set (order := StdSort.stable_sort _ (iota 0 (length real_order))).
  set (sorted_order := map (fun i => real_order.[i]) order).
  assert (Hsorted : ~ In id sorted_order).
  { subst sorted_order. rewrite in_map_iff. intros (i & Hi & Hin). apply Hreal.
    rewrite <- Hi. apply rd_In. subst order.
    apply (Permutation_in _ (stable_sort_perm _ _)), in_iota in Hin. lia. }
  assert (Hall : forallb (fun p => rd junk sorted_order (fst p) =? snd p)
                   (combine (map (lower_bound sorted_order) dst_ids) dst_ids) = false).
  { apply not_true_iff_false. rewrite forallb_forall. intros Hall.
    specialize (Hall (lower_bound sorted_order id, id)). cbn [fst snd] in Hall.
    assert (Heq : rd junk sorted_order (lower_bound sorted_order id) = id).
    { apply Z.eqb_eq, Hall. apply in_combine_map. now exists id. }
    pose proof (lower_bound_range sorted_order id) as Hr.
    destruct (Z.eq_dec (lower_bound sorted_order id) (Z.of_nat (length sorted_order)))
      as [Hend|Hin].
    - unfold rd in Heq. rewrite nth_overflow in Heq by lia. contradiction.
    - apply Hsorted. rewrite <- Heq. apply rd_In. lia. }
  rewrite Hall. reflexivity.
Qed.

End UniqueAndCompactMore.

Lemma UniqueAndCompact_new_ids_map_back_witness :
  exists only_src new_src_ids new_dst_ids,
    UniqueAndCompactImpl.UniqueAndCompact 0 [5; 3; 5; 9] [3; 7] [7; 3] 0 =
      Ok ([7; 3] ++ only_src, new_src_ids, new_dst_ids) /\
    StronglySorted Z.lt only_src /\
    (forall id, In id only_src <-> In id [5; 3; 5; 9] /\ ~ In id [7; 3]) /\
    length new_src_ids = length [5; 3; 5; 9] /\
    length new_dst_ids = length [3; 7] /\
    (forall i, 0 <= i < Z.of_nat (length [5; 3; 5; 9]) ->
       0 <= new_src_ids.[i] < Z.of_nat (length ([7; 3] ++ only_src)) /\
       ([7; 3] ++ only_src).[new_src_ids.[i]] = [5; 3; 5; 9].[i]) /\
    (forall i, 0 <= i < Z.of_nat (length [3; 7]) ->
       0 <= new_dst_ids.[i] < Z.of_nat (length ([7; 3] ++ only_src)) /\
       ([7; 3] ++ only_src).[new_dst_ids.[i]] = [3; 7].[i]).
Proof.
  apply (UniqueAndCompact_new_ids_map_back 0 [5; 3; 5; 9] [3; 7] [7; 3] 0).
  - simpl. intros id H. assert (0 <= id < 10) by intuition lia.
    assert (10 < 2 ^ 63 - 1) by reflexivity. lia.
  - simpl. discriminate.
  - simpl. intuition.
Defined.

Lemma UniqueAndCompact_rejects_unknown_dst_witness :
  UniqueAndCompactImpl.UniqueAndCompact 0 [5] [6] [1] 0 = Error "Some ids not found.".
Proof.
  apply (UniqueAndCompact_rejects_unknown_dst 0 [5] [6] [1] 0 6).
  - simpl. tauto.
  - simpl. lia.
  - simpl. lia.
  - lia.
Defined.

(** ** Index compaction without a leading prefix *)

Section CompactWithoutLeading.

Import Compact StdSort.

(** Without leading indices the code takes the branch that calls [_unique]
    on the sorted row alone. *)
Lemma CompactIndices_no_leading (unique : list Z -> list Z * list Z) (row : list Z) :
  CompactIndices unique row None = CompactIndices unique row (Some []).
Proof. reflexivity. Qed.

(** X14.  [CompactIndices] without leading indices, over any [_unique] that
    keeps its promise, and [CompactCOO] on top of it, renumber the ids of
    the row one to one: the reverse mapping holds exactly the ids of the
    row, each once; every new index is in range and the reverse mapping
    sends it back to the original id; two positions get the same new index
    exactly when they hold the same id; and every index below the number
    of distinct ids is used. *)
Theorem CompactIndices_without_leading_is_a_renumbering
    (unique : list Z -> list Z * list Z) (row col : list Z) :
  unique_spec unique ->
  let new_row := fst (CompactIndices unique row None) in
  let ret_idx := rev (snd (CompactIndices unique row None)) in
  CompactCOO unique (row, col) 0 None = ((new_row, col), ret_idx) /\
  CompactCOO unique (col, row) 1 None = ((col, new_row), ret_idx) /\
  length new_row = length row /\
  List.NoDup ret_idx /\
  (forall v, In v ret_idx <-> In v row) /\
  (forall p, 0 <= p < Z.of_nat (length row) ->
     0 <= new_row.[p] < Z.of_nat (length ret_idx) /\
     ret_idx.[new_row.[p]] = row.[p]) /\
  (forall p q, 0 <= p < Z.of_nat (length row) -> 0 <= q < Z.of_nat (length row) ->
     (new_row.[p] = new_row.[q] <-> row.[p] = row.[q])) /\
  (forall j, 0 <= j < Z.of_nat (length ret_idx) ->
     exists p, 0 <= p < Z.of_nat (length row) /\ new_row.[p] = j).
Proof.
  intros Hspec new_row ret_idx.
  assert (Hcons : forall p, 0 <= p < Z.of_nat (length row) ->
            0 <= new_row.[p] < Z.of_nat (length ret_idx) /\
            ret_idx.[new_row.[p]] = row.[p]).
  { intros p Hp. subst new_row ret_idx. rewrite CompactIndices_no_leading.
    destruct (CompactIndices_rd unique row [] p Hspec Hp) as (j & Hj & Hnew & Hv).
    rewrite length_rev, Hnew. split; [lia|].
    rewrite rd_rev by lia. rewrite <- Hv. f_equal. lia. }
  assert (Hnd : List.NoDup ret_idx).
  { subst ret_idx. rewrite CompactIndices_no_leading, CompactIndices_uniqued.
    apply List.NoDup_rev, Hspec. }
  assert (Hin : forall v, In v ret_idx <-> In v row).
  { intros v. subst ret_idx.
    rewrite <- in_rev, CompactIndices_no_leading, CompactIndices_uniqued.
    destruct (Hspec ([] ++ fst (sort row))) as (_ & Hin & _).
    rewrite Hin. cbn [app]. apply sort_row_In. }
  split; [|split; [|split; [|split; [|split; [|split; [|split]]]]]].
  - unfold CompactCOO. cbn [Z.eqb fst snd]. subst ret_idx new_row.
    now destruct (CompactIndices unique row None).
  - unfold CompactCOO. cbn [Z.eqb fst snd]. subst ret_idx new_row.
    now destruct (CompactIndices unique row None).
  - subst new_row. rewrite CompactIndices_no_leading. apply CompactIndices_length.
  - exact Hnd.
  - exact Hin.
  - exact Hcons.
  - intros p q Hp Hq. destruct (Hcons p Hp) as [Hrp Hbp].
    destruct (Hcons q Hq) as [Hrq Hbq]. split.
    + intros Heq. rewrite <- Hbp, <- Hbq, Heq. reflexivity.
    + intros Heq. apply (NoDup_rd_inj ret_idx); [exact Hnd|exact Hrp|exact Hrq|].
      now rewrite Hbp, Hbq.
  - intros j Hj.
    destruct (In_rd 0 row (ret_idx.[j])) as (p & Hp & Hv).
    { apply Hin, rd_In, Hj. }
    exists p. split; [exact Hp|]. destruct (Hcons p Hp) as [Hrp Hbp].
    apply (NoDup_rd_inj ret_idx); [exact Hnd|exact Hrp|exact Hj|].
    now rewrite Hbp.
Qed.

End CompactWithoutLeading.

Lemma CompactIndices_without_leading_is_a_renumbering_witness :
  Compact.unique_spec Compact.unique_newest_first /\
  Compact.CompactCOO Compact.unique_newest_first ([7; 5; 9; 5], [0; 1; 2; 3]) 0 None =
    (([1; 0; 2; 0], [0; 1; 2; 3]), [5; 7; 9]).
Proof.
  split; [apply unique_newest_first_spec|].
  destruct (CompactIndices_without_leading_is_a_renumbering Compact.unique_newest_first
              [7; 5; 9; 5] [0; 1; 2; 3] unique_newest_first_spec) as (Hcoo & _).
  rewrite Hcoo. vm_compute. reflexivity.
Defined.

(** ** Atomic helpers *)

Section AtomicFacts.

Import Atomic.

Lemma Decode_Encode (bits v : Z) :
  0 < bits -> - 2 ^ (bits - 1) <= v < 2 ^ (bits - 1) -> Decode bits (Encode bits v) = v.
Proof.
  intros Hb Hv. unfold Decode, Encode.
  assert (H2 : 2 ^ bits = 2 * 2 ^ (bits - 1)).
  { rewrite <- Z.pow_succ_r by lia. f_equal. lia. }
  rewrite Zplus_mod_idemp_l. rewrite Z.mod_small by lia. lia.
Qed.

Lemma Encode_range (bits v : Z) : 0 < bits -> 0 <= Encode bits v < 2 ^ bits.
Proof. intros Hb. unfold Encode. apply Z.mod_pos_bound. lia. Qed.

Lemma Encode_nonneg (bits v : Z) :
  0 < bits -> 0 <= v < 2 ^ (bits - 1) -> Encode bits v = v.
Proof.
  intros Hb Hv. unfold Encode.
  assert (H2 : 2 ^ bits = 2 * 2 ^ (bits - 1)).
  { rewrite <- Z.pow_succ_r by lia. f_equal. lia. }
  apply Z.mod_small. lia.
Qed.

Lemma Encode_neg (bits v : Z) :
  0 < bits -> - 2 ^ (bits - 1) <= v < 0 -> Encode bits v = v + 2 ^ bits.
Proof.
  intros Hb Hv. unfold Encode.
  assert (H2 : 2 ^ bits = 2 * 2 ^ (bits - 1)).
  { rewrite <- Z.pow_succ_r by lia. f_equal. lia. }
  rewrite <- (Z.mod_small (v + 2 ^ bits) (2 ^ bits)) by lia.
  rewrite <- (Z_mod_plus_full v 1 (2 ^ bits)). f_equal. lia.
Qed.

(** X15.  [AtomicMax] on [int64_t] orders the operands as unsigned words:
    it returns the old value, and the cell then holds the larger of the two
    values when they have the same sign, but the negative one when the
    signs differ.  [AtomicMax] on [int32_t] stores the signed maximum.
    [AtomicCAS] on [int64_t] compares for equality and is not affected. *)
Theorem AtomicMax_int64_orders_as_unsigned (a v : Z) :
  - 2 ^ 63 <= a < 2 ^ 63 -> - 2 ^ 63 <= v < 2 ^ 63 ->
  (let '(word, old) := AtomicMax_int64 (Encode 64 a) v in
   old = a /\
   Decode 64 word = if Bool.eqb (a <? 0) (v <? 0) then Z.max a v else Z.min a v) /\
  (- 2 ^ 31 <= a < 2 ^ 31 -> - 2 ^ 31 <= v < 2 ^ 31 ->
   AtomicMax_int32 (Encode 32 a) v = (Encode 32 (Z.max a v), a)) /\
  (forall compare,
     - 2 ^ 63 <= compare < 2 ^ 63 ->
     AtomicCAS_int64 (Encode 64 a) compare v =
       (Encode 64 (if a =? compare then v else a), a)).
Proof.
  intros Ha Hv. split; [|split].
  - unfold AtomicMax_int64, atomicMax.
    rewrite (Decode_Encode 64 a) by (cbn; lia). split; [reflexivity|].
    destruct (Z.max_spec (Encode 64 a) (Encode 64 v)) as [[Hlt ->]|[Hle ->]];
      rewrite Decode_Encode by (cbn; lia);
      destruct (a <? 0) eqn:Ea, (v <? 0) eqn:Ev; cbn [Bool.eqb];
      try (rewrite (Encode_neg 64 a) in * by (cbn; lia));
      try (rewrite (Encode_neg 64 v) in * by (cbn; lia));
      try (rewrite (Encode_nonneg 64 a) in * by (cbn; lia));
      try (rewrite (Encode_nonneg 64 v) in * by (cbn; lia));
      change (2 ^ 64) with 18446744073709551616 in *;
      change (2 ^ 63) with 9223372036854775808 in *; lia.
  - intros Ha' Hv'. unfold AtomicMax_int32, atomicMax.
    rewrite (Decode_Encode 32 a) by (cbn; lia). reflexivity.
  - intros compare Hc. unfold AtomicCAS_int64, atomicCAS.
    rewrite (Decode_Encode 64 a) by (cbn; lia). f_equal.
    destruct (a =? compare) eqn:E.
    + apply Z.eqb_eq in E. subst compare. now rewrite Z.eqb_refl.
    + destruct (Encode 64 a =? Encode 64 compare) eqn:E'; [|reflexivity].
      apply Z.eqb_eq in E'. apply (f_equal (Decode 64)) in E'.
      rewrite !Decode_Encode in E' by (cbn; lia). apply Z.eqb_neq in E. contradiction.
Qed.

Section AtomicLoop.

Variable bits : Z.
Variable OP : Z -> Z -> Z.

Lemma cas_loop_applies (others : list (option Z)) :
  forall (fuel : nat) (val word : Z),
    (length others < fuel)%nat ->
    exists c, In c (word :: omap id others) /\
      cas_loop bits OP fuel others val word word =
        Some (Encode bits (OP val (Decode bits c)), Decode bits c).
Proof.
  induction others as [|o others IH]; intros fuel val word Hfuel.
  - destruct fuel as [|fuel]; [simpl in Hfuel; lia|].
    exists word. split; [now left|]. cbn [cas_loop atomicCAS tl].
    rewrite Z.eqb_refl. cbn [negb]. reflexivity.
  - destruct fuel as [|fuel]; [simpl in Hfuel; lia|]. simpl in Hfuel.
    destruct o as [w|].
    + cbn [cas_loop atomicCAS tl]. destruct (w =? word) eqn:E.
      * apply Z.eqb_eq in E. subst w. rewrite Z.eqb_refl. cbn [negb].
        exists word. split; [now left|reflexivity].
      * rewrite Z.eqb_sym, E. cbn [negb].
        destruct (IH fuel val w ltac:(lia)) as (c & Hin & Hres).
        exists c. split; [|exact Hres]. right. cbn [omap id]. exact Hin.
    + cbn [cas_loop atomicCAS tl]. rewrite Z.eqb_refl. cbn [negb].
      exists word. split; [now left|reflexivity].
Qed.

(** X16.  The compare-and-swap loop of [Atomic##NAME] applies [OP] exactly
    once, to a word that the cell held: whatever other threads store in
    between (finitely often), the loop ends having replaced a word [c],
    either the initial one or one stored by another thread, by the code of
    [OP(val, Decode(c))], and it returns [Decode(c)].  Undisturbed, on a cell
    that holds the value [a] of the signed type, it stores [OP(val, a)] and
    returns [a]. *)
Theorem AtomicOp_applies_OP_once (fuel : nat) (others : list (option Z)) (word val : Z) :
  (length others < fuel)%nat ->
  (exists c, In c (word :: omap id others) /\
     AtomicOp bits OP fuel others word val =
       Some (Encode bits (OP val (Decode bits c)), Decode bits c)) /\
  (forall a, 0 < bits -> - 2 ^ (bits - 1) <= a < 2 ^ (bits - 1) ->
     AtomicOp bits OP fuel [] (Encode bits a) val = Some (Encode bits (OP val a), a)).
Proof.
  intros Hfuel. split.
  - unfold AtomicOp. apply cas_loop_applies, Hfuel.
  - intros a Hb Ha. unfold AtomicOp.
    destruct fuel as [|fuel]; [lia|]. cbn [cas_loop atomicCAS tl].
    rewrite Z.eqb_refl. cbn [negb].
    now rewrite Decode_Encode by assumption.
Qed.

End AtomicLoop.

End AtomicFacts.

Lemma AtomicMax_int64_orders_as_unsigned_witness :
  Atomic.Decode 64 (fst (Atomic.AtomicMax_int64 (Atomic.Encode 64 5) (-1))) = -1.
Proof.
  destruct (AtomicMax_int64_orders_as_unsigned 5 (-1)) as (H & _); [lia|lia|].
  destruct (Atomic.AtomicMax_int64 (Atomic.Encode 64 5) (-1)) as [word old].
  cbn [fst]. rewrite (proj2 H). reflexivity.
Defined.

Lemma AtomicOp_applies_OP_once_witness :
  (exists c, In c [5; 7] /\
     Atomic.AtomicOp 32 Z.add 3 [Some 7; None] 5 10 =
       Some (Atomic.Encode 32 (10 + Atomic.Decode 32 c), Atomic.Decode 32 c)) /\
  Atomic.AtomicOp 32 Z.add 3 [] (Atomic.Encode 32 (-4)) 10 =
    Some (Atomic.Encode 32 (10 + -4), -4).
Proof.
  split.
  - apply (AtomicOp_applies_OP_once 32 Z.add 3 [Some 7; None] 5 10). simpl. lia.
  - apply (AtomicOp_applies_OP_once 32 Z.add 3 [] 5 10); [simpl; lia|lia|lia].
Defined.

(** ** Intersection of COO matrices *)

Section IntersectionFacts.

Import Compact Intersection.

Lemma NoDup_map_in {A B : Type} (f : A -> B) (l : list A) :
  (forall x y, In x l -> In y l -> f x = f y -> x = y) ->
  List.NoDup l -> List.NoDup (List.map f l).
Proof.
  induction l as [|a l IH]; intros Hinj Hnd; simpl; [constructor|].
  apply NoDup_cons_iff in Hnd as [Hnin Hnd]. constructor.
  - intros Hin. apply in_map_iff in Hin as (x & Hfx & Hx).
    assert (x = a) by (apply Hinj; [now right|now left|exact Hfx]). congruence.
  - apply IH; [|exact Hnd]. intros x y Hx Hy. apply Hinj; now right.
Qed.

Lemma int64_small (x : Z) : - 2 ^ 63 <= x < 2 ^ 63 -> int64 x = x.
Proof. intros Hx. unfold int64. rewrite Z.mod_small; lia. Qed.

Lemma index_mask_map (f : Z -> Z) (l : list Z) (mask : list bool) :
  index_mask (map f l) mask = map f (index_mask l mask).
Proof.
  unfold index_mask. revert mask.
  induction l as [|a l IH]; intros [|b mask]; simpl; try reflexivity.
  destruct b; simpl; now rewrite IH.
Qed.

Lemma index_mask_In (l : list Z) (mask : list bool) (v : Z) :
  In v (index_mask l mask) <->
  exists k, (k < length l)%nat /\ nth k l 0 = v /\ nth k mask false = true.
Proof.
  unfold index_mask. revert mask. induction l as [|a l IH]; intros mask.
  - simpl. split; [tauto|]. intros (k & Hk & _). lia.
  - destruct mask as [|b mask].
    + simpl. split; [tauto|]. intros (k & _ & _ & Hk). now destruct k.
    + assert (Hrec : In v (map fst (List.filter snd (combine l mask))) <->
                     exists k, (S k < length (a :: l))%nat /\
                               nth (S k) (a :: l) 0 = v /\
                               nth (S k) (b :: mask) false = true).
      { rewrite IH. split; intros (k & Hk & Hv & Hm); exists k; simpl in *;
          (split; [lia|split; assumption]). }
      destruct b; simpl.
      * split.
        -- intros [<-|H]; [exists 0%nat; simpl; repeat split; lia|].
           apply Hrec in H as (k & Hk). now exists (S k).
        -- intros ([|k] & Hk & Hv & Hm); [now left|]. right. apply Hrec. now exists k.
      * split.
        -- intros H. apply Hrec in H as (k & Hk). now exists (S k).
        -- intros ([|k] & Hk & Hv & Hm); [discriminate|]. apply Hrec. now exists k.
Qed.

Lemma index_mask_sublist (l : list Z) (mask : list bool) :
  sublist (index_mask l mask) l.
Proof.
  unfold index_mask. revert mask.
  induction l as [|a l IH]; intros [|b mask]; simpl; try apply sublist_nil_l.
  destruct b; simpl; constructor; apply IH.
Qed.

(** A masked selection reads the tensor at the selected positions, which
    the mask alone decides. *)
Lemma index_mask_rd (t : list Z) (mask : list bool) :
  length t = length mask ->
  index_mask t mask = map (fun j => t.[j]) (index_mask (iota 0 (length mask)) mask).
Proof.
  intros Hlen. rewrite <- index_mask_map. f_equal.
  unfold iota. rewrite map_map, <- Hlen. symmetry.
  erewrite map_ext; [apply map_rd_seq|]. intros i. reflexivity.
Qed.

Lemma selected_In (mask : list bool) (j : Z) :
  In j (index_mask (iota 0 (length mask)) mask) <->
  0 <= j < Z.of_nat (length mask) /\ nth (Z.to_nat j) mask false = true.
Proof.
  rewrite index_mask_In, iota_length. split.
  - intros (k & Hk & Hv & Hm).
    replace (nth k (iota 0 (length mask)) 0)
      with ((iota 0 (length mask)).[Z.of_nat k]) in Hv
      by (unfold rd; now rewrite Nat2Z.id).
    rewrite rd_iota in Hv by lia. assert (j = Z.of_nat k) as -> by lia.
    rewrite Nat2Z.id. split; [lia|exact Hm].
  - intros (Hj & Hm). exists (Z.to_nat j). split; [lia|]. split; [|exact Hm].
    change (nth (Z.to_nat j) (iota 0 (length mask)) 0) with ((iota 0 (length mask)).[j]).
    rewrite rd_iota by lia. lia.
Qed.

Lemma selected_NoDup (mask : list bool) :
  List.NoDup (index_mask (iota 0 (length mask)) mask).
Proof.
  apply NoDup_ListNoDup. eapply sublist_NoDup; [|apply index_mask_sublist].
  apply NoDup_iota.
Qed.

Lemma NoDup_rd_intro (l : list Z) :
  (forall i j, 0 <= i < Z.of_nat (length l) -> 0 <= j < Z.of_nat (length l) ->
     l.[i] = l.[j] -> i = j) ->
  List.NoDup l.
Proof.
  intros Hinj. apply (NoDup_nth l 0). intros i j Hi Hj Heq.
  apply Nat2Z.inj. apply Hinj; [lia|lia|]. unfold rd. now rewrite !Nat2Z.id.
Qed.

Lemma rd_app_l {A : Type} (d : A) (l1 l2 : list A) (i : Z) :
  0 <= i < Z.of_nat (length l1) -> rd d (l1 ++ l2) i = rd d l1 i.
Proof. intros Hi. unfold rd. apply app_nth1. lia. Qed.

(** The scatter of step 5: where the value [u[j]] occurs in the part of the
    concatenation that starts at [off], the map holds its position in it. *)
Lemma scatter_positions (u inv arr part m : list Z) (off j : Z) :
  List.NoDup u ->
  length inv = length arr ->
  (forall i, 0 <= i < Z.of_nat (length arr) ->
     0 <= inv.[i] < Z.of_nat (length u) /\ u.[inv.[i]] = arr.[i]) ->
  0 <= off -> off + Z.of_nat (length part) <= Z.of_nat (length arr) ->
  (forall q, 0 <= q < Z.of_nat (length part) -> arr.[off + q] = part.[q]) ->
  List.NoDup part -> length m = length u ->
  0 <= j < Z.of_nat (length u) -> In u.[j] part ->
  let inverse_part := slice inv off (off + Z.of_nat (length part)) in
  let m' := index_put_ m inverse_part (iota 0 (length inverse_part)) in
  0 <= m'.[j] < Z.of_nat (length part) /\ part.[m'.[j]] = u.[j].
Proof.
  intros Hnd Hlen Hinv Hoff Hfit Hpart Hndp Hm Hj Hin sl m'.
  destruct (In_rd 0 part _ Hin) as (q & Hq & Hqv).
  assert (Hsl : length sl = length part).
  { subst sl. unfold slice. rewrite length_firstn, length_skipn, Hlen. lia. }
  assert (Hslrd : forall a, 0 <= a < Z.of_nat (length part) ->
            0 <= sl.[a] < Z.of_nat (length u) /\ u.[sl.[a]] = part.[a]).
  { intros a Ha. subst sl. rewrite rd_slice by lia.
    destruct (Hinv (off + a)) as [Hr Hv]; [lia|]. split; [exact Hr|].
    rewrite Hv. apply Hpart, Ha. }
  assert (Hndsl : List.NoDup sl).
  { apply NoDup_rd_intro. intros a b Ha Hb Heq. rewrite Hsl in Ha, Hb.
    apply (NoDup_rd_inj part); [exact Hndp|exact Ha|exact Hb|].
    rewrite <- (proj2 (Hslrd a Ha)), <- (proj2 (Hslrd b Hb)), Heq. reflexivity. }
  assert (Hjq : sl.[q] = j).
  { apply (NoDup_rd_inj u); [exact Hnd|apply Hslrd, Hq|exact Hj|].
    rewrite (proj2 (Hslrd q Hq)). exact Hqv. }
  assert (Hput : m'.[sl.[q]] = (iota 0 (length sl)).[q]).
  { subst m'. apply index_put_rd; [exact Hndsl|apply iota_length| |lia].
    intros i Hi. destruct (In_rd 0 sl i Hi) as (a & Ha & <-).
    rewrite Hm. apply Hslrd. lia. }
  rewrite Hjq, rd_iota in Hput by lia. rewrite Hput.
  split; [lia|]. replace (0 + q) with q by lia. exact Hqv.
Qed.

Lemma count_occ_NoDup_le (l : list Z) (v : Z) :
  List.NoDup l -> (count_occ Z.eq_dec l v <= 1)%nat.
Proof. intros Hnd. now apply (proj1 (NoDup_count_occ Z.eq_dec l)). Qed.

End IntersectionFacts.

Section IntersectionClaim.

Import Compact Intersection.

Variable unique_dim : list Z -> list Z * list Z * list Z.
Variable empty_like : list Z -> list Z.
Hypothesis unique_dim_ok : unique_dim_spec unique_dim.
Hypothesis empty_like_length : forall t, length (empty_like t) = length t.

Local Abbreviation enc nc := (fun e : Z * Z => fst e * nc + snd e).

Lemma dec_enc (nc : Z) (e : Z * Z) :
  0 <= snd e < nc ->
  ((fst e * nc + snd e) / nc, (fst e * nc + snd e) mod nc) = e.
Proof.
  intros He. destruct e as [r c]. cbn [fst snd] in *. f_equal.
  - rewrite Z.div_add_l by lia. rewrite Z.div_small by lia. lia.
  - rewrite Z.add_comm, Z_mod_plus_full. apply Z.mod_small. lia.
Qed.

Lemma encode_entries (m : COO) (nc : Z) :
  num_cols m = nc -> 0 < nc ->
  (forall e, In e (entries m) ->
     0 <= fst e /\ 0 <= snd e < nc /\ fst e * nc + snd e < 2 ^ 63) ->
  encode m = map (enc nc) (entries m).
Proof.
  intros Hnc Hpos Hvalid. unfold encode, entries in *. rewrite Hnc.
  apply map_ext_in. intros e He. destruct (Hvalid e He) as (Hr & Hc & Hlt).
  assert (0 <= fst e * nc) by nia.
  rewrite (int64_small (fst e * nc)) by lia. apply int64_small. lia.
Qed.

Lemma in_encoded (nc : Z) (l : list (Z * Z)) (v : Z) :
  In v (map (enc nc) l) <-> exists e, In e l /\ v = fst e * nc + snd e.
Proof.
  rewrite in_map_iff. split; intros (e & H1 & H2).
  - exists e. split; [exact H2|]. now rewrite <- H1.
  - exists e. split; [|exact H1]. now rewrite H2.
Qed.

(** X17.  For two matrices with the same number of columns whose entries
    lie inside the columns, have non-negative rows and codes below [2^63],
    and neither of which lists an entry twice, [COOIntersection] returns:
    a matrix of the shape of [lhs] whose entries are exactly the entries
    that occur in both matrices, each once; and two index tensors that give,
    for the [k]-th entry of the result, its position in [lhs] and its
    position in [rhs]. *)
Theorem COOIntersection_of_duplicate_free (lhs rhs : COO) :
  0 < num_cols lhs -> num_cols rhs = num_cols lhs ->
  (forall e, In e (entries lhs) \/ In e (entries rhs) ->
     0 <= fst e /\ 0 <= snd e < num_cols lhs /\
     fst e * num_cols lhs + snd e < 2 ^ 63) ->
  List.NoDup (entries lhs) -> List.NoDup (entries rhs) ->
  exists ret lhs_indices rhs_indices,
    COOIntersection unique_dim empty_like lhs rhs = Ok (ret, lhs_indices, rhs_indices) /\
    num_rows ret = num_rows lhs /\ num_cols ret = num_cols lhs /\
    List.NoDup (entries ret) /\
    (forall e, In e (entries ret) <-> In e (entries lhs) /\ In e (entries rhs)) /\
    length lhs_indices = length (entries ret) /\
    length rhs_indices = length (entries ret) /\
    forall k, 0 <= k < Z.of_nat (length (entries ret)) ->
      (0 <= lhs_indices.[k] < Z.of_nat (length (entries lhs)) /\
       rd (0, 0) (entries lhs) lhs_indices.[k] = rd (0, 0) (entries ret) k) /\
      (0 <= rhs_indices.[k] < Z.of_nat (length (entries rhs)) /\
       rd (0, 0) (entries rhs) rhs_indices.[k] = rd (0, 0) (entries ret) k).
Proof.
  intros Hnc Hsame Hvalid Hndl Hndr.
  set (nc := num_cols lhs) in *.
  assert (Hel : encode lhs = map (enc nc) (entries lhs)).
  { apply encode_entries; [reflexivity|exact Hnc|]. intros e He. apply Hvalid. now left. }
  assert (Her : encode rhs = map (enc nc) (entries rhs)).
  { apply encode_entries; [exact Hsame|exact Hnc|]. intros e He. apply Hvalid. now right. }
  assert (Hinj : forall x y, (In x (entries lhs) \/ In x (entries rhs)) ->
            (In y (entries lhs) \/ In y (entries rhs)) ->
            fst x * nc + snd x = fst y * nc + snd y -> x = y).
  { intros x y Hx Hy Heq. rewrite <- (dec_enc nc x), <- (dec_enc nc y).
    - now rewrite Heq.
    - apply (Hvalid y Hy).
    - apply (Hvalid x Hx). }
  assert (Hndla : List.NoDup (encode lhs)).
  { rewrite Hel. apply NoDup_map_in; [|exact Hndl]. intros x y Hx Hy. apply Hinj; now left. }
  assert (Hndra : List.NoDup (encode rhs)).
  { rewrite Her. apply NoDup_map_in; [|exact Hndr]. intros x y Hx Hy. apply Hinj; now right. }
  assert (Hlenl : length (encode lhs) = length (entries lhs)) by (now rewrite Hel, length_map).
  assert (Hlenr : length (encode rhs) = length (entries rhs)) by (now rewrite Her, length_map).
  unfold COOIntersection.
  pose proof (unique_dim_ok (encode lhs ++ encode rhs)) as Hspec.
  destruct (unique_dim (encode lhs ++ encode rhs)) as [[u inv] cnt].
  destruct Hspec as (Hndu & Hinu & Hleninv & Hinv & Hlencnt & Hcnt).
  set (arr := encode lhs ++ encode rhs) in *.
  set (mask := map (fun c => 1 <? c) cnt).
  assert (Hlenmask : length mask = length u).
  { subst mask. now rewrite length_map. }
  set (sel := index_mask (iota 0 (length mask)) mask).
  assert (Hsel : forall j, In j sel <->
            0 <= j < Z.of_nat (length u) /\ In u.[j] (encode lhs) /\ In u.[j] (encode rhs)).
  { intros j. subst sel. rewrite selected_In, Hlenmask. subst mask.
    split; intros [Hj Hm]; (split; [exact Hj|]).
    - change false with ((fun c => 1 <? c) 0) in Hm. rewrite map_nth in Hm.
      apply Z.ltb_lt in Hm. fold (cnt.[j]) in Hm. rewrite Hcnt in Hm by exact Hj.
      subst arr. rewrite count_occ_app in Hm.
      pose proof (count_occ_NoDup_le _ u.[j] Hndla).
      pose proof (count_occ_NoDup_le _ u.[j] Hndra).
      split; apply (count_occ_In Z.eq_dec); lia.
    - change false with ((fun c => 1 <? c) 0). rewrite map_nth.
      apply Z.ltb_lt. fold (cnt.[j]). rewrite Hcnt by exact Hj.
      subst arr. rewrite count_occ_app.
      destruct Hm as [Hl Hr].
      apply (count_occ_In Z.eq_dec) in Hl. apply (count_occ_In Z.eq_dec) in Hr. lia. }
  assert (Hndsel : List.NoDup sel) by apply selected_NoDup.
  rewrite (index_mask_rd u mask) by (now rewrite Hlenmask).
  fold sel.
  set (m1 := index_put_ (empty_like u) _ _).
  set (m2 := index_put_ m1 _ _).
  assert (Hm1 : length m1 = length u).
  { subst m1. now rewrite index_put_length, empty_like_length. }
  assert (Hm2 : length m2 = length u).
  { subst m2. now rewrite index_put_length. }
  rewrite (index_mask_rd m1 mask) by (now rewrite Hlenmask).
  rewrite (index_mask_rd m2 mask) by (now rewrite Hlenmask).
  fold sel.
  fold nc. replace (nc =? 0) with false by (symmetry; apply Z.eqb_neq; lia). cbn [andb].
  eexists _, _, _. split; [reflexivity|].
  cbn [num_rows Intersection.num_cols]. split; [reflexivity|]. split; [reflexivity|].
  assert (Hret : forall nr b1 b2,
            entries (mkSparseCOO nr nc
                       (map (fun v => v / nc) (map (fun j => u.[j]) sel),
                        map (fun v => v mod nc) (map (fun j => u.[j]) sel)) b1 b2) =
            map (fun j => (u.[j] / nc, u.[j] mod nc)) sel).
  { intros nr b1 b2. unfold entries. cbn [indices fst snd].
    rewrite (combine_map_pair (fun v => v / nc) (fun v => v mod nc)), map_map.
    reflexivity. }
  rewrite !Hret, !length_map. clear Hret.
  assert (Hlhs_of : forall j, In j sel ->
            exists e, In e (entries lhs) /\ u.[j] = fst e * nc + snd e).
  { intros j Hj. apply Hsel in Hj as (_ & Hl & _). rewrite Hel in Hl.
    now apply in_encoded in Hl. }
  assert (Hrhs_of : forall j, In j sel ->
            exists e, In e (entries rhs) /\ u.[j] = fst e * nc + snd e).
  { intros j Hj. apply Hsel in Hj as (_ & _ & Hr). rewrite Her in Hr.
    now apply in_encoded in Hr. }
  split; [|split; [|split; [reflexivity|split; [reflexivity|]]]].
  - apply NoDup_map_in; [|exact Hndsel]. intros j1 j2 H1 H2 Heq. cbv beta in Heq.
    destruct (Hlhs_of j1 H1) as (e1 & He1 & Hu1).
    destruct (Hlhs_of j2 H2) as (e2 & He2 & Hu2).
    rewrite Hu1, Hu2 in Heq.
    rewrite (dec_enc nc e1), (dec_enc nc e2) in Heq
      by (apply Hvalid; now left).
    apply (NoDup_rd_inj u); [exact Hndu|apply Hsel, H1|apply Hsel, H2|].
    now rewrite Hu1, Hu2, Heq.
  - intros e. rewrite in_map_iff. split.
    + intros (j & Hje & Hj).
      destruct (Hlhs_of j Hj) as (e1 & He1 & Hu1).
      destruct (Hrhs_of j Hj) as (e2 & He2 & Hu2).
      split.
      * rewrite Hu1, dec_enc in Hje by (apply Hvalid; now left). now subst e.
      * rewrite Hu2, dec_enc in Hje by (apply Hvalid; now right). now subst e.
    + intros [Hl Hr].
      assert (Hina : In (fst e * nc + snd e) u).
      { apply Hinu. subst arr. apply in_or_app. left. rewrite Hel.
        apply in_encoded. now exists e. }
      destruct (In_rd 0 u _ Hina) as (j & Hj & Hju).
      exists j. split.
      * rewrite Hju. apply dec_enc. apply Hvalid. now left.
      * apply Hsel. split; [exact Hj|]. rewrite Hju, Hel, Her.
        split; apply in_encoded; now exists e.
  - intros k Hk.
    assert (Hjin : In sel.[k] sel) by (apply rd_In; exact Hk).
    rewrite !(rd_map _ 0 0) by exact Hk.
    rewrite (rd_map _ 0 (0, 0)) by exact Hk.
    set (j := sel.[k]) in *.
    pose proof (proj1 (Hsel j) Hjin) as (Hj & Hjl & Hjr).
    assert (Hlenarr : length arr = (length (encode lhs) + length (encode rhs))%nat).
    { subst arr. apply length_app. }
    split.
    + destruct (scatter_positions u inv arr (encode lhs) (empty_like u) 0 j)
        as [Hrange Hval]; try assumption.
      * lia.
      * lia.
      * intros q Hq. subst arr. rewrite Z.add_0_l. now apply rd_app_l.
      * apply empty_like_length.
      * cbn zeta in Hrange, Hval. rewrite Z.add_0_l in Hrange, Hval.
        fold m1 in Hrange, Hval. split; [lia|].
        rewrite Hel in Hval. rewrite (rd_map _ (0, 0)) in Hval by lia.
        rewrite <- Hval. symmetry. apply dec_enc. apply Hvalid. left. apply rd_In. lia.
    + destruct (scatter_positions u inv arr (encode rhs) m1 (Z.of_nat (length (encode lhs))) j)
        as [Hrange Hval]; try assumption.
      * lia.
      * lia.
      * intros q Hq. subst arr. apply rd_app_r. lia.
      * cbn zeta in Hrange, Hval.
        replace (Z.of_nat (length (encode lhs)) + Z.of_nat (length (encode rhs)))
          with (Z.of_nat (length arr)) in Hrange, Hval by lia.
        fold m2 in Hrange, Hval. split; [lia|].
        rewrite Her in Hval. rewrite (rd_map _ (0, 0)) in Hval by lia.
        rewrite <- Hval. symmetry. apply dec_enc. apply Hvalid. right. apply rd_In. lia.
Qed.

End IntersectionClaim.

Section IntersectionDuplicates.

Import Compact Intersection.

Variable unique_dim : list Z -> list Z * list Z * list Z.
Variable empty_like : list Z -> list Z.
Hypothesis unique_dim_ok : unique_dim_spec unique_dim.

(** X19.  The matrices must not list an entry twice: an entry that [lhs]
    lists twice is counted twice in the concatenation, so that
    [COOIntersection] reports it in the result whatever [rhs] holds, also
    when [rhs] does not have it. *)
Theorem COOIntersection_reports_duplicated_entries
    (lhs rhs : COO) (e : Z * Z) (l1 l2 l3 : list (Z * Z)) :
  0 < num_cols lhs ->
  0 <= fst e -> 0 <= snd e < num_cols lhs ->
  fst e * num_cols lhs + snd e < 2 ^ 63 ->
  entries lhs = l1 ++ e :: l2 ++ e :: l3 ->
  exists ret lhs_indices rhs_indices,
    COOIntersection unique_dim empty_like lhs rhs = Ok (ret, lhs_indices, rhs_indices) /\
    In e (entries ret).
Proof.
  intros Hnc Hr Hc Hlt Hdup.
  set (nc := num_cols lhs) in *.
  set (f := fun rc : Z * Z => int64 (int64 (fst rc * nc) + snd rc)).
  set (c := fst e * nc + snd e) in *.
  assert (Hfe : f e = c).
  { subst f c. cbv beta. assert (0 <= fst e * nc) by nia.
    rewrite (int64_small (fst e * nc)) by lia. apply int64_small. lia. }
  assert (Hel : encode lhs = map f (entries lhs)) by reflexivity.
  assert (Hcount : (2 <= count_occ Z.eq_dec (encode lhs ++ encode rhs) c)%nat).
  { rewrite count_occ_app, Hel, Hdup, map_app. cbn [map]. rewrite map_app. cbn [map].
    rewrite count_occ_app, (count_occ_cons_eq Z.eq_dec _ Hfe).
    rewrite count_occ_app, (count_occ_cons_eq Z.eq_dec _ Hfe). lia. }
  unfold COOIntersection.
  pose proof (unique_dim_ok (encode lhs ++ encode rhs)) as Hspec.
  destruct (unique_dim (encode lhs ++ encode rhs)) as [[u inv] cnt].
  destruct Hspec as (Hndu & Hinu & Hleninv & Hinv & Hlencnt & Hcnt).
  set (mask := map (fun c => 1 <? c) cnt).
  assert (Hlenmask : length mask = length u).
  { subst mask. now rewrite length_map. }
  assert (Hin : In c u).
  { apply Hinu. apply (count_occ_In Z.eq_dec). lia. }
  destruct (In_rd 0 u c Hin) as (j & Hj & Hju).
  assert (Hsel : In j (index_mask (iota 0 (length mask)) mask)).
  { apply selected_In. rewrite Hlenmask. split; [exact Hj|]. subst mask.
    change false with ((fun c => 1 <? c) 0). rewrite map_nth.
    apply Z.ltb_lt. fold (cnt.[j]). rewrite Hcnt by exact Hj. rewrite Hju. lia. }
  rewrite (index_mask_rd u mask) by (now rewrite Hlenmask).
  fold nc. replace (nc =? 0) with false by (symmetry; apply Z.eqb_neq; lia). cbn [andb].
  eexists _, _, _. split; [reflexivity|].
  unfold entries. cbn [indices fst snd].
  rewrite (combine_map_pair (fun v => v / nc) (fun v => v mod nc)), map_map.
  apply in_map_iff. exists j. split; [|exact Hsel].
  rewrite Hju. subst c. apply dec_enc. exact Hc.
Qed.

End IntersectionDuplicates.

Section IntersectionExamples.

Import Compact Intersection.

Lemma unique_dim_ascending_spec : unique_dim_spec unique_dim_ascending.
Proof.
  intros t. unfold unique_dim_ascending.
  pose proof (unique_ascending_spec t) as (Hnd & Hin & Hlen & Hidx).
  destruct (unique_ascending t) as [u inverse]. cbn [fst snd] in *.
  split; [exact Hnd|]. split; [exact Hin|]. split; [exact Hlen|].
  split; [exact Hidx|]. split; [apply length_map|].
  intros j Hj. now rewrite (rd_map _ 0 0) by exact Hj.
Qed.

Lemma COOIntersection_of_duplicate_free_witness :
  let lhs := mkSparseCOO 3 3 ([0; 1; 2], [1; 0; 2]) false false in
  let rhs := mkSparseCOO 3 3 ([2; 0; 1], [2; 1; 1]) false false in
  exists ret lhs_indices rhs_indices,
    COOIntersection unique_dim_ascending (map (fun _ => 0)) lhs rhs =
      Ok (ret, lhs_indices, rhs_indices) /\
    (forall e, In e (entries ret) <-> In e (entries lhs) /\ In e (entries rhs)) /\
    forall k, 0 <= k < Z.of_nat (length (entries ret)) ->
      rd (0, 0) (entries lhs) lhs_indices.[k] = rd (0, 0) (entries ret) k /\
      rd (0, 0) (entries rhs) rhs_indices.[k] = rd (0, 0) (entries ret) k.
Proof.
  intros lhs rhs.
  destruct (COOIntersection_of_duplicate_free unique_dim_ascending (map (fun _ => 0))
              unique_dim_ascending_spec (fun t => length_map _ t) lhs rhs)
    as (ret & li & ri & Hres & _ & _ & _ & Hin & _ & _ & Hidx).
  - reflexivity.
  - reflexivity.
  - assert (H63 : 9 < 2 ^ 63) by reflexivity.
    intros e He. cbn in He.
    destruct He as [[<-|[<-|[<-|[]]]]|[<-|[<-|[<-|[]]]]]; cbn; lia.
  - repeat (constructor; [cbn; intuition congruence|]). constructor.
  - repeat (constructor; [cbn; intuition congruence|]). constructor.
  - exists ret, li, ri. split; [exact Hres|]. split; [exact Hin|].
    intros k Hk. destruct (Hidx k Hk) as [[_ Hl] [_ Hr]]. now split.
Defined.

End IntersectionExamples.

(** ** Expansion of an index pointer *)

Section ExpandIndptrFacts.

Import ExpandIndptr.

Lemma write_all_rd (v : Z) (ps b : list Z) (e : Z) :
  (forall p, In p ps -> 0 <= p < Z.of_nat (length b)) -> 0 <= e ->
  let b' := fold_left (fun b p => <[Z.to_nat p := v]> b) ps b in
  length b' = length b /\
  (In e ps -> b'.[e] = v) /\ (~ In e ps -> b'.[e] = b.[e]).
Proof.
  revert b. induction ps as [|p ps IH]; intros b Hps He; cbn [fold_left].
  - split; [reflexivity|]. split; [intros []|reflexivity].
  - destruct (IH (<[Z.to_nat p := v]> b)) as (Hlen & Hin & Hout).
    { intros q Hq. rewrite length_insert. apply Hps. now right. }
    { exact He. }
    cbn zeta in *. rewrite length_insert in Hlen.
    pose proof (Hps p (or_introl eq_refl)) as Hp.
    split; [exact Hlen|]. split.
    + intros [->|Hin']; [|now apply Hin].
      destruct (in_dec Z.eq_dec e ps) as [Hi|Hni]; [now apply Hin|].
      rewrite Hout by exact Hni. apply rd_insert_eq. exact Hp.
    + intros Hnin. rewrite Hout by (intros H; apply Hnin; now right).
      apply rd_insert_ne; [lia|exact He|]. intros ->. apply Hnin. now left.
Qed.

Lemma copy_buffer_rd (indices_t : ScalarType) (nodes : option (list Z))
    (indptr b : list Z) (i e : Z) :
  0 <= indptr.[i] -> indptr.[i + 1] <= Z.of_nat (length b) -> 0 <= e ->
  let b' := copy_buffer indices_t nodes indptr b i in
  length b' = length b /\
  (indptr.[i] <= e < indptr.[i + 1] ->
     b'.[e] = cast indices_t (RepeatIndex indices_t nodes i)) /\
  (~ indptr.[i] <= e < indptr.[i + 1] -> b'.[e] = b.[e]).
Proof.
  intros Hlo Hhi He. unfold copy_buffer, OutputBufferIndexer, AdjacentDifference.
  destruct (write_all_rd (cast indices_t (RepeatIndex indices_t nodes i))
              (iota indptr.[i] (Z.to_nat (indptr.[i + 1] - indptr.[i]))) b e)
    as (Hlen & Hin & Hout).
  - intros p Hp. apply in_iota in Hp. lia.
  - exact He.
  - cbn zeta in *. split; [exact Hlen|]. split.
    + intros Hr. apply Hin, in_iota. lia.
    + intros Hr. apply Hout. rewrite in_iota. lia.
Qed.

End ExpandIndptrFacts.

Section ExpandIndptrClaim.

Import ExpandIndptr.

Variable empty : Z -> list Z.
Variable indptr : list Z.
Variable output_dtype : ScalarType.
Variable nodes : option (list Z).

Local Abbreviation num_rows := (Z.of_nat (length indptr) - 1).
Local Abbreviation covers i e := (indptr.[i] <= e < indptr.[i + 1]).
Local Abbreviation value i := (cast output_dtype (RepeatIndex output_dtype nodes i)).

Lemma covered_dec (schedule : list Z) (e : Z) :
  (exists i, In i schedule /\ covers i e) \/
  (forall i, In i schedule -> ~ covers i e).
Proof.
  induction schedule as [|i l IH]; [right; intros i []|].
  destruct (Z_le_dec indptr.[i] e) as [H1|H1];
    [destruct (Z_lt_dec e indptr.[i + 1]) as [H2|H2]|].
  - left. exists i. split; [now left|lia].
  - destruct IH as [(i1 & Hi1 & Hc1)|Hnone].
    + left. exists i1. split; [now right|exact Hc1].
    + right. intros j [<-|Hj]; [lia|now apply Hnone].
  - destruct IH as [(i1 & Hi1 & Hc1)|Hnone].
    + left. exists i1. split; [now right|exact Hc1].
    + right. intros j [<-|Hj]; [lia|now apply Hnone].
Qed.

Lemma copies_rd (schedule b : list Z) (e : Z) :
  (forall i i', 0 <= i <= i' -> i' <= num_rows -> indptr.[i] <= indptr.[i']) ->
  0 <= indptr.[0] -> indptr.[num_rows] <= Z.of_nat (length b) ->
  (forall i, In i schedule -> 0 <= i < num_rows) -> 0 <= e ->
  let b' := fold_left (copy_buffer output_dtype nodes indptr) schedule b in
  length b' = length b /\
  (forall i, In i schedule -> covers i e -> b'.[e] = value i) /\
  ((forall i, In i schedule -> ~ covers i e) -> b'.[e] = b.[e]).
Proof.
  intros Hmono H0 Hend. revert b Hend.
  induction schedule as [|i0 schedule IH]; intros b Hend Hrows He; cbn [fold_left].
  - split; [reflexivity|]. split; [intros i []|reflexivity].
  - pose proof (Hrows i0 (or_introl eq_refl)) as Hi0.
    assert (Hlo : 0 <= indptr.[i0]).
    { specialize (Hmono 0 i0). lia. }
    assert (Hhi : indptr.[i0 + 1] <= Z.of_nat (length b)).
    { specialize (Hmono (i0 + 1) num_rows). lia. }
    destruct (copy_buffer_rd output_dtype nodes indptr b i0 e Hlo Hhi He)
      as (Hlen1 & Hin1 & Hout1).
    cbn zeta in *.
    destruct (IH (copy_buffer output_dtype nodes indptr b i0)) as (Hlen & Hin & Hout).
    { now rewrite Hlen1. }
    { intros i Hi. apply Hrows. now right. }
    { exact He. }
    cbn zeta in *.
    assert (Huniq : forall i i', 0 <= i < num_rows -> 0 <= i' < num_rows ->
              covers i e -> covers i' e -> i = i').
    { intros i i' Hi Hi' Hc Hc'.
      destruct (Z.lt_trichotomy i i') as [Hlt|[Heq|Hgt]]; [|exact Heq|].
      - specialize (Hmono (i + 1) i'). lia.
      - specialize (Hmono (i' + 1) i). lia. }
    split; [now rewrite Hlen, Hlen1|]. split.
    + intros i Hi Hc.
      destruct (covered_dec schedule e) as [(i1 & Hi1 & Hc1)|Hnone].
      * rewrite (Huniq i i1); [now apply Hin| | |exact Hc|exact Hc1].
        -- apply Hrows. exact Hi.
        -- apply Hrows. now right.
      * rewrite Hout by exact Hnone. destruct Hi as [->|Hi]; [now apply Hin1|].
        exfalso. now apply (Hnone i).
    + intros Hnone. rewrite Hout by (intros i Hi; apply Hnone; now right).
      apply Hout1, Hnone. now left.
Qed.

(** X18.  For an index pointer that does not decrease and starts at a
    non-negative offset, and an output of at least [indptr[num_rows]] cells
    ([num_edges], or [indptr[num_rows]] when it is not given),
    [ExpandIndptrImpl] returns a tensor of [num_edges] cells in which every
    position [e] of the extent [[indptr[i], indptr[i+1])] of row [i] holds
    the value repeated for row [i], converted to the output type: [nodes[i]]
    when [nodes] is given and the row id [i] otherwise, for a row id that
    the output type can hold.  The cells before [indptr[0]] and from
    [indptr[num_rows]] on keep what [torch::empty] left there.  The order in
    which the copies take effect does not matter. *)
Theorem ExpandIndptr_repeats_row_ids (schedule : list Z) (num_edges : option Z) :
  let n := match num_edges with Some n => n | None => indptr.[num_rows] end in
  (1 <= length indptr)%nat ->
  (forall i i', 0 <= i <= i' -> i' <= num_rows -> indptr.[i] <= indptr.[i']) ->
  0 <= indptr.[0] -> indptr.[num_rows] <= n ->
  length (empty n) = Z.to_nat n ->
  Permutation schedule (iota 0 (Z.to_nat num_rows)) ->
  let res := ExpandIndptrImpl empty schedule indptr output_dtype num_edges nodes in
  length res = Z.to_nat n /\
  (forall i e, 0 <= i < num_rows -> indptr.[i] <= e < indptr.[i + 1] ->
     res.[e] = cast output_dtype (RepeatIndex output_dtype nodes i)) /\
  (forall i e, 0 <= i < num_rows -> indptr.[i] <= e < indptr.[i + 1] ->
     cast output_dtype i = i ->
     res.[e] = cast output_dtype
                 match nodes with Some nodes => nodes.[i] | None => i end) /\
  (forall e, 0 <= e < indptr.[0] \/ indptr.[num_rows] <= e -> res.[e] = (empty n).[e]).
Proof.
  intros n Hne Hmono H0 Hn Hempty Hperm res.
  assert (Hrows : forall i, In i schedule <-> 0 <= i < num_rows).
  { intros i. split.
    - intros Hi. apply (Permutation_in _ Hperm), in_iota in Hi. lia.
    - intros Hi. apply (Permutation_in _ (Permutation_sym Hperm)), in_iota. lia. }
  assert (Hres : res = fold_left (copy_buffer output_dtype nodes indptr) schedule (empty n))
    by reflexivity.
  assert (Hend : indptr.[num_rows] <= Z.of_nat (length (empty n))) by (rewrite Hempty; lia).
  assert (Hall : forall e, 0 <= e ->
            length res = length (empty n) /\
            (forall i, In i schedule -> covers i e -> res.[e] = value i) /\
            ((forall i, In i schedule -> ~ covers i e) -> res.[e] = (empty n).[e])).
  { intros e He. rewrite Hres.
    apply (copies_rd schedule (empty n) e Hmono H0 Hend); [|exact He].
    intros i Hi. now apply Hrows. }
  assert (Hwritten : forall i e, 0 <= i < num_rows -> covers i e -> res.[e] = value i).
  { intros i e Hi Hc. assert (He : 0 <= e) by (specialize (Hmono 0 i); lia).
    destruct (Hall e He) as (_ & Hin & _). apply Hin; [now apply Hrows|exact Hc]. }
  split; [|split; [|split]].
  - destruct (Hall 0 ltac:(lia)) as (Hlen & _). now rewrite Hlen.
  - exact Hwritten.
  - intros i e Hi Hc Hfit. rewrite (Hwritten i e Hi Hc). unfold RepeatIndex.
    now rewrite Hfit.
  - intros e He.
    assert (He0 : 0 <= e) by (specialize (Hmono 0 num_rows); lia).
    destruct (Hall e He0) as (_ & _ & Hout). apply Hout.
    intros i Hi Hc. apply Hrows in Hi.
    pose proof (Hmono 0 i). pose proof (Hmono (i + 1) num_rows). lia.
Qed.

End ExpandIndptrClaim.

Lemma ExpandIndptr_repeats_row_ids_witness :
  let res :=
    ExpandIndptr.ExpandIndptrImpl (fun n => replicate (Z.to_nat n) (-1))
      [2; 0; 1] [0; 2; 2; 5] ExpandIndptr.Long None (Some [10; 20; 30]) in
  length res = 5%nat /\ res.[0] = 10 /\ res.[1] = 10 /\ res.[4] = 30.
Proof.
  intros res.
  destruct (ExpandIndptr_repeats_row_ids (fun n => replicate (Z.to_nat n) (-1))
              [0; 2; 2; 5] ExpandIndptr.Long (Some [10; 20; 30]) [2; 0; 1] None)
    as (Hlen & _ & Hval & _).
  - simpl. lia.
  - intros i i' Hi Hi'. cbn in Hi'.
    assert (Hc : i = 0 \/ i = 1 \/ i = 2 \/ i = 3) by lia.
    assert (Hc' : i' = 0 \/ i' = 1 \/ i' = 2 \/ i' = 3) by lia.
    destruct Hc as [->|[->|[->| ->]]]; destruct Hc' as [->|[->|[->| ->]]];
      unfold rd; simpl; lia.
  - unfold rd; simpl; lia.
  - unfold rd; simpl; lia.
  - cbn. reflexivity.
  - change (Permutation [2; 0; 1] [0; 1; 2]).
    apply perm_trans with [0; 2; 1]; [apply perm_swap|apply perm_skip, perm_swap].
  - fold res in Hlen, Hval. split; [exact Hlen|].
    split; [|split].
    + apply (Hval 0 0); [unfold rd; simpl; lia|unfold rd; simpl; lia|reflexivity].
    + apply (Hval 0 1); [unfold rd; simpl; lia|unfold rd; simpl; lia|reflexivity].
    + apply (Hval 2 4); [unfold rd; simpl; lia|unfold rd; simpl; lia|reflexivity].
Defined.

Lemma COOIntersection_reports_duplicated_entries_witness :
  let lhs := Intersection.mkSparseCOO 2 2 ([1; 1], [0; 0]) false false in
  let rhs := Intersection.mkSparseCOO 2 2 ([], []) false false in
  exists ret lhs_indices rhs_indices,
    Intersection.COOIntersection Intersection.unique_dim_ascending (map (fun _ => 0))
      lhs rhs = Ok (ret, lhs_indices, rhs_indices) /\
    In (1, 0) (Intersection.entries ret).
Proof.
  intros lhs rhs.
  apply (COOIntersection_reports_duplicated_entries Intersection.unique_dim_ascending
           (map (fun _ => 0)) unique_dim_ascending_spec lhs rhs (1, 0) [] [] []).
  - reflexivity.
  - simpl. lia.
  - simpl. lia.
  - reflexivity.
  - reflexivity.
Defined.
